(** * Plinko Lab: the provably-fair seed protocol and the deterministic engine

    A shallow embedding of [src/lib/prng.ts] (the generator [XORShift32], the
    commit-reveal functions of [ProvablyFairProtocol], the round source
    [RoundRNG]) and of the engine that follows it in the same file
    ([PlinkoEngine]: peg map, ball drop, pay table, [playRound]).

    JavaScript numbers that only ever hold integers (generator state, loop
    counters, columns, cents) are [Z] or [nat]; every number that holds a
    fraction is a binary64 [float] of the kernel, so that sums, products,
    quotients and comparisons round exactly as they do in the source.
    Integer arguments (row count, stake, bin count) stand for JavaScript
    numbers holding that integer, which binary64 does exactly below 2^53;
    the drop column, which the engine only does arithmetic on, is a [float],
    so that NaN, the infinities and fractions are drop columns too.
    Strings are [string]s over the Latin-1 alphabet; the hash is SHA-256 over
    their UTF-8 encoding, as [createHash('sha256').update(s).digest('hex')]. *)

From Stdlib Require Import ZArith List String Ascii Bool Lia Floats.
From Stdlib Require Import Btauto.
Import ListNotations.
Set Warnings "-inexact-float".
Local Open Scope Z_scope.

(** ** SHA-256 (FIPS 180-4), the digest behind [createHash('sha256')] *)
Module SHA256.

Definition w32 (x : Z) : Z := Z.land x 0xFFFFFFFF.
Definition add32 (x y : Z) : Z := w32 (x + y).
Definition rotr (n x : Z) : Z :=
  w32 (Z.lor (Z.shiftr x n) (Z.shiftl x (32 - n))).
Definition Ch (x y z : Z) : Z :=
  Z.lxor (Z.land x y) (Z.land (Z.lxor x 0xFFFFFFFF) z).
Definition Maj (x y z : Z) : Z :=
  Z.lxor (Z.lxor (Z.land x y) (Z.land x z)) (Z.land y z).
Definition Sigma0 (x : Z) : Z := Z.lxor (Z.lxor (rotr 2 x) (rotr 13 x)) (rotr 22 x).
Definition Sigma1 (x : Z) : Z := Z.lxor (Z.lxor (rotr 6 x) (rotr 11 x)) (rotr 25 x).
Definition sigma0 (x : Z) : Z := Z.lxor (Z.lxor (rotr 7 x) (rotr 18 x)) (Z.shiftr x 3).
Definition sigma1 (x : Z) : Z := Z.lxor (Z.lxor (rotr 17 x) (rotr 19 x)) (Z.shiftr x 10).

(** The first [n] primes, by trial division against those found so far. *)
Fixpoint primes_loop (fuel n : nat) (c : Z) (found : list Z) : list Z :=
  match fuel, n with
  | S fuel', S n' =>
      if forallb (fun p => negb (c mod p =? 0)) found
      then primes_loop fuel' n' (c + 1) (found ++ [c])
      else primes_loop fuel' n (c + 1) found
  | _, _ => found
  end.

Definition primes (n : nat) : list Z := primes_loop 400 n 2 [].

(** The integer cube root, by bisection of [lo <= root < hi]. *)
Fixpoint cbrt_loop (fuel : nat) (lo hi x : Z) : Z :=
  match fuel with
  | O => lo
  | S fuel' =>
      let mid := (lo + hi) / 2 in
      if mid * mid * mid <=? x then cbrt_loop fuel' mid hi x
      else cbrt_loop fuel' lo mid x
  end.

(** The round constants: the first 32 bits of the fractional parts of the
    cube roots of the first 64 primes. *)
Definition K : list Z :=
  Eval vm_compute in
    map (fun p => w32 (cbrt_loop 40 0 (2 ^ 36) (p * 2 ^ 96))) (primes 64).

(** The initial hash value: the same of the square roots of the first 8. *)
Definition H0 : list Z :=
  Eval vm_compute in map (fun p => w32 (Z.sqrt (p * 2 ^ 64))) (primes 8).

(** Big-endian packing of the padded message into 32-bit words. *)
Fixpoint words_of_bytes (bs : list Z) : list Z :=
  match bs with
  | a :: b :: c :: d :: r =>
      (Z.shiftl a 24 + Z.shiftl b 16 + Z.shiftl c 8 + d) :: words_of_bytes r
  | _ => []
  end.

Definition be_bytes (n : nat) (x : Z) : list Z :=
  map (fun i => Z.land (Z.shiftr x (8 * Z.of_nat i)) 0xFF) (rev (seq 0 n)).

Definition pad (msg : list Z) : list Z :=
  let l := Z.of_nat (List.length msg) in
  msg ++ [0x80] ++ repeat 0 (Z.to_nat ((55 - l) mod 64)) ++ be_bytes 8 (8 * l).

Fixpoint chunks (n fuel : nat) (l : list Z) : list (list Z) :=
  match fuel with
  | O => []
  | S fuel' =>
      match l with
      | [] => []
      | _ => firstn n l :: chunks n fuel' (skipn n l)
      end
  end.

(** Message schedule; the list holds W[t-1] .. W[0], newest first. *)
Fixpoint schedule (n : nat) (w : list Z) : list Z :=
  match n with
  | O => w
  | S n' =>
      schedule n'
        (add32 (add32 (sigma1 (nth 1 w 0)) (nth 6 w 0))
               (add32 (sigma0 (nth 14 w 0)) (nth 15 w 0)) :: w)
  end.

Definition round (st : list Z) (kw : Z * Z) : list Z :=
  match st with
  | [a; b; c; d; e; f; g; h] =>
      let t1 := add32 (add32 (add32 h (Sigma1 e)) (add32 (Ch e f g) (fst kw))) (snd kw) in
      let t2 := add32 (Sigma0 a) (Maj a b c) in
      [add32 t1 t2; a; b; c; add32 d t1; e; f; g]
  | _ => st
  end.

Definition compress (h block : list Z) : list Z :=
  let w := rev (schedule 48 (rev block)) in
  map (fun p => add32 (fst p) (snd p)) (combine h (fold_left round (combine K w) h)).

Definition digest (msg : list Z) : list Z :=
  let ws := words_of_bytes (pad msg) in
  fold_left compress (chunks 16 (List.length ws) ws) H0.

Definition hex_digit (x : Z) : ascii :=
  ascii_of_nat (Z.to_nat (if x <? 10 then 48 + x else 87 + x)).

Definition hex_word (w : Z) : string :=
  string_of_list_ascii
    (map (fun i => hex_digit (Z.land (Z.shiftr w (4 * Z.of_nat i)) 0xF)) (rev (seq 0 8))).

(** UTF-8 bytes of a Latin-1 string: one byte below 128, two from there on. *)
Definition utf8 (s : string) : list Z :=
  flat_map
    (fun c => let n := Z.of_nat (nat_of_ascii c) in
              if n <? 128 then [n]
              else [Z.lor 0xC0 (Z.shiftr n 6); Z.lor 0x80 (Z.land n 0x3F)])
    (list_ascii_of_string s).

(** [createHash('sha256').update(s).digest('hex')] *)
Definition hex (s : string) : string :=
  fold_right (fun w acc => (hex_word w ++ acc)%string) EmptyString (digest (utf8 s)).

End SHA256.

(** ** The JavaScript operators and built-ins the source relies on *)
Module JS.

(** The numbers [parseInt] can return: an integer, or NaN. *)
Inductive number : Type :=
  | NaN
  | Int (z : Z).

Definition ToUint32 (z : Z) : Z := z mod 2 ^ 32.
Definition ToInt32 (z : Z) : Z := (z + 2 ^ 31) mod 2 ^ 32 - 2 ^ 31.

(** [a << n], [a >>> n] and [a ^ b] for shift counts below 32. *)
Definition shl (a n : Z) : Z := ToInt32 (Z.shiftl (ToInt32 a) n).
Definition ushr (a n : Z) : Z := Z.shiftr (ToUint32 a) n.
Definition xor (a b : Z) : Z := Z.lxor (ToInt32 a) (ToInt32 b).

(** [x >>> 0] on a number: NaN becomes 0, an integer wraps to 32 bits. *)
Definition ushr0 (x : number) : Z :=
  match x with
  | NaN => 0
  | Int z => ToUint32 z
  end.

(** The binary64 value of an integer: exact below 2^53, rounded to nearest
    (ties to even) beyond. *)
Definition N2F (z : Z) : float :=
  if z <? 2 ^ 63 then of_uint63 (Uint63.of_Z z)
  else SF2Prim (binary_normalize prec emax z 0 false).

Definition Z2F (z : Z) : float :=
  if z <? 0 then (- N2F (- z))%float else N2F z.

(** [Math.round]: the nearest integer, a tie going towards +infinity; NaN,
    the infinities and integral values are returned as they are. *)
Definition Math_round (x : float) : float :=
  match Prim2SF x with
  | S754_finite s m e =>
      if 0 <=? e then x
      else
        let q := Z.shiftr (Zpos m) (- e) in
        let r := Z.land (Zpos m) (Z.ones (- e)) in
        let half := Z.shiftl 1 (- e - 1) in
        if s then
          let n := if half <? r then q + 1 else q in
          if n =? 0 then neg_zero else (- N2F n)%float
        else N2F (if half <=? r then q + 1 else q)
  | _ => x
  end.

Definition is_neg_zero (x : float) : bool := is_zero x && get_sign x.

(** [Math.min(a, b)] and [Math.max(a, b)]: NaN if either is NaN, and -0
    counts as smaller than +0. *)
Definition Math_min (a b : float) : float :=
  if is_nan a || is_nan b then nan
  else if (a <? b)%float then a
  else if (b <? a)%float then b
  else if is_neg_zero a then a else b.

Definition Math_max (a b : float) : float :=
  if is_nan a || is_nan b then nan
  else if (a <? b)%float then b
  else if (b <? a)%float then a
  else if is_neg_zero a then b else a.

(** [parseInt(s, 16)]: skip leading white space, read an optional sign and
    an optional [0x] prefix, then the longest run of hexadecimal digits; NaN
    when that run is empty.  The strings parsed here have at most 8
    characters, so the value is exact. *)
Definition is_white_space (c : ascii) : bool :=
  let n := nat_of_ascii c in
  ((9 <=? n) && (n <=? 13) || (n =? 32) || (n =? 160))%nat.

Definition hex_value (c : ascii) : option Z :=
  let n := Z.of_nat (nat_of_ascii c) in
  if (48 <=? n) && (n <=? 57) then Some (n - 48)
  else if (97 <=? n) && (n <=? 102) then Some (n - 87)
  else if (65 <=? n) && (n <=? 70) then Some (n - 55)
  else None.

Fixpoint trim_start (s : string) : string :=
  match s with
  | String c r => if is_white_space c then trim_start r else s
  | EmptyString => s
  end.

Definition strip_0x (s : string) : string :=
  match s with
  | String "0" (String "x" r) => r
  | String "0" (String "X" r) => r
  | _ => s
  end.

(** The digits are folded most significant first; [None] until one is seen. *)
Fixpoint hex_digits (s : string) (acc : option Z) : option Z :=
  match s with
  | String c r =>
      match hex_value c with
      | Some d => hex_digits r (Some (16 * match acc with Some a => a | None => 0 end + d))
      | None => acc
      end
  | EmptyString => acc
  end.

Definition parseInt16 (s : string) : number :=
  let t := trim_start s in
  let '(sign, u) :=
    match t with
    | String "-" r => (-1, r)
    | String "+" r => (1, r)
    | _ => (1, t)
    end in
  match hex_digits (strip_0x u) None with
  | Some v => Int (sign * v)
  | None => NaN
  end.

(** [Number::toString] in radix 10 on the finite values, as ECMAScript
    defines it: the shortest run of decimal digits that reads back as the
    same binary64, laid out plainly or with an exponent by its magnitude. *)
Fixpoint decimal_loop (fuel : nat) (n : Z) (acc : string) : string :=
  match fuel with
  | O => acc
  | S fuel' =>
      let acc' := String (ascii_of_nat (Z.to_nat (48 + n mod 10))) acc in
      if n <? 10 then acc' else decimal_loop fuel' (n / 10) acc'
  end.

Definition decimal (n : Z) : string :=
  decimal_loop (S (Z.to_nat (Z.log2 n))) n EmptyString.

Definition zeros (n : Z) : string :=
  string_of_list_ascii (repeat "0"%char (Z.to_nat n)).

(** Fractions [(p, q)] with [q > 0], and [x * 2^a * 10^b] among them. *)
Definition scaled (x a b : Z) : Z * Z :=
  ((if 0 <=? a then x * 2 ^ a else x) * (if 0 <=? b then 10 ^ b else 1),
   (if 0 <=? a then 1 else 2 ^ (- a)) * (if 0 <=? b then 1 else 10 ^ (- b))).

Definition fcompare (u v : Z * Z) : comparison :=
  fst u * snd v ?= fst v * snd u.

Definition fleb (u v : Z * Z) : bool :=
  match fcompare u v with Gt => false | _ => true end.

Definition fltb (u v : Z * Z) : bool :=
  match fcompare u v with Lt => true | _ => false end.

(** The [n] with [10^(n-1) <= m * 2^e < 10^n], reached from an estimate. *)
Fixpoint magnitude10_loop (fuel : nat) (m e n : Z) : Z :=
  match fuel with
  | O => n
  | S fuel' =>
      if fltb (scaled m e 0) (scaled 1 0 (n - 1)) then magnitude10_loop fuel' m e (n - 1)
      else if fleb (scaled 1 0 n) (scaled m e 0) then magnitude10_loop fuel' m e (n + 1)
      else n
  end.

Definition magnitude10 (m e : Z) : Z :=
  magnitude10_loop 700 m e (((Z.log2 m + 1 + e) * 1233) / 4096).

(** Does the decimal [s * 10^(-p)] read back as the binary64 [m * 2^e]?  It
    does inside the rounding interval of that value, ends included when the
    mantissa is even. *)
Definition reads_back (m e s p : Z) : bool :=
  let low := if (m =? 2 ^ 52) && (emin <? e) then 4 * m - 1 else 4 * m - 2 in
  let c := scaled s 0 (- p) in
  if Z.even m
  then fleb (scaled low (e - 2) 0) c && fleb c (scaled (4 * m + 2) (e - 2) 0)
  else fltb (scaled low (e - 2) 0) c && fltb c (scaled (4 * m + 2) (e - 2) 0).

(** The digits [s] and the exponent [n], trying [k] = 1, 2, ... digits. *)
Fixpoint shortest_loop (fuel : nat) (m e n k : Z) : Z * Z :=
  let p := k - n in
  let t := scaled m e p in
  let sl := fst t / snd t in
  let sh := sl + 1 in
  let okl := reads_back m e sl p in
  let okh := reads_back m e sh p in
  let up :=
    if okl && okh then
      match 2 * fst t ?= (2 * sl + 1) * snd t with
      | Lt => false
      | Gt => true
      | Eq => Z.odd sl
      end
    else okh in
  match fuel with
  | S fuel' =>
      if okl || okh then
        if up then (if sh =? 10 ^ k then (10 ^ (k - 1), n + 1) else (sh, n))
        else (sl, n)
      else shortest_loop fuel' m e n (k + 1)
  | O => (sl, n)
  end.

Definition layout (s n : Z) : string :=
  let ds := decimal s in
  let k := Z.of_nat (String.length ds) in
  if (k <=? n) && (n <=? 21) then (ds ++ zeros (n - k))%string
  else if (0 <? n) && (n <=? 21) then
    (String.substring 0 (Z.to_nat n) ds ++ "." ++ String.substring (Z.to_nat n) (Z.to_nat (k - n)) ds)%string
  else if (-6 <? n) && (n <=? 0) then ("0." ++ zeros (- n) ++ ds)%string
  else
    let ex := ((if (0 <=? n - 1)%Z then "e+" else "e-") ++ decimal (Z.abs (n - 1)))%string in
    if k =? 1 then (ds ++ ex)%string
    else (String.substring 0 1 ds ++ "." ++ String.substring 1 (Z.to_nat (k - 1)) ds ++ ex)%string.

Definition Number_toString (x : float) : string :=
  match Prim2SF x with
  | S754_nan => "NaN"%string
  | S754_zero _ => "0"%string
  | S754_infinity s => if s then "-Infinity"%string else "Infinity"%string
  | S754_finite s m e =>
      let '(d, n) := shortest_loop 17 (Zpos m) e (magnitude10 (Zpos m) e) 1 in
      ((if s then "-" else "") ++ layout d n)%string
  end.

(** [JSON.stringify] of a number, and of an array given its items' texts. *)
Definition JSON_number (x : float) : string :=
  match Prim2SF x with
  | S754_nan | S754_infinity _ => "null"%string
  | _ => Number_toString x
  end.

Definition JSON_array (items : list string) : string :=
  ("[" ++ String.concat "," items ++ "]")%string.

(** [parseInt(s)] with no radix: as [parseInt(s, 16)] above, except that the
    digits are decimal unless the text (after white space and sign) starts
    with [0x] or [0X]. *)
Definition has_0x (s : string) : bool :=
  match s with
  | String "0" (String "x" _) => true
  | String "0" (String "X" _) => true
  | _ => false
  end.

Definition digit_value (radix : Z) (c : ascii) : option Z :=
  match hex_value c with
  | Some d => if d <? radix then Some d else None
  | None => None
  end.

Fixpoint digits (radix : Z) (s : string) (acc : option Z) : option Z :=
  match s with
  | String c r =>
      match digit_value radix c with
      | Some d => digits radix r (Some (radix * match acc with Some a => a | None => 0 end + d))
      | None => acc
      end
  | EmptyString => acc
  end.

Definition parseInt (s : string) : number :=
  let t := trim_start s in
  let '(sign, u) :=
    match t with
    | String "-" r => (-1, r)
    | String "+" r => (1, r)
    | _ => (1, t)
    end in
  let radix := if has_0x u then 16 else 10 in
  match digits radix (strip_0x u) None with
  | Some v => Int (sign * v)
  | None => NaN
  end.

(** [isNaN(x)] *)
Definition isNaN (x : number) : bool :=
  match x with
  | NaN => true
  | Int _ => false
  end.

(** [s.substring(start, end)] on integers: both ends are brought into
    [0, s.length] and swapped if they come in the wrong order. *)
Definition substring (s : string) (start end_ : Z) : string :=
  let len := Z.of_nat (String.length s) in
  let finalStart := Z.min (Z.max start 0) len in
  let finalEnd := Z.min (Z.max end_ 0) len in
  let from := Z.min finalStart finalEnd in
  let to := Z.max finalStart finalEnd in
  String.substring (Z.to_nat from) (Z.to_nat (to - from)) s.

(** [x.toFixed(f)] for [f] in 0..100 (beyond, the source would get a
    RangeError).  Of a finite [x] below 10^21 in magnitude it writes the
    integer [n] nearest to [|x| * 10^f], the larger of two equally near, with
    a point before its last [f] digits, zeros put in front as needed. *)
Definition place (n : Z) (f : nat) : string :=
  let m := if n =? 0 then "0"%string else decimal n in
  if (f =? 0)%nat then m
  else
    let k := String.length m in
    let m' := if (k <=? f)%nat then (zeros (Z.of_nat (f + 1 - k)) ++ m)%string else m in
    let k' := String.length m' in
    (String.substring 0 (k' - f) m' ++ "." ++ String.substring (k' - f) f m')%string.

Definition toFixed (x : float) (f : nat) : string :=
  match Prim2SF x with
  | S754_finite s m e =>
      if fleb (scaled 1 0 21) (scaled (Zpos m) e 0)
      then ((if s then "-" else "") ++ Number_toString (abs x))%string
      else
        let t := scaled (Zpos m) e (Z.of_nat f) in
        let n := (2 * fst t + snd t) / (2 * snd t) in
        ((if s then "-" else "") ++ place n f)%string
  | S754_zero _ => place 0 f
  | _ => Number_toString x
  end.

(** [parseFloat(s)]: skip leading white space, read an optional sign, then
    either [Infinity] or the longest decimal literal at the head of the text
    (digits, a point and digits, an exponent [e] or [E] with its own optional
    sign); NaN when there is neither.  The literal's value is rounded to the
    nearest binary64, ties to even; ECMAScript leaves the engine a choice
    between two neighbours for literals of more than 20 significant digits,
    and the value written here is the one of the exact literal. *)
Fixpoint decimal_run (s : string) (acc count : Z) : Z * Z * string :=
  match s with
  | String c r =>
      match digit_value 10 c with
      | Some d => decimal_run r (10 * acc + d) (count + 1)
      | None => (acc, count, s)
      end
  | EmptyString => (acc, count, s)
  end.

Definition exponent_part (s : string) : Z :=
  match s with
  | String c r =>
      if (c =? "e")%char || (c =? "E")%char then
        let '(sign, u) :=
          match r with
          | String "-" u => (-1, u)
          | String "+" u => (1, u)
          | _ => (1, r)
          end in
        let '(v, n, _) := decimal_run u 0 0 in
        if n =? 0 then 0 else sign * v
      else 0
  | EmptyString => 0
  end.

(** The binary64 nearest to [m * 10^e], for [0 <= m]. *)
Definition of_decimal (m e : Z) : float :=
  if m =? 0 then 0%float
  else if 0 <=? e then SF2Prim (binary_normalize prec emax (m * 10 ^ e) 0 false)
  else
    let '(q, e', l) := SFdiv_core_binary prec emax m 0 (10 ^ (- e)) 0 in
    SF2Prim (binary_round_aux prec emax false q e' l).

Definition parseFloat (s : string) : float :=
  let t := trim_start s in
  let '(negative, u) :=
    match t with
    | String "-" r => (true, r)
    | String "+" r => (false, r)
    | _ => (false, t)
    end in
  let magnitude :=
    if String.prefix "Infinity" u then infinity
    else
      let '(a, na, r1) := decimal_run u 0 0 in
      let '(b, nb, r2) :=
        match r1 with
        | String "." r => decimal_run r a 0
        | _ => (a, 0, r1)
        end in
      if (na =? 0) && (nb =? 0) then nan
      else of_decimal b (exponent_part r2 - nb) in
  if negative then (- magnitude)%float else magnitude.

End JS.

(** ** [XORShift32] *)
Module XORShift32.

Record t : Type := { state : Z }.

(** [constructor(seed)] *)
Definition new (seed : JS.number) : t :=
  let s := JS.ushr0 seed in
  {| state := if s =? 0 then 1 else s |}.

(** The four assignments of [next()] to [this.state]. *)
Definition next_state (s : Z) : Z :=
  let s1 := JS.xor s (JS.shl s 13) in
  let s2 := JS.xor s1 (JS.ushr s1 17) in
  let s3 := JS.xor s2 (JS.shl s2 5) in
  JS.ushr s3 0.

(** [this.state / 0x100000000] *)
Definition to_unit (s : Z) : float := (JS.Z2F s / 4294967296)%float.

Definition next (g : t) : float * t :=
  let s := next_state (state g) in
  (to_unit s, {| state := s |}).

Definition getState (g : t) : Z := state g.

End XORShift32.

(** ** [ProvablyFairProtocol]: the pure functions of the commit-reveal scheme *)
Module ProvablyFairProtocol.

(** [generateServerSeed()], as a function of what [Math.random()] and
    [Date.now()] return when it is called. *)
Definition generateServerSeed (random : float) (now : Z) : string :=
  SHA256.hex (JS.Number_toString random ++ JS.decimal now).

Definition createCommitHash (serverSeed nonce : string) : string :=
  SHA256.hex (serverSeed ++ ":" ++ nonce).

Definition generateCombinedSeed (serverSeed clientSeed nonce : string) : string :=
  SHA256.hex (serverSeed ++ ":" ++ clientSeed ++ ":" ++ nonce).

Definition extractPRNGSeed (combinedSeed : string) : JS.number :=
  let hexSeed := substring 0 8 combinedSeed in
  JS.parseInt16 hexSeed.

Definition verifyCommit (serverSeed nonce commitHash : string) : bool :=
  let expectedHash := createCommitHash serverSeed nonce in
  String.eqb expectedHash commitHash.

End ProvablyFairProtocol.

(** ** [RoundRNG] *)
Module RoundRNG.

Record t : Type := { prng : XORShift32.t; callCount : Z }.

Definition new (combinedSeed : string) : t :=
  let seed := ProvablyFairProtocol.extractPRNGSeed combinedSeed in
  {| prng := XORShift32.new seed; callCount := 0 |}.

Definition next (r : t) : float * t :=
  let '(v, g) := XORShift32.next (prng r) in
  (v, {| prng := g; callCount := callCount r + 1 |}).

Definition getCallCount (r : t) : Z := callCount r.

Definition reset (combinedSeed : string) (_ : t) : t := new combinedSeed.

End RoundRNG.

(** ** [PlinkoEngine] *)
Module PlinkoEngine.

(** Game configuration constants *)
Definition ROWS : Z := 12.
Definition BINS : Z := ROWS + 1.

Definition PegMap : Type := list (list float).

Inductive Direction : Type := Left | Right.

Record GamePath : Type := {
  row : nat;
  column : nat;
  direction : Direction;
  pegBias : float;
  randomValue : float;
  adjustedBias : float
}.

Record GameResult : Type := {
  pegMap : PegMap;
  pegMapHash : string;
  path : list GamePath;
  binIndex : nat;
  payoutMultiplier : float;
  payoutCents : float;
  rows : Z;
  combinedSeed : string
}.

(** A call either returns or throws; the only exception the engine can
    raise is the [TypeError] of indexing [undefined]. *)
Inductive exn : Type := TypeError.

Inductive outcome (A : Type) : Type :=
  | Returns (a : A)
  | Throws (e : exn).
Arguments Returns {A} a.
Arguments Throws {A} e.

(** Code that draws from the [RoundRNG] it was handed: the generator is
    threaded through, and an exception abandons it. *)
Definition M (A : Type) : Type := RoundRNG.t -> outcome (A * RoundRNG.t).

Definition ret {A : Type} (a : A) : M A := fun r => Returns (a, r).

Definition bind {A B : Type} (m : M A) (k : A -> M B) : M B :=
  fun r =>
    match m r with
    | Returns (a, r') => k a r'
    | Throws e => Throws e
    end.

Definition throw {A : Type} (e : exn) : M A := fun _ => Throws e.

(** [rng.next()] *)
Definition draw : M float := fun r => Returns (RoundRNG.next r).

Notation "x <- m ;; k" := (bind m (fun x => k))
  (at level 61, m at next level, right associativity).

(** *** [generatePegMap] *)
Definition leftBias_of (randomValue : float) : float :=
  (0.5 + (randomValue - 0.5) * 0.2)%float.

Definition roundedBias_of (randomValue : float) : float :=
  (JS.Math_round (leftBias_of randomValue * 1000000) / 1000000)%float.

(** The inner loop, with [n] pegs still to push on [pegRow]. *)
Fixpoint pegLoop (n : nat) (pegRow : list float) : M (list float) :=
  match n with
  | O => ret pegRow
  | S n' =>
      randomValue <- draw ;;
      pegLoop n' (pegRow ++ [roundedBias_of randomValue])
  end.

(** The outer loop at row [row], with [n] rows still to push on [pegMap]. *)
Fixpoint rowLoop (n row : nat) (pegMap : PegMap) : M PegMap :=
  match n with
  | O => ret pegMap
  | S n' =>
      pegRow <- pegLoop (S row) [] ;;
      rowLoop n' (S row) (pegMap ++ [pegRow])
  end.

Definition generatePegMap (rows : Z) : M PegMap :=
  rowLoop (Z.to_nat rows) 0 [].

(** *** [simulateDrop] *)

(** [(dropColumn - Math.floor(ROWS / 2)) * 0.01].  The drop column is a
    JavaScript number: any binary64 value, NaN and the infinities included
    ([undefined], which a caller can pass, gives NaN in the subtraction just
    as NaN does). *)
Definition adj_of (dropColumn : float) : float :=
  ((dropColumn - JS.Z2F (ROWS / 2)) * 0.01)%float.

Definition adjustedBias_of (leftBias adj : float) : float :=
  JS.Math_max 0 (JS.Math_min 1 (leftBias + adj)).

(** The loop at row [row] with [n] rows to go.  [pegMap[row]] missing is
    [undefined], and indexing it throws.  A column missing from a row that
    exists reads [undefined], which the sum with [adj] turns into NaN; the
    maps of [generatePegMap] have every column the loop asks for. *)
Fixpoint dropLoop (pegMap : PegMap) (adj : float) (n row pos : nat)
    (path : list GamePath) : M (list GamePath) :=
  match n with
  | O => ret path
  | S n' =>
      let pegIndex := Nat.min pos row in
      match nth_error pegMap row with
      | None => throw TypeError
      | Some pegRow =>
          let leftBias := nth pegIndex pegRow nan in
          let adjustedBias := adjustedBias_of leftBias adj in
          randomValue <- draw ;;
          let direction := if (randomValue <? adjustedBias)%float then Left else Right in
          let pos' := match direction with Right => S pos | Left => pos end in
          dropLoop pegMap adj n' (S row) pos'
            (path ++ [{| row := row; column := pos'; direction := direction;
                         pegBias := leftBias; randomValue := randomValue;
                         adjustedBias := adjustedBias |}])
      end
  end.

Definition simulateDrop (pegMap : PegMap) (dropColumn : float) : M (list GamePath) :=
  dropLoop pegMap (adj_of dropColumn) (Z.to_nat ROWS) 0 0 [].

(** *** [getPayoutMultipliers] *)
Definition multiplier_of (center i : Z) : float :=
  let distance := Z.abs (i - center) in
  let multiplier := (0.5 + JS.Z2F distance * 0.3)%float in
  (JS.Math_round (multiplier * 100) / 100)%float.

Fixpoint multLoop (center : Z) (n : nat) (i : Z) (multipliers : list float) : list float :=
  match n with
  | O => multipliers
  | S n' => multLoop center n' (i + 1) (multipliers ++ [multiplier_of center i])
  end.

Definition getPayoutMultipliers (bins : Z) : list float :=
  let center := bins / 2 in
  multLoop center (Z.to_nat bins) 0 [].

(** *** [createPegMapHash] *)
(** [JSON.stringify(pegMap)] *)
Definition JSON_stringify (pegMap : PegMap) : string :=
  JS.JSON_array (map (fun pegRow => JS.JSON_array (map JS.JSON_number pegRow)) pegMap).

Definition createPegMapHash (pegMap : PegMap) : string :=
  SHA256.hex (JSON_stringify pegMap).

(** *** [playRound] *)

(** The two stretches of [playRound] that draw from [rng], in their order. *)
Definition drawRound (rows : Z) (dropColumn : float) : M (PegMap * list GamePath) :=
  pegMap <- generatePegMap rows ;;
  path <- simulateDrop pegMap dropColumn ;;
  ret (pegMap, path).

Definition playRound (serverSeed clientSeed nonce : string)
    (dropColumn : float) (rows betCents : Z) : outcome GameResult :=
  let combinedSeed := SHA256.hex (serverSeed ++ ":" ++ clientSeed ++ ":" ++ nonce) in
  let rng := RoundRNG.new combinedSeed in
  match drawRound rows dropColumn rng with
  | Throws e => Throws e
  | Returns ((pegMap, path), _) =>
      let pegMapHash := createPegMapHash pegMap in
      match last (map Some path) None with
      | None => Throws TypeError
      | Some step =>
          let binIndex := column step in
          let multipliers := getPayoutMultipliers BINS in
          let payoutMultiplier := nth binIndex multipliers nan in
          let payoutCents := JS.Math_round (JS.Z2F betCents * payoutMultiplier) in
          Returns {| pegMap := pegMap; pegMapHash := pegMapHash; path := path;
                     binIndex := binIndex; payoutMultiplier := payoutMultiplier;
                     payoutCents := payoutCents; rows := rows;
                     combinedSeed := combinedSeed |}
      end
  end.

End PlinkoEngine.

(** ** [src/lib/utils.ts] *)
Module Utils.

(** [clamp(value, min, max)] *)
Definition clamp (value min max : float) : float :=
  JS.Math_min (JS.Math_max value min) max.

(** [formatCents(cents)] on a whole number of cents *)
Definition formatCents (cents : Z) : string :=
  ("$" ++ JS.toFixed (JS.Z2F cents / 100) 2)%string.

(** [parseDollars(dollarString)]: every [$] and [,] is taken out of the
    text, what is left is read by [parseFloat], and the cents are rounded to
    a whole number (NaN when nothing can be read). *)
Fixpoint cleaned (dollarString : string) : string :=
  match dollarString with
  | String c r =>
      if (c =? "$")%char || (c =? ",")%char then cleaned r else String c (cleaned r)
  | EmptyString => EmptyString
  end.

Definition parseDollars (dollarString : string) : float :=
  JS.Math_round (JS.parseFloat (cleaned dollarString) * 100).

(** [isValidHex(hex)]: the test of [/^[a-fA-F0-9]+$/], one or more
    characters of the class and nothing else. *)
Definition in_class (c : ascii) : bool :=
  let n := nat_of_ascii c in
  ((97 <=? n) && (n <=? 102) || (65 <=? n) && (n <=? 70) || (48 <=? n) && (n <=? 57))%nat.

Definition isValidHex (hex : string) : bool :=
  match hex with
  | EmptyString => false
  | String _ _ => forallb in_class (list_ascii_of_string hex)
  end.

(** [formatHash(hash, length)]; the source's default for [length] is 8. *)
Definition formatHash (hash : string) (length : Z) : string :=
  let len := Z.of_nat (String.length hash) in
  if len <=? length * 2 then hash
  else (JS.substring hash 0 length ++ "..." ++ JS.substring hash (len - length) len)%string.

End Utils.

(** ** [src/app/api/verify/route.ts] *)
Module VerifyRoute.

(** The body of a 200 response. *)
Record Body : Type := {
  serverSeed : string;
  clientSeed : string;
  nonce : string;
  dropColumn : Z;
  commitHex : string;
  combinedSeed : string;
  pegMapHash : string;
  binIndex : nat;
  payoutMultiplier : float;
  pegMap : PlinkoEngine.PegMap;
  path : list PlinkoEngine.GamePath;
  commitValid : bool;
  rows : Z
}.

(** [NextResponse.json({ error }, { status })] or [NextResponse.json(body)]. *)
Inductive Response : Type :=
  | Error (status : Z) (error : string)
  | Ok (body : Body).

(** [searchParams.get] answers a string or [null]; [!p] holds of [null] and
    of the empty string. *)
Definition not (p : option string) : bool :=
  match p with
  | None => true
  | Some s => String.eqb s ""
  end.

Definition is_null (p : option string) : bool :=
  match p with
  | None => true
  | Some _ => false
  end.

Definition text (p : option string) : string :=
  match p with
  | None => ""
  | Some s => s
  end.

(** [GET(request)], from the four query parameters it reads. *)
Definition GET (serverSeed clientSeed nonce dropColumn : option string) : Response :=
  if not serverSeed || not clientSeed || not nonce || is_null dropColumn then
    Error 400 "Missing required parameters: serverSeed, clientSeed, nonce, dropColumn"
  else
    let dropCol := JS.parseInt (text dropColumn) in
    match dropCol with
    | JS.NaN => Error 400 "Drop column must be a number between 0 and 12"
    | JS.Int col =>
        if (col <? 0) || (12 <? col) then
          Error 400 "Drop column must be a number between 0 and 12"
        else
          let commitHex :=
            ProvablyFairProtocol.createCommitHash (text serverSeed) (text nonce) in
          let combinedSeed :=
            ProvablyFairProtocol.generateCombinedSeed
              (text serverSeed) (text clientSeed) (text nonce) in
          match PlinkoEngine.playRound (text serverSeed) (text clientSeed) (text nonce)
                  (JS.Z2F col) 12 100 with
          | PlinkoEngine.Throws _ => Error 500 "Failed to verify round"
          | PlinkoEngine.Returns gameResult =>
              let commitValid :=
                ProvablyFairProtocol.verifyCommit (text serverSeed) (text nonce) commitHex in
              Ok {| serverSeed := text serverSeed;
                    clientSeed := text clientSeed;
                    nonce := text nonce;
                    dropColumn := col;
                    commitHex := commitHex;
                    combinedSeed := combinedSeed;
                    pegMapHash := PlinkoEngine.pegMapHash gameResult;
                    binIndex := PlinkoEngine.binIndex gameResult;
                    payoutMultiplier := PlinkoEngine.payoutMultiplier gameResult;
                    pegMap := PlinkoEngine.pegMap gameResult;
                    path := PlinkoEngine.path gameResult;
                    commitValid := commitValid;
                    rows := 12 |}
          end
    end.

End VerifyRoute.

(** * Specification-level definitions *)

(** ** The stream of a round source, for stating what the loops consume *)
Module Stream.

(** The source after [n] calls of [next()]. *)
Fixpoint advance (n : nat) (r : RoundRNG.t) : RoundRNG.t :=
  match n with
  | O => r
  | S n' => advance n' (snd (RoundRNG.next r))
  end.

(** The values of the next [n] calls, in call order. *)
Fixpoint draws (n : nat) (r : RoundRNG.t) : list float :=
  match n with
  | O => []
  | S n' => fst (RoundRNG.next r) :: draws n' (snd (RoundRNG.next r))
  end.

(** The value of call number [k], counting from 0. *)
Definition draw_at (k : nat) (r : RoundRNG.t) : float :=
  fst (RoundRNG.next (advance k r)).

(** The number of pegs in rows [0 .. n-1]. *)
Fixpoint triangular (n : nat) : nat :=
  match n with
  | O => O
  | S n' => (triangular n' + S n')%nat
  end.

(** The rows [row .. row+n-1] of a peg map drawn from [r]. *)
Fixpoint triangle (n row : nat) (r : RoundRNG.t) : PlinkoEngine.PegMap :=
  match n with
  | O => []
  | S n' =>
      map PlinkoEngine.roundedBias_of (draws (S row) r)
        :: triangle n' (S row) (advance (S row) r)
  end.

(** The draws that rows [row .. row+n-1] consume. *)
Fixpoint consumed (n row : nat) : nat :=
  match n with
  | O => O
  | S n' => (S row + consumed n' (S row))%nat
  end.

(** The step the drop records at [row] when the ball is at [pos] and the
    draw is [rv]. *)
Definition step_at (pegMap : PlinkoEngine.PegMap) (adj : float)
    (row pos : nat) (rv : float) : PlinkoEngine.GamePath :=
  let leftBias := nth (Nat.min pos row) (nth row pegMap []) nan in
  let adjusted := PlinkoEngine.adjustedBias_of leftBias adj in
  let dir := if (rv <? adjusted)%float then PlinkoEngine.Left else PlinkoEngine.Right in
  {| PlinkoEngine.row := row;
     PlinkoEngine.column :=
       match dir with PlinkoEngine.Right => S pos | PlinkoEngine.Left => pos end;
     PlinkoEngine.direction := dir;
     PlinkoEngine.pegBias := leftBias;
     PlinkoEngine.randomValue := rv;
     PlinkoEngine.adjustedBias := adjusted |}.

(** The path of [n] rows from [row], the ball starting at [pos]. *)
Fixpoint walk (pegMap : PlinkoEngine.PegMap) (adj : float)
    (n row pos : nat) (r : RoundRNG.t) : list PlinkoEngine.GamePath :=
  match n with
  | O => []
  | S n' =>
      let s := step_at pegMap adj row pos (fst (RoundRNG.next r)) in
      s :: walk pegMap adj n' (S row) (PlinkoEngine.column s) (snd (RoundRNG.next r))
  end.

End Stream.

(** ** The xorshift transformation as the specification words it *)
Module Xorshift.

(** Left shift by 13, right shift by 17, left shift by 5, each XORed into
    the state and kept to 32 bits. *)
Definition xorshift32_step (s : Z) : Z :=
  let x1 := Z.lxor s (Z.shiftl s 13) mod 2 ^ 32 in
  let x2 := Z.lxor x1 (Z.shiftr x1 17) mod 2 ^ 32 in
  Z.lxor x2 (Z.shiftl x2 5) mod 2 ^ 32.

(** Call number [k] of [next()], counting from 0: its value and the
    generator it leaves. *)
Fixpoint nth_call (k : nat) (g : XORShift32.t) : float * XORShift32.t :=
  match k with
  | O => XORShift32.next g
  | S k' => nth_call k' (snd (XORShift32.next g))
  end.

End Xorshift.

(** ** Seeds that [parseInt] cannot read *)
Module Seeds.

Definition is_hex_digit (c : ascii) : bool :=
  match JS.hex_value c with
  | Some _ => true
  | None => false
  end.

Definition is_sign (c : ascii) : bool :=
  (Ascii.eqb c "-" || Ascii.eqb c "+")%bool.

(** The first character is there, and is neither a hexadecimal digit, nor
    white space, nor a sign. *)
Definition starts_unreadable (s : string) : bool :=
  match s with
  | String c _ => negb (is_hex_digit c) && negb (JS.is_white_space c) && negb (is_sign c)
  | EmptyString => false
  end.

End Seeds.

(** ** Rounding to a number of decimal digits, as the specification names it *)
Module Decimal.

Definition round_2dp (x : float) : float := (JS.Math_round (x * 100) / 100)%float.

Definition round_6dp (x : float) : float := (JS.Math_round (x * 1000000) / 1000000)%float.

(** Two values agree within the tolerance 1e-6. *)
Definition close_to (x y : float) : bool := (abs (x - y) <? 0.000001)%float.

End Decimal.

(** ** The literal end-to-end vector *)
Module Vector.

Definition serverSeed : string :=
  "b2a5f3f32a4d9c6ee7a8c1d33456677890abcdeffedcba0987654321ffeeddcc".

Definition clientSeed : string := "candidate-hello".

Definition nonce : string := "42".

Definition combinedSeed : string :=
  "e1dddf77de27d395ea2be2ed49aa2a59bd6bf12ee8d350c16c008abd406c07e0".

End Vector.

(** ** Binary64 values as integers

    Every finite binary64 number is an integer multiple of 2^-1074.  The
    definitions below give each float that integer ([SFval], [val]), with
    the infinities at [top] = 2^1024 in the same unit, and describe
    rounding to nearest, ties to even, on exact fractions of such units. *)
Module Binary64.

(** The place of a real between two mantissas, as two bits below the
    mantissa: the half bit and the sticky bit. *)
Definition lcode (l : location) : Z :=
  match l with
  | loc_Exact => 0
  | loc_Inexact Lt => 1
  | loc_Inexact Eq => 2
  | loc_Inexact Gt => 3
  end.

Definition rcode (r : shr_record) : Z :=
  4 * shr_m r + (if shr_r r then 2 else 0) + (if shr_s r then 1 else 0).

(** The code of the fraction [a / b]: its floor, half bit and sticky bit. *)
Definition qcode (a b : Z) : Z :=
  2 * (2 * a / b) + (if (2 * a) mod b =? 0 then 0 else 1).

(** Round a code to nearest, ties to even. *)
Definition rne (c : Z) : Z :=
  c / 4 + (if (c mod 4 =? 3) || ((c mod 4 =? 2) && Z.odd (c / 4)) then 1 else 0).

Definition top : Z := 2 ^ 2098.

(** The exponent, counted from -1074, at which [a / b] units keep 53 bits. *)
Definition target (a b : Z) : Z := Z.max (Zdigits2 (a / b) - 53) 0.

(** The binary64 nearest to [a / b] units, for [0 <= a] and [0 < b]. *)
Definition RNDpos (a b : Z) : Z :=
  let E := target a b in
  Z.min (rne (qcode a (b * 2 ^ E)) * 2 ^ E) top.

(** The same for a fraction of either sign. *)
Definition RND (p q : Z) : Z :=
  if p <? 0 then - RNDpos (- p) q else RNDpos p q.

(** The rounding of [A / B * 2^e]. *)
Definition RNDe (A B e : Z) : Z :=
  RNDpos (A * 2 ^ Z.max (e + 1074) 0) (B * 2 ^ Z.max (- 1074 - e) 0).

Definition SFval (x : spec_float) : Z :=
  match x with
  | S754_zero _ => 0
  | S754_infinity s => if s then - top else top
  | S754_nan => 0
  | S754_finite s m e => if s then - (Zpos m * 2 ^ (e + 1074)) else Zpos m * 2 ^ (e + 1074)
  end.

Definition not_nan (x : spec_float) : bool :=
  match x with
  | S754_nan => false
  | _ => true
  end.

Definition finite_or_zero (X : spec_float) : bool :=
  match X with
  | S754_zero _ | S754_finite _ _ _ => true
  | _ => false
  end.

(** The value of a primitive float, and whether it is a number. *)
Definition val (x : float) : Z := SFval (Prim2SF x).

Definition is_num (x : float) : bool := not_nan (Prim2SF x).

(** A function of finite values, extended to the infinities. *)
Definition extend (h : Z -> Z) (v : Z) : Z :=
  if v <=? - top then - top else if top <=? v then top else h v.

(** Nondecreasing functions on floats. *)
Definition mono (f : float -> float) : Prop :=
  forall x y : float, (x <=? y)%float = true -> (f x <=? f y)%float = true.

(** The nearest integer, a tie going up, on values in units of 2^-1074. *)
Definition RHU (v : Z) : Z := 2 ^ 1074 * ((v + 2 ^ 1073) / 2 ^ 1074).

End Binary64.

(** ** What the path and the digests are measured by *)
Module Measure.

(** The number of steps of a path that went right. *)
Definition rights (path : list PlinkoEngine.GamePath) : nat :=
  List.length
    (filter (fun step =>
               match PlinkoEngine.direction step with
               | PlinkoEngine.Right => true
               | PlinkoEngine.Left => false
               end) path).

(** A digit [0-9] or a letter [a-f]. *)
Definition lower_hex (c : ascii) : bool :=
  let n := nat_of_ascii c in
  ((48 <=? n) && (n <=? 57) || (97 <=? n) && (n <=? 102))%nat.

(** 64 characters, each a digit or a letter [a-f]: a SHA-256 digest in
    hexadecimal. *)
Definition hex64 (h : string) : bool :=
  (String.length h =? 64)%nat && forallb lower_hex (list_ascii_of_string h).

(** A 32-bit word. *)
Definition word32 (w : Z) : bool := (0 <=? w) && (w <? 2 ^ 32).

(** What ends the number [parseInt] reads: the end of the text, or a
    character that is neither a decimal digit nor [x] or [X]. *)
Definition stops_number (rest : string) : bool :=
  match rest with
  | EmptyString => true
  | String ch _ =>
      match JS.digit_value 10 ch with
      | Some _ => false
      | None => negb (Ascii.eqb ch "x" || Ascii.eqb ch "X")
      end
  end.

(** The decimal digit [d] as a character, a run of digits as text, and the
    number a run of digits writes after [acc]. *)
Definition digit_char (d : Z) : ascii := ascii_of_nat (Z.to_nat (48 + d)).

Definition numeral (ds : list Z) : string :=
  string_of_list_ascii (map digit_char ds).

Definition number_of (ds : list Z) (acc : Z) : Z :=
  fold_left (fun a d => 10 * a + d) ds acc.

End Measure.

(** ** The xorshift step, bit by bit *)
Module Bitwise.

(** Bit [k] of the state after the first, the second and the third
    xorshift, from the bits [t] of the state before. *)
Definition bitA (t : Z -> bool) (k : Z) : bool :=
  xorb (t k) (if 13 <=? k then t (k - 13) else false).

Definition bitB (t : Z -> bool) (k : Z) : bool :=
  xorb (bitA t k) (if k + 17 <? 32 then bitA t (k + 17) else false).

Definition bitC (t : Z -> bool) (k : Z) : bool :=
  xorb (bitB t k) (if 5 <=? k then bitB t (k - 5) else false).

(** Bit [i] of the XOR of a state with its successor. *)
Definition moved (t : Z -> bool) (i : Z) : bool := xorb (bitC t i) (t i).

(** The XOR of the bits of [moved] that a mask selects. *)
Definition combine (t : Z -> bool) (mask : Z) : bool :=
  fold_right (fun i acc => if Z.testbit mask i then xorb (moved t i) acc else acc)
    false (map Z.of_nat (seq 0 32)).

(** The inverse, over the field of two elements, of the step plus the
    identity: entry [j] selects the bits of [moved] whose XOR is bit [j] of
    the state. *)
Definition inverse : list Z :=
  [
   0x24a4a5bf; 0x6dedeec0; 0xdbdbdd80; 0x3fffff07;
   0x7ffffe0e; 0xfffffc1c; 0x53131981; 0xa6263302;
   0xc4042203; 0x00400001; 0x00800002; 0x01000004;
   0x02000008; 0x04000010; 0x2ca4a59e; 0x7dedee82;
   0xfbdbdd04; 0x7ffffe0f; 0xfffffc1e; 0x53131985;
   0xa626330a; 0xc4042213; 0x24e4a59f; 0x6d6dee80;
   0xdadbdd00; 0x3dfffe07; 0x7bfffc0e; 0xf7fff81c;
   0x43131181; 0x86262302; 0xa0a0a7bc; 0xedadaec1
  ].

End Bitwise.

(** * Properties *)

(** ** The loops of the engine *)
Section Loops.
Import PlinkoEngine Stream.

Lemma advance_add (a b : nat) (r : RoundRNG.t) :
  advance (a + b) r = advance b (advance a r).
Proof.
  revert r; induction a as [|a IH]; intros r; simpl; [reflexivity|apply IH].
Qed.

Lemma draws_length (n : nat) (r : RoundRNG.t) : List.length (draws n r) = n.
Proof.
  revert r; induction n as [|n IH]; intros r; simpl; [reflexivity|now rewrite IH].
Qed.

Lemma draw_at_0 (r : RoundRNG.t) : draw_at 0 r = fst (RoundRNG.next r).
Proof. unfold draw_at. cbn [advance]. reflexivity. Qed.

Lemma draw_at_S (k : nat) (r : RoundRNG.t) :
  draw_at (S k) r = draw_at k (snd (RoundRNG.next r)).
Proof. unfold draw_at. cbn [advance]. reflexivity. Qed.

Lemma draws_nth (n k : nat) (r : RoundRNG.t) :
  (k < n)%nat -> nth_error (draws n r) k = Some (draw_at k r).
Proof.
  revert k r; induction n as [|n IH]; intros k r Hk; [lia|].
  destruct k as [|k]; cbn [draws nth_error].
  - now rewrite draw_at_0.
  - rewrite IH by lia. now rewrite draw_at_S.
Qed.

Lemma callCount_next (r : RoundRNG.t) :
  RoundRNG.callCount (snd (RoundRNG.next r)) = RoundRNG.callCount r + 1.
Proof. reflexivity. Qed.

Lemma callCount_advance (n : nat) (r : RoundRNG.t) :
  RoundRNG.callCount (advance n r) = RoundRNG.callCount r + Z.of_nat n.
Proof.
  revert r; induction n as [|n IH]; intros r.
  - simpl. lia.
  - cbn [advance]. rewrite IH, callCount_next. lia.
Qed.

Lemma triangular_closed (n : nat) :
  Z.of_nat (triangular n) = Z.of_nat n * (Z.of_nat n + 1) / 2.
Proof.
  induction n as [|n IH]; [reflexivity|].
  cbn [triangular]. rewrite Nat2Z.inj_add, IH, Nat2Z.inj_succ.
  replace (Z.succ (Z.of_nat n) * (Z.succ (Z.of_nat n) + 1))
    with (Z.of_nat n * (Z.of_nat n + 1) + Z.succ (Z.of_nat n) * 2) by ring.
  rewrite Z.div_add by lia. reflexivity.
Qed.

(** [pegLoop] pushes the rounded biases of the next [n] draws. *)
Lemma pegLoop_spec (n : nat) (pegRow : list float) (r : RoundRNG.t) :
  pegLoop n pegRow r =
  Returns (pegRow ++ map roundedBias_of (draws n r), advance n r).
Proof.
  revert pegRow r; induction n as [|n IH]; intros pegRow r.
  - simpl. unfold ret. now rewrite app_nil_r.
  - cbn [pegLoop draws advance map]. unfold bind, draw.
    destruct (RoundRNG.next r) as [v r'] eqn:E. cbn [fst snd].
    rewrite IH, <- app_assoc. reflexivity.
Qed.

Lemma rowLoop_spec (n row : nat) (pegMap : PegMap) (r : RoundRNG.t) :
  rowLoop n row pegMap r =
  Returns (pegMap ++ triangle n row r, advance (consumed n row) r).
Proof.
  revert row pegMap r; induction n as [|n IH]; intros row pegMap r.
  - simpl. unfold ret. now rewrite app_nil_r.
  - cbn [rowLoop]. unfold bind. rewrite pegLoop_spec.
    rewrite IH, <- app_assoc. cbn [triangle consumed app].
    rewrite advance_add. reflexivity.
Qed.

Lemma consumed_triangular (n row : nat) :
  (consumed n row + triangular row = triangular (n + row))%nat.
Proof.
  revert row; induction n as [|n IH]; intros row; [reflexivity|].
  cbn [consumed]. specialize (IH (S row)). cbn [triangular] in IH.
  replace (S n + row)%nat with (n + S row)%nat by lia. lia.
Qed.

Lemma triangle_length (n row : nat) (r : RoundRNG.t) :
  List.length (triangle n row r) = n.
Proof.
  revert row r; induction n as [|n IH]; intros row r; simpl; [reflexivity|].
  now rewrite IH.
Qed.

(** Row [row + k] of the triangle: its [row + k + 1] entries are the rounded
    biases of consecutive draws, starting where the rows above stopped. *)
Lemma triangle_nth (n row k : nat) (r : RoundRNG.t) :
  (k < n)%nat ->
  nth_error (triangle n row r) k =
  Some (map roundedBias_of (draws (S (row + k)) (advance (consumed k row) r))).
Proof.
  revert row k r; induction n as [|n IH]; intros row k r Hk; [lia|].
  destruct k as [|k].
  - cbn. now rewrite Nat.add_0_r.
  - cbn [triangle nth_error]. rewrite IH by lia.
    cbn [consumed]. rewrite advance_add.
    now replace (S row + k)%nat with (row + S k)%nat by lia.
Qed.

Lemma generatePegMap_spec (rows : Z) (r : RoundRNG.t) :
  generatePegMap rows r =
  Returns (triangle (Z.to_nat rows) 0 r, advance (triangular (Z.to_nat rows)) r).
Proof.
  unfold generatePegMap. rewrite rowLoop_spec. cbn [app].
  pose proof (consumed_triangular (Z.to_nat rows) 0) as H.
  cbn [triangular] in H. rewrite !Nat.add_0_r in H. now rewrite H.
Qed.

End Loops.

(** ** The ball drop as a function of the draws *)
Section Drop.
Import PlinkoEngine Stream.

Variable pegMap : PegMap.
Variable adj : float.

Lemma dropLoop_returns (n row pos : nat) (path : list GamePath) (r : RoundRNG.t) :
  (row + n <= List.length pegMap)%nat ->
  dropLoop pegMap adj n row pos path r =
  Returns (path ++ walk pegMap adj n row pos r, advance n r).
Proof.
  revert row pos path r; induction n as [|n IH]; intros row pos path r Hlen.
  - simpl. unfold ret. now rewrite app_nil_r.
  - cbn [dropLoop walk advance].
    destruct (nth_error pegMap row) as [pegRow|] eqn:E.
    2:{ apply nth_error_None in E. lia. }
    unfold bind, draw. destruct (RoundRNG.next r) as [rv r'] eqn:En.
    cbn [fst snd]. unfold step_at.
    rewrite (nth_error_nth _ _ [] E).
    destruct (rv <? adjustedBias_of (nth (Nat.min pos row) pegRow nan) adj)%float;
      cbn [column]; rewrite IH by lia; rewrite <- app_assoc; reflexivity.
Qed.

Lemma dropLoop_throws (n row pos : nat) (path : list GamePath) (r : RoundRNG.t) :
  (row <= List.length pegMap < row + n)%nat ->
  dropLoop pegMap adj n row pos path r = Throws TypeError.
Proof.
  revert row pos path r; induction n as [|n IH]; intros row pos path r Hlen; [lia|].
  cbn [dropLoop].
  destruct (nth_error pegMap row) as [pegRow|] eqn:E; [|reflexivity].
  assert (row < List.length pegMap)%nat by (apply nth_error_Some; congruence).
  unfold bind, draw. destruct (RoundRNG.next r) as [rv r'].
  destruct (rv <? _)%float; apply IH; lia.
Qed.

Lemma walk_length (n row pos : nat) (r : RoundRNG.t) :
  List.length (walk pegMap adj n row pos r) = n.
Proof.
  revert row pos r; induction n as [|n IH]; intros; simpl; [reflexivity|].
  now rewrite IH.
Qed.

Lemma step_at_column (row pos : nat) (rv : float) :
  (pos <= column (step_at pegMap adj row pos rv) <= S pos)%nat.
Proof. unfold step_at. destruct (rv <? _)%float; cbn [column]; lia. Qed.

(** Step [k] of a walk: its row, the draw it used, and how far the ball can
    have moved. *)
Lemma walk_nth (n row pos k : nat) (r : RoundRNG.t) (s : GamePath) :
  nth_error (walk pegMap adj n row pos r) k = Some s ->
  exists p, (pos <= p <= pos + k)%nat /\
            s = step_at pegMap adj (row + k) p (draw_at k r).
Proof.
  revert row pos k r s; induction n as [|n IH]; intros row pos k r s H.
  - destruct k; discriminate.
  - destruct k as [|k]; cbn [walk nth_error] in H.
    + assert (Hs : s = step_at pegMap adj row pos (fst (RoundRNG.next r)))
        by congruence.
      exists pos. split; [lia|].
      now rewrite Nat.add_0_r, draw_at_0.
    + apply IH in H. destruct H as (p & Hp & ->).
      pose proof (step_at_column row pos (fst (RoundRNG.next r))).
      exists p. split; [lia|].
      rewrite draw_at_S.
      now replace (S row + k)%nat with (row + S k)%nat by lia.
Qed.

End Drop.

Lemma last_Some {A : Type} (l : list A) (d : A) :
  l <> [] -> last (map Some l) None = Some (last l d).
Proof.
  induction l as [|a l IH]; intros H; [congruence|].
  destruct l as [|b l]; [reflexivity|].
  change (last (map Some (b :: l)) None = Some (last (b :: l) d)).
  apply IH. discriminate.
Qed.

(** ** When [playRound] returns, and what it returns *)
Section PlayRound.
Import PlinkoEngine Stream.

Lemma drawRound_returns (rows : Z) (dropColumn : float) (r : RoundRNG.t) :
  12 <= rows ->
  let pm := triangle (Z.to_nat rows) 0 r in
  let r1 := advance (triangular (Z.to_nat rows)) r in
  drawRound rows dropColumn r =
  Returns (pm, walk pm (adj_of dropColumn) 12 0 0 r1, advance 12 r1).
Proof.
  intros Hrows pm r1. unfold drawRound, bind.
  rewrite generatePegMap_spec. fold pm r1.
  unfold simulateDrop. change (Z.to_nat ROWS) with 12%nat.
  rewrite dropLoop_returns by (unfold pm; rewrite triangle_length; lia).
  reflexivity.
Qed.

Lemma drawRound_throws (rows : Z) (dropColumn : float) (r : RoundRNG.t) :
  rows < 12 -> drawRound rows dropColumn r = Throws TypeError.
Proof.
  intros Hrows. unfold drawRound, bind.
  rewrite generatePegMap_spec.
  unfold simulateDrop. change (Z.to_nat ROWS) with 12%nat.
  rewrite dropLoop_throws by (rewrite triangle_length; lia).
  reflexivity.
Qed.

(** The result of a round of at least 12 rows, field by field. *)
Lemma playRound_returns (serverSeed clientSeed nonce : string)
    (dropColumn : float) (rows betCents : Z) :
  12 <= rows ->
  let seed := SHA256.hex (serverSeed ++ ":" ++ clientSeed ++ ":" ++ nonce) in
  let r := RoundRNG.new seed in
  let pm := triangle (Z.to_nat rows) 0 r in
  let p := walk pm (adj_of dropColumn) 12 0 0 (advance (triangular (Z.to_nat rows)) r) in
  exists step,
    last (map Some p) None = Some step /\
    playRound serverSeed clientSeed nonce dropColumn rows betCents =
    Returns {| pegMap := pm; pegMapHash := createPegMapHash pm; path := p;
               binIndex := column step;
               payoutMultiplier := nth (column step) (getPayoutMultipliers BINS) nan;
               payoutCents :=
                 JS.Math_round
                   (JS.Z2F betCents * nth (column step) (getPayoutMultipliers BINS) nan);
               rows := rows; combinedSeed := seed |}.
Proof.
  intros Hrows seed r pm p.
  assert (Hp : p <> []).
  { intros E. apply (f_equal (@List.length _)) in E.
    unfold p in E. rewrite walk_length in E. discriminate. }
  exists (last p (step_at pm (adj_of dropColumn) 0 0 0)).
  split; [apply last_Some, Hp|].
  unfold playRound. fold seed. fold r.
  rewrite drawRound_returns by assumption. fold pm. fold p.
  rewrite (last_Some p (step_at pm (adj_of dropColumn) 0 0 0) Hp).
  reflexivity.
Qed.

Lemma playRound_throws (serverSeed clientSeed nonce : string)
    (dropColumn : float) (rows betCents : Z) :
  rows < 12 ->
  playRound serverSeed clientSeed nonce dropColumn rows betCents = Throws TypeError.
Proof.
  intros Hrows. unfold playRound. now rewrite drawRound_throws.
Qed.

End PlayRound.

(** ** Binary64 arithmetic: rounding is monotone

    The operations of the kernel's floats are specified by [SpecFloat]; the
    sections below show that each of them rounds the exact result of the
    values of its arguments ([bra_val], [SFmul_val], [SFadd_val],
    [SFdiv_val]) and that this rounding never reverses an order
    ([RNDpos_mono]), which is what bounds on computed floats rest on. *)
Section Digits.
Import Binary64.

Lemma digits2_pos_bounds (p : positive) :
  2 ^ (Zpos (digits2_pos p) - 1) <= Zpos p < 2 ^ Zpos (digits2_pos p).
Proof.
  induction p as [p IH|p IH|]; cbn [digits2_pos].
  - rewrite Pos2Z.inj_succ, Z.pow_succ_r by lia.
    replace (Z.succ (Zpos (digits2_pos p)) - 1) with (Z.succ (Zpos (digits2_pos p) - 1)) by lia.
    rewrite Z.pow_succ_r by lia. lia.
  - rewrite Pos2Z.inj_succ, Z.pow_succ_r by lia.
    replace (Z.succ (Zpos (digits2_pos p)) - 1) with (Z.succ (Zpos (digits2_pos p) - 1)) by lia.
    rewrite Z.pow_succ_r by lia. lia.
  - cbn. lia.
Qed.

Lemma Zdigits2_bounds (m : Z) :
  0 < m -> 2 ^ (Zdigits2 m - 1) <= m < 2 ^ Zdigits2 m.
Proof.
  destruct m as [|p|p]; try lia. intros _. apply digits2_pos_bounds.
Qed.

Lemma Zdigits2_nonneg (m : Z) : 0 <= Zdigits2 m.
Proof. destruct m; cbn; lia. Qed.

Lemma Zdigits2_pos (m : Z) : 0 < m -> 0 < Zdigits2 m.
Proof. destruct m; cbn; lia. Qed.

Lemma Zdigits2_unique (m d : Z) :
  2 ^ (d - 1) <= m < 2 ^ d -> 0 < m -> Zdigits2 m = d.
Proof.
  intros H Hm. pose proof (Zdigits2_bounds m Hm) as B.
  pose proof (Zdigits2_pos m Hm) as P.
  assert (0 < d).
  { destruct (Z_lt_le_dec 0 d); [assumption|].
    destruct (Z.eq_dec d 0) as [->|]; [cbn in H; lia|].
    rewrite (Z.pow_neg_r 2 d) in H by lia. lia. }
  destruct (Z.lt_trichotomy (Zdigits2 m) d) as [L|[E|G]]; [|assumption|].
  - assert (2 ^ Zdigits2 m <= 2 ^ (d - 1)) by (apply Z.pow_le_mono_r; lia). lia.
  - assert (2 ^ d <= 2 ^ (Zdigits2 m - 1)) by (apply Z.pow_le_mono_r; lia). lia.
Qed.

Lemma Zdigits2_le (a b : Z) : 0 <= a <= b -> Zdigits2 a <= Zdigits2 b.
Proof.
  intros H. destruct (Z.eq_dec a 0) as [->|Ha]; [apply Zdigits2_nonneg|].
  pose proof (Zdigits2_bounds a ltac:(lia)) as Ba.
  pose proof (Zdigits2_bounds b ltac:(lia)) as Bb.
  destruct (Z_lt_le_dec (Zdigits2 b) (Zdigits2 a)) as [L|]; [|assumption].
  assert (2 ^ Zdigits2 b <= 2 ^ (Zdigits2 a - 1)) by (apply Z.pow_le_mono_r; lia). lia.
Qed.

(** Shifting left adds digits; shifting right drops them. *)
Lemma Zdigits2_shl (m k : Z) : 0 < m -> 0 <= k -> Zdigits2 (m * 2 ^ k) = Zdigits2 m + k.
Proof.
  intros Hm Hk. pose proof (Zdigits2_bounds m Hm) as B.
  pose proof (Zdigits2_pos m Hm).
  apply Zdigits2_unique; [|pose proof (Z.pow_pos_nonneg 2 k); nia].
  replace (Zdigits2 m + k - 1) with ((Zdigits2 m - 1) + k) by lia.
  rewrite !Z.pow_add_r by lia.
  pose proof (Z.pow_pos_nonneg 2 k ltac:(lia) Hk). nia.
Qed.

Lemma div_pow2_lower (m d k : Z) :
  0 <= k -> 0 <= d -> 2 ^ (d + k) <= m -> 2 ^ d <= m / 2 ^ k.
Proof.
  intros Hk Hd H. apply Z.div_le_lower_bound; [apply Z.pow_pos_nonneg; lia|].
  rewrite <- Z.pow_add_r by lia. now rewrite Z.add_comm.
Qed.

Lemma div_pow2_upper (m d k : Z) :
  0 <= k -> 0 <= d -> m < 2 ^ (d + k) -> m / 2 ^ k < 2 ^ d.
Proof.
  intros Hk Hd H. apply Z.div_lt_upper_bound; [apply Z.pow_pos_nonneg; lia|].
  rewrite <- Z.pow_add_r by lia. now rewrite Z.add_comm.
Qed.

Lemma Zdigits2_shr (m k : Z) :
  0 < m -> 0 <= k -> Zdigits2 (m / 2 ^ k) = Z.max (Zdigits2 m - k) 0.
Proof.
  intros Hm Hk. pose proof (Zdigits2_bounds m Hm) as B.
  pose proof (Zdigits2_pos m Hm).
  destruct (Z_lt_le_dec k (Zdigits2 m)) as [L|G].
  - rewrite Z.max_l by lia. apply Zdigits2_unique.
    + split.
      * apply div_pow2_lower; try lia.
        now replace (Zdigits2 m - k - 1 + k) with (Zdigits2 m - 1) by lia.
      * apply div_pow2_upper; try lia.
        now replace (Zdigits2 m - k + k) with (Zdigits2 m) by lia.
    + assert (2 ^ 0 <= m / 2 ^ k); [|cbn in *; lia].
      apply div_pow2_lower; try lia.
      assert (2 ^ (0 + k) <= 2 ^ (Zdigits2 m - 1)) by (apply Z.pow_le_mono_r; lia). lia.
  - rewrite Z.max_r by lia.
    rewrite Z.div_small; [reflexivity|].
    assert (2 ^ Zdigits2 m <= 2 ^ k) by (apply Z.pow_le_mono_r; lia). lia.
Qed.

End Digits.

Section Codes.
Import Binary64.

Lemma div_le_cross (a1 b1 a2 b2 : Z) :
  0 < b1 -> 0 < b2 -> a1 * b2 <= a2 * b1 -> a1 / b1 <= a2 / b2.
Proof.
  intros H1 H2 H.
  apply Z.div_le_lower_bound; [assumption|].
  pose proof (Z.mul_div_le a1 b1 H1).
  pose proof (Z.mod_pos_bound a1 b1 H1).
  pose proof (Z.div_mod a1 b1 ltac:(lia)).
  (* b2 * (a1 / b1) <= a2 : from b1 * b2 * (a1/b1) <= a1 * b2 <= a2 * b1 *)
  assert (b1 * (b2 * (a1 / b1)) <= b1 * a2) by nia.
  nia.
Qed.

Lemma qcode_nonneg (a b : Z) : 0 <= a -> 0 < b -> 0 <= qcode a b.
Proof.
  intros Ha Hb. unfold qcode.
  pose proof (Z.div_pos (2 * a) b ltac:(lia) Hb).
  destruct (_ =? _); lia.
Qed.

Lemma qcode_div4 (a b : Z) : 0 < b -> qcode a b / 4 = a / b.
Proof.
  intros Hb. unfold qcode.
  replace (2 * a / b) with ((a * 2) / b) by (f_equal; lia).
  assert (E : (2 * (a * 2 / b) + (if (2 * a) mod b =? 0 then 0 else 1)) / 2 = a * 2 / b).
  { destruct (_ =? _).
    - rewrite Z.add_0_r, Z.mul_comm. apply Z.div_mul. lia.
    - rewrite Z.mul_comm, Z.add_comm.
      rewrite Z.div_add by lia. reflexivity. }
  replace 4 with (2 * 2) by reflexivity.
  rewrite <- Z.div_div by lia. rewrite E.
  rewrite Z.div_div by lia.
  apply Z.div_mul_cancel_r; lia.
Qed.

Lemma qcode_mono (a1 b1 a2 b2 : Z) :
  0 < b1 -> 0 < b2 -> a1 * b2 <= a2 * b1 -> qcode a1 b1 <= qcode a2 b2.
Proof.
  intros H1 H2 H. unfold qcode.
  assert (L : 2 * a1 / b1 <= 2 * a2 / b2) by (apply div_le_cross; lia).
  destruct (Z.eq_dec (2 * a1 / b1) (2 * a2 / b2)) as [E|N].
  2:{ destruct (_ =? _); destruct (_ =? _); lia. }
  rewrite E.
  destruct ((2 * a2) mod b2 =? 0) eqn:S2; [|destruct ((2 * a1) mod b1 =? 0); lia].
  destruct ((2 * a1) mod b1 =? 0) eqn:S1; [lia|].
  exfalso. apply Z.eqb_eq in S2. apply Z.eqb_neq in S1.
  pose proof (Z.div_mod (2 * a1) b1 ltac:(lia)).
  pose proof (Z.div_mod (2 * a2) b2 ltac:(lia)).
  pose proof (Z.mod_pos_bound (2 * a1) b1 H1).
  rewrite E in *. nia.
Qed.

Lemma qcode_ext (a1 b1 a2 b2 : Z) :
  0 < b1 -> 0 < b2 -> a1 * b2 = a2 * b1 -> qcode a1 b1 = qcode a2 b2.
Proof.
  intros H1 H2 H. apply Z.le_antisymm; apply qcode_mono; lia.
Qed.

(** Every code is the code of itself over 4. *)
Lemma qcode_self (c : Z) : qcode c 4 = c.
Proof.
  unfold qcode.
  pose proof (Z.div_mod c 2 ltac:(lia)) as D.
  pose proof (Z.mod_pos_bound c 2 ltac:(lia)) as B.
  replace (2 * c / 4) with (c / 2).
  2:{ replace 4 with (2 * 2) by reflexivity.
      rewrite Z.div_mul_cancel_l by lia. reflexivity. }
  replace ((2 * c) mod 4) with (2 * (c mod 2)).
  2:{ replace 4 with (2 * 2) by reflexivity.
      rewrite Z.mul_mod_distr_l by lia. reflexivity. }
  destruct (2 * (c mod 2) =? 0) eqn:E; [apply Z.eqb_eq in E|apply Z.eqb_neq in E]; lia.
Qed.

(** Dropping [k] more bits of a code: the code over a denominator [k] times larger. *)
Lemma qcode_coarsen (a b k : Z) :
  0 < b -> 0 < k -> qcode (qcode a b) (4 * k) = qcode a (b * k).
Proof.
  intros Hb Hk. unfold qcode at 1 3.
  set (c := qcode a b).
  assert (Hc2 : c / 2 = 2 * a / b).
  { unfold c, qcode. destruct (_ =? _).
    - rewrite Z.add_0_r, Z.mul_comm. apply Z.div_mul. lia.
    - rewrite Z.mul_comm, Z.add_comm. rewrite Z.div_add by lia. reflexivity. }
  assert (Hq : 2 * c / (4 * k) = 2 * a / (b * k)).
  { replace (4 * k) with (2 * (2 * k)) by lia.
    rewrite Z.div_mul_cancel_l by lia.
    rewrite <- Z.div_div by lia. rewrite Hc2. rewrite Z.div_div by lia. reflexivity. }
  rewrite Hq. f_equal.
  assert (Hm : ((2 * c) mod (4 * k) =? 0) = ((2 * a) mod (b * k) =? 0)).
  { pose proof (Z.div_mod (2 * c) (4 * k) ltac:(lia)) as D1.
    pose proof (Z.div_mod (2 * a) (b * k) ltac:(lia)) as D2.
    pose proof (Z.mod_pos_bound (2 * c) (4 * k) ltac:(lia)) as B1.
    pose proof (Z.mod_pos_bound (2 * a) (b * k) ltac:(lia)) as B2.
    pose proof (Z.div_mod (2 * a) b ltac:(lia)) as D3.
    pose proof (Z.mod_pos_bound (2 * a) b ltac:(lia)) as B3.
    pose proof (Z.div_mod c 2 ltac:(lia)) as D4.
    pose proof (Z.mod_pos_bound c 2 ltac:(lia)) as B4.
    rewrite Hq in D1. rewrite Hc2 in D4.
    assert (Hs : c mod 2 = if (2 * a) mod b =? 0 then 0 else 1).
    { unfold c, qcode in D4 |- *. destruct (_ =? _); lia. }
    set (q := 2 * a / (b * k)) in *. set (h := 2 * a / b) in *.
    destruct ((2 * a) mod b =? 0) eqn:S; [apply Z.eqb_eq in S|apply Z.eqb_neq in S].
    - (* c = 2 h, 2 a = b h *)
      assert (Hc : c = 2 * h) by lia.
      assert (Ha : 2 * a = b * h) by lia.
      destruct ((2 * a) mod (b * k) =? 0) eqn:S2;
        [apply Z.eqb_eq in S2; apply Z.eqb_eq|apply Z.eqb_neq in S2; apply Z.eqb_neq]; nia.
    - assert (Hc : c = 2 * h + 1) by lia.
      assert (N2 : (2 * a) mod (b * k) <> 0).
      { intros Z0. apply S. rewrite Z0 in D2.
        rewrite D2. rewrite Z.add_0_r.
        replace (b * k * q) with ((k * q) * b) by ring. apply Z.mod_mul. lia. }
      apply Z.eqb_neq in N2. rewrite N2. apply Z.eqb_neq. lia. }
  now rewrite Hm.
Qed.

Lemma rne_bounds (c : Z) : c / 4 <= rne c <= c / 4 + 1.
Proof. unfold rne. destruct (_ || _); lia. Qed.

Lemma rne_exact (q : Z) : rne (4 * q) = q.
Proof.
  unfold rne. rewrite (Z.mul_comm 4 q), Z.mod_mul, Z.div_mul by lia. cbn. lia.
Qed.

Lemma rne_mono (c1 c2 : Z) : c1 <= c2 -> rne c1 <= rne c2.
Proof.
  intros H. unfold rne.
  pose proof (Z.div_mod c1 4 ltac:(lia)). pose proof (Z.mod_pos_bound c1 4 ltac:(lia)).
  pose proof (Z.div_mod c2 4 ltac:(lia)). pose proof (Z.mod_pos_bound c2 4 ltac:(lia)).
  destruct (Z.eq_dec (c1 / 4) (c2 / 4)) as [E|N].
  - rewrite E.
    destruct (c1 mod 4 =? 3) eqn:A1; destruct (c1 mod 4 =? 2) eqn:A2;
    destruct (c2 mod 4 =? 3) eqn:B1; destruct (c2 mod 4 =? 2) eqn:B2;
    destruct (Z.odd (c2 / 4)); cbn; try lia;
    rewrite ?Z.eqb_eq, ?Z.eqb_neq in *; lia.
  - assert (c1 / 4 < c2 / 4) by (assert (c1 / 4 <= c2 / 4) by (apply Z.div_le_mono; lia); lia).
    destruct (_ || _); destruct (_ || _); lia.
Qed.

Lemma rne_lower (c N : Z) : 4 * N <= c -> N <= rne c.
Proof. intros H. rewrite <- (rne_exact N). now apply rne_mono. Qed.

Lemma rne_upper (c N : Z) : c <= 4 * N -> rne c <= N.
Proof. intros H. rewrite <- (rne_exact N). now apply rne_mono. Qed.

End Codes.

Section Shift.
Import Binary64.

Lemma fexp_eq (x : Z) : fexp prec emax x = Z.max (x - 53) (- 1074).
Proof. reflexivity. Qed.

Lemma rcode_of_loc (m : Z) (l : location) :
  rcode (shr_record_of_loc m l) = 4 * m + lcode l.
Proof.
  unfold rcode.
  destruct l as [|[]]; cbn [shr_record_of_loc shr_m shr_r shr_s lcode]; lia.
Qed.

Lemma shr_m_of_loc (m : Z) (l : location) : shr_m (shr_record_of_loc m l) = m.
Proof. destruct l as [|[]]; reflexivity. Qed.

Lemma qcode_8 (c : Z) : qcode c 8 = 2 * (c / 4) + (if c mod 4 =? 0 then 0 else 1).
Proof.
  unfold qcode.
  replace (2 * c / 8) with (c / 4)
    by (replace 8 with (2 * 4) by reflexivity; now rewrite Z.div_mul_cancel_l by lia).
  replace ((2 * c) mod 8) with (2 * (c mod 4))
    by (replace 8 with (2 * 4) by reflexivity; now rewrite Z.mul_mod_distr_l by lia).
  destruct (c mod 4 =? 0) eqn:E; [apply Z.eqb_eq in E; now rewrite E|].
  apply Z.eqb_neq in E.
  destruct (2 * (c mod 4) =? 0) eqn:E2; [apply Z.eqb_eq in E2; lia|reflexivity].
Qed.

Lemma rcode_div4 (r : shr_record) : rcode r / 4 = shr_m r /\ rcode r mod 4 = rcode r - 4 * shr_m r.
Proof.
  unfold rcode. destruct r as [m r s]; cbn [shr_m shr_r shr_s].
  assert (H : 0 <= (if r then 2 else 0) + (if s then 1 else 0) < 4)
    by (destruct r, s; lia).
  set (t := (if r then 2 else 0) + (if s then 1 else 0)) in *.
  replace (4 * m + (if r then 2 else 0) + (if s then 1 else 0)) with (t + m * 4) by (unfold t; lia).
  rewrite Z.div_add, Z.mod_add by lia.
  rewrite Z.div_small, Z.mod_small by lia. lia.
Qed.

Lemma shr_1_rcode (r : shr_record) :
  0 <= shr_m r -> rcode (shr_1 r) = qcode (rcode r) (4 * 2) /\ 0 <= shr_m (shr_1 r).
Proof.
  intros Hm. change (4 * 2) with 8. rewrite qcode_8.
  destruct (rcode_div4 r) as [D M]. rewrite D, M.
  destruct r as [m r s]; cbn [shr_m] in *.
  destruct m as [|[p|p|]|p]; try lia; unfold rcode; cbn [shr_1 shr_m shr_r shr_s];
    destruct r, s; cbn [orb]; split; try lia;
    match goal with |- context [if ?c then _ else _] => destruct c eqn:E end;
    rewrite ?Z.eqb_eq, ?Z.eqb_neq in E; lia.
Qed.

Lemma qcode_coarsen2 (c k1 k2 : Z) :
  0 < k1 -> 0 < k2 -> qcode (qcode c (4 * k1)) (4 * k2) = qcode c (4 * (k1 * k2)).
Proof.
  intros H1 H2. rewrite qcode_coarsen by lia. f_equal. lia.
Qed.

Lemma iter_shr_rcode (p : positive) (r : shr_record) :
  0 <= shr_m r ->
  rcode (iter_pos shr_1 p r) = qcode (rcode r) (4 * 2 ^ Zpos p) /\
  0 <= shr_m (iter_pos shr_1 p r).
Proof.
  revert r; induction p as [p IH|p IH|]; intros r Hm; cbn [iter_pos].
  - destruct (shr_1_rcode r Hm) as [C1 M1].
    destruct (IH _ M1) as [C2 M2]. destruct (IH _ M2) as [C3 M3].
    split; [|assumption].
    rewrite C3, C2, C1.
    pose proof (Z.pow_pos_nonneg 2 (Zpos p) ltac:(lia) ltac:(lia)) as P.
    rewrite !qcode_coarsen2 by lia.
    f_equal. rewrite (Pos2Z.inj_xI p), Z.pow_add_r, Z.pow_twice_r by lia.
    change (2 ^ 1) with 2. lia.
  - destruct (IH _ Hm) as [C2 M2]. destruct (IH _ M2) as [C3 M3].
    split; [|assumption].
    rewrite C3, C2.
    pose proof (Z.pow_pos_nonneg 2 (Zpos p) ltac:(lia) ltac:(lia)) as P.
    rewrite !qcode_coarsen2 by lia.
    f_equal. rewrite (Pos2Z.inj_xO p), Z.pow_twice_r by lia. lia.
  - apply shr_1_rcode, Hm.
Qed.

(** [shr] by [n >= 0] bits on the record of a located value. *)
Lemma shr_rcode (r : shr_record) (e n : Z) :
  0 <= shr_m r -> 0 <= n ->
  rcode (fst (shr r e n)) = qcode (rcode r) (4 * 2 ^ n) /\
  0 <= shr_m (fst (shr r e n)) /\ snd (shr r e n) = e + n.
Proof.
  intros Hm Hn. destruct n as [|p|p]; try lia; cbn [shr fst snd].
  - rewrite Z.mul_1_r, qcode_self. repeat split; lia.
  - destruct (iter_shr_rcode p r Hm). repeat split; assumption.
Qed.

Lemma shr_nop (r : shr_record) (e n : Z) : n <= 0 -> shr r e n = (r, e).
Proof. destruct n; try reflexivity. lia. Qed.

Lemma round_rne (r : shr_record) :
  round_nearest_even (shr_m r) (loc_of_shr_record r) = rne (rcode r).
Proof.
  unfold rne. destruct (rcode_div4 r) as [D M]. rewrite D, M.
  destruct r as [m r s]. unfold rcode. cbn [shr_m shr_r shr_s loc_of_shr_record].
  rewrite <- Z.negb_even.
  destruct r, s; cbn [round_nearest_even];
    repeat match goal with |- context [?a =? ?b] =>
      let E := fresh in destruct (a =? b) eqn:E;
      [apply Z.eqb_eq in E|apply Z.eqb_neq in E]; try lia end;
    cbn [orb andb]; try lia.
  all: destruct (Z.even m); cbn; lia.
Qed.

End Shift.

Section Round.
Import Binary64.

Lemma div_lower (A B N : Z) : 0 < B -> N <= A / B -> B * N <= A.
Proof.
  intros HB H. pose proof (Z.mul_div_le A B HB). nia.
Qed.

Lemma div_upper (A B N : Z) : 0 < B -> A / B < N -> A < B * N.
Proof.
  intros HB H.
  pose proof (Z.div_mod A B ltac:(lia)). pose proof (Z.mod_pos_bound A B HB). nia.
Qed.

Lemma digits_scaled (A B k : Z) :
  0 < B -> 0 < A / B -> 0 <= k ->
  Zdigits2 (A * 2 ^ k / B) = Zdigits2 (A / B) + k.
Proof.
  intros HB Hm Hk.
  pose proof (Zdigits2_bounds _ Hm) as [L U]. pose proof (Zdigits2_pos _ Hm) as P.
  set (d := Zdigits2 (A / B)) in *.
  pose proof (Z.pow_pos_nonneg 2 k ltac:(lia) Hk) as Pk.
  pose proof (Z.pow_pos_nonneg 2 (d - 1) ltac:(lia) ltac:(lia)) as Pd.
  apply div_lower in L; [|assumption]. apply div_upper in U; [|assumption].
  assert (Lo : 2 ^ (d + k - 1) <= A * 2 ^ k / B).
  { apply Z.div_le_lower_bound; [assumption|].
    replace (d + k - 1) with ((d - 1) + k) by lia. rewrite Z.pow_add_r by lia. nia. }
  assert (Up : A * 2 ^ k / B < 2 ^ (d + k)).
  { apply Z.div_lt_upper_bound; [assumption|].
    rewrite Z.pow_add_r by lia. nia. }
  apply Zdigits2_unique; [split; assumption|].
  pose proof (Z.pow_pos_nonneg 2 (d + k - 1) ltac:(lia) ltac:(lia)). lia.
Qed.

Lemma RNDe_eq (A B e : Z) :
  0 <= A -> 0 < B ->
  e <= fexp prec emax (Zdigits2 (A / B) + e) ->
  RNDe A B e =
  Z.min (rne (qcode A (B * 2 ^ (fexp prec emax (Zdigits2 (A / B) + e) - e)))
         * 2 ^ (fexp prec emax (Zdigits2 (A / B) + e) + 1074)) top.
Proof.
  intros HA HB. rewrite fexp_eq. intros HE.
  set (m := A / B) in *. set (E := Z.max (Zdigits2 m + e - 53) (-1074)) in *.
  assert (Hm : 0 <= m) by (apply Z.div_pos; lia).
  pose proof (Zdigits2_nonneg m) as Hd.
  unfold RNDe, RNDpos.
  assert (T : target (A * 2 ^ Z.max (e + 1074) 0) (B * 2 ^ Z.max (-1074 - e) 0) = E + 1074).
  { unfold target. destruct (Z_le_gt_dec (-1074) e) as [Le|Gt].
    - rewrite (Z.max_l (e + 1074)), (Z.max_r (-1074 - e)) by lia.
      rewrite Z.pow_0_r, Z.mul_1_r.
      destruct (Z.eq_dec m 0) as [Z0|NZ].
      + assert (e = -1074) by (unfold E in HE; rewrite Z0 in HE; cbn in HE; lia).
        subst e. cbn [Z.add Z.pow]. rewrite Z.pow_0_r, Z.mul_1_r. fold m. rewrite Z0.
        unfold E. rewrite Z0. reflexivity.
      + rewrite digits_scaled by lia. fold m. unfold E. lia.
    - rewrite (Z.max_r (e + 1074)), (Z.max_l (-1074 - e)) by lia.
      rewrite Z.pow_0_r, Z.mul_1_r.
      pose proof (Z.pow_pos_nonneg 2 (-1074 - e) ltac:(lia) ltac:(lia)).
      rewrite <- Z.div_div by lia. fold m.
      destruct (Z.eq_dec m 0) as [Z0|NZ].
      + rewrite Z0. rewrite Z.div_0_l by lia. unfold E. rewrite Z0. cbn [Zdigits2]. lia.
      + rewrite Zdigits2_shr by lia. unfold E. lia. }
  rewrite T. f_equal. f_equal. f_equal.
  assert (0 <= E + 1074) by (unfold E; lia).
  pose proof (Z.pow_pos_nonneg 2 (E + 1074) ltac:(lia) ltac:(lia)).
  pose proof (Z.pow_pos_nonneg 2 (E - e) ltac:(lia) ltac:(lia)).
  pose proof (Z.pow_pos_nonneg 2 (Z.max (-1074 - e) 0) ltac:(lia) ltac:(lia)).
  apply qcode_ext; try nia.
  destruct (Z_le_gt_dec (-1074) e) as [Le|Gt].
  - rewrite (Z.max_l (e + 1074)), (Z.max_r (-1074 - e)) by lia.
    rewrite Z.pow_0_r, Z.mul_1_r.
    replace (E + 1074) with ((e + 1074) + (E - e)) by lia.
    rewrite (Z.pow_add_r 2 (e + 1074) (E - e)) by lia. ring.
  - rewrite (Z.max_r (e + 1074)), (Z.max_l (-1074 - e)) by lia.
    rewrite Z.pow_0_r, Z.mul_1_r.
    replace (E - e) with ((-1074 - e) + (E + 1074)) by lia.
    rewrite (Z.pow_add_r 2 (-1074 - e) (E + 1074)) by lia. ring.
Qed.

End Round.

Section Aux.
Import Binary64.

Lemma lcode_range (l : location) : 0 <= lcode l < 4.
Proof. destruct l as [|[]]; cbn; lia. Qed.

Lemma top_pos : 0 < top.
Proof. unfold top. apply Z.pow_pos_nonneg; lia. Qed.

Lemma pow2_pos (k : Z) : 0 <= k -> 0 < 2 ^ k.
Proof. intros. apply Z.pow_pos_nonneg; lia. Qed.

Lemma pow2_le (a b : Z) : 0 <= a <= b -> 2 ^ a <= 2 ^ b.
Proof. intros. apply Z.pow_le_mono_r; lia. Qed.

Lemma digits_lt_pow (M d : Z) : 0 <= d -> 0 <= M < 2 ^ d -> Zdigits2 M <= d.
Proof.
  intros Hd H. destruct (Z.eq_dec M 0) as [->|N]; [cbn; lia|].
  pose proof (Zdigits2_bounds M ltac:(lia)) as B.
  destruct (Z_le_gt_dec (Zdigits2 M) d) as [|G]; [assumption|].
  assert (2 ^ d <= 2 ^ (Zdigits2 M - 1)) by (apply pow2_le; lia). lia.
Qed.

Lemma shr_carry (E : Z) :
  shr (shr_record_of_loc (2 ^ 53) loc_Exact) E 1 =
  ({| shr_m := 4503599627370496; shr_r := false; shr_s := false |}, E + 1).
Proof. reflexivity. Qed.

(** The value of the float [binary_round_aux] builds from a located value. *)
Lemma bra_val (sx : bool) (m e : Z) (l : location) (A B : Z) :
  0 <= A -> 0 < B -> 4 * m + lcode l = qcode A B ->
  e <= fexp prec emax (Zdigits2 m + e) ->
  valid_binary (binary_round_aux prec emax sx m e l) = true /\
  not_nan (binary_round_aux prec emax sx m e l) = true /\
  SFval (binary_round_aux prec emax sx m e l) =
  (if sx then - RNDe A B e else RNDe A B e).
Proof.
  intros HA HB Hc HE.
  assert (Hm : m = A / B).
  { rewrite <- (qcode_div4 A B HB), <- Hc.
    pose proof (lcode_range l).
    rewrite Z.add_comm, Z.mul_comm, Z.div_add by lia.
    rewrite Z.div_small by lia. reflexivity. }
  assert (Hm0 : 0 <= m) by (subst m; apply Z.div_pos; lia).
  rewrite (RNDe_eq A B e HA HB) by (rewrite <- Hm; exact HE).
  rewrite <- Hm. clear Hm.
  rewrite fexp_eq in HE |- *.
  set (E := Z.max (Zdigits2 m + e - 53) (-1074)) in *.
  pose proof (Zdigits2_nonneg m) as Hd.
  assert (HE1 : -1074 <= E) by (unfold E; lia).
  pose proof (pow2_pos (E - e) ltac:(lia)) as Pn.
  pose proof (pow2_pos (E + 1074) ltac:(lia)) as PE.
  unfold binary_round_aux, shr_fexp. rewrite fexp_eq. fold E.
  pose proof (shr_rcode (shr_record_of_loc m l) e (E - e)) as S1.
  rewrite shr_m_of_loc, rcode_of_loc in S1. specialize (S1 Hm0 ltac:(lia)).
  destruct (shr (shr_record_of_loc m l) e (E - e)) as [r1 e1]. cbn [fst snd] in S1.
  destruct S1 as (C1 & M1 & ->). replace (e + (E - e)) with E by lia.
  rewrite Hc, qcode_coarsen in C1 by lia.
  rewrite round_rne, C1, fexp_eq.
  set (M := rne (qcode A (B * 2 ^ (E - e)))).
  (* the shifted mantissa *)
  assert (Q : qcode A (B * 2 ^ (E - e)) / 4 = m / 2 ^ (E - e)).
  { rewrite qcode_div4 by nia. rewrite <- Z.div_div by lia.
    replace (A / B) with m; [reflexivity|].
    rewrite <- (qcode_div4 A B HB), <- Hc.
    pose proof (lcode_range l).
    rewrite Z.add_comm, Z.mul_comm, Z.div_add by lia.
    rewrite Z.div_small by lia. reflexivity. }
  pose proof (rne_bounds (qcode A (B * 2 ^ (E - e)))) as RB. fold M in RB. rewrite Q in RB.
  assert (Up : m / 2 ^ (E - e) < 2 ^ 53).
  { apply div_pow2_upper; try lia.
    destruct (Z.eq_dec m 0) as [->|N]; [apply pow2_pos; lia|].
    pose proof (Zdigits2_bounds m ltac:(lia)).
    assert (2 ^ Zdigits2 m <= 2 ^ (53 + (E - e))) by (apply pow2_le; unfold E; clear - Hd; lia).
    lia. }
  assert (Lo0 : 0 <= m / 2 ^ (E - e)) by (apply Z.div_pos; lia).
  assert (Lo : -1074 < E -> 2 ^ 52 <= m / 2 ^ (E - e)).
  { intros HEn. apply div_pow2_lower; try lia.
    assert (0 < m).
    { destruct (Z.eq_dec m 0) as [Z0|]; [exfalso|lia].
      assert (D0 : Zdigits2 m = 0) by (rewrite Z0; reflexivity).
      unfold E in HE, HEn. clear - HE HEn D0. lia. }
    pose proof (Zdigits2_bounds m ltac:(lia)).
    replace (52 + (E - e)) with (Zdigits2 m - 1); [lia|].
    unfold E in HE, HEn |- *. clear - HE HEn. lia. }
  assert (MB : 0 <= M <= 2 ^ 53) by lia.
  destruct (Z.eq_dec M (2 ^ 53)) as [Top|NTop].
  - (* the carry: one more shift *)
    rewrite Top. change (Zdigits2 (2 ^ 53)) with 54.
    replace (Z.max (54 + E - 53) (-1074) - E) with 1 by (clear - HE1; lia).
    rewrite shr_carry. cbn [shr_m]. change (emax - prec) with 971.
    replace (2 ^ 53 * 2 ^ (E + 1074)) with (2 ^ (E + 1127))
      by (rewrite <- Z.pow_add_r by lia; f_equal; lia).
    destruct (E + 1 <=? 971) eqn:Ov; [apply Z.leb_le in Ov|apply Z.leb_gt in Ov].
    + split; [|split; [reflexivity|]].
      { cbn [valid_binary]. unfold bounded, canonical_mantissa.
        rewrite fexp_eq. change (emax - prec) with 971.
        change (Zpos (digits2_pos 4503599627370496)) with 53.
        apply andb_true_intro; split; [apply Z.eqb_eq|apply Z.leb_le]; clear - HE1 Ov; lia. }
      unfold SFval.
      replace (Zpos 4503599627370496 * 2 ^ (E + 1 + 1074)) with (2 ^ (E + 1127)).
      2:{ change (Zpos 4503599627370496) with (2 ^ 52).
          rewrite <- Z.pow_add_r by lia. f_equal. lia. }
      rewrite Z.min_l; [reflexivity|].
      unfold top. apply pow2_le. lia.
    + split; [reflexivity|split; [reflexivity|]]. unfold SFval.
      rewrite Z.min_r; [reflexivity|]. unfold top. apply pow2_le. lia.
  - assert (Hdig : Zdigits2 M <= 53) by (apply digits_lt_pow; lia).
    rewrite shr_nop by lia.
    cbn [shr_m shr_record_of_loc]. change (emax - prec) with 971.
    destruct M as [|p|p] eqn:EM; [| |lia].
    + split; [reflexivity|split; [reflexivity|]]. cbn [SFval]. rewrite Z.mul_0_l.
      pose proof top_pos. rewrite Z.min_l by lia. destruct sx; reflexivity.
    + destruct (E <=? 971) eqn:Ov; [apply Z.leb_le in Ov|apply Z.leb_gt in Ov].
      * split; [|split; [reflexivity|]].
        { cbn [valid_binary]. unfold bounded, canonical_mantissa.
          rewrite fexp_eq. change (emax - prec) with 971.
          change (Zpos (digits2_pos p)) with (Zdigits2 (Zpos p)).
          apply andb_true_intro; split; [apply Z.eqb_eq|apply Z.leb_le; exact Ov].
          destruct (Z.eq_dec E (-1074)) as [EE|NE]; [clear - EE Hdig; lia|].
          specialize (Lo ltac:(clear - HE1 NE; lia)).
          assert (Zdigits2 (Zpos p) = 53).
          { apply Zdigits2_unique; [|lia]. change (53 - 1) with 52. lia. }
          clear - H HE1. lia. }
        unfold SFval.
        rewrite Z.min_l; [reflexivity|].
        assert (Zpos p * 2 ^ (E + 1074) < 2 ^ 53 * 2 ^ (E + 1074)) by nia.
        assert (2 ^ 53 * 2 ^ (E + 1074) <= top).
        { rewrite <- Z.pow_add_r by lia. unfold top. apply pow2_le. lia. }
        lia.
      * split; [reflexivity|split; [reflexivity|]]. unfold SFval.
        rewrite Z.min_r; [reflexivity|].
        specialize (Lo ltac:(lia)).
        assert (2 ^ 52 * 2 ^ (E + 1074) <= Zpos p * 2 ^ (E + 1074)) by nia.
        assert (top <= 2 ^ 52 * 2 ^ (E + 1074)).
        { rewrite <- Z.pow_add_r by lia. unfold top. apply pow2_le. lia. }
        lia.
Qed.

End Aux.

Section Monotone.
Import Binary64.

Lemma target_nonneg (a b : Z) : 0 <= target a b.
Proof. unfold target. lia. Qed.

Lemma RNDpos_range (a b : Z) : 0 <= a -> 0 < b -> 0 <= RNDpos a b <= top.
Proof.
  intros Ha Hb. unfold RNDpos.
  pose proof (target_nonneg a b) as T. pose proof (pow2_pos _ T) as P.
  pose proof top_pos.
  assert (0 <= rne (qcode a (b * 2 ^ target a b))).
  { apply rne_lower. apply qcode_nonneg; nia. }
  split; [apply Z.min_glb; nia|apply Z.le_min_r].
Qed.

Lemma RNDpos_0 (b : Z) : 0 < b -> RNDpos 0 b = 0.
Proof.
  intros Hb. pose proof top_pos.
  change (RNDpos 0 b) with (Z.min 0 top). apply Z.min_l. lia.
Qed.

Lemma RNDpos_mono (a1 b1 a2 b2 : Z) :
  0 <= a1 -> 0 < b1 -> 0 < b2 -> a1 * b2 <= a2 * b1 ->
  RNDpos a1 b1 <= RNDpos a2 b2.
Proof.
  intros Ha1 Hb1 Hb2 H.
  assert (Ha2 : 0 <= a2) by nia.
  assert (Hm : a1 / b1 <= a2 / b2) by (apply div_le_cross; assumption).
  assert (Hm1 : 0 <= a1 / b1) by (apply Z.div_pos; lia).
  assert (Hd : Zdigits2 (a1 / b1) <= Zdigits2 (a2 / b2)) by (apply Zdigits2_le; lia).
  unfold RNDpos.
  pose proof (target_nonneg a1 b1) as T1. pose proof (target_nonneg a2 b2) as T2.
  pose proof (pow2_pos _ T1) as P1. pose proof (pow2_pos _ T2) as P2.
  apply Z.min_le_compat_r.
  destruct (Z.eq_dec (target a1 b1) (target a2 b2)) as [E|N].
  - rewrite E. apply Z.mul_le_mono_nonneg_r; [lia|].
    apply rne_mono, qcode_mono; nia.
  - assert (L : target a1 b1 < target a2 b2) by (unfold target in *; lia).
    (* below the binade boundary, and above it *)
    assert (U1 : rne (qcode a1 (b1 * 2 ^ target a1 b1)) <= 2 ^ 53).
    { apply rne_upper.
      assert (Q : qcode a1 (b1 * 2 ^ target a1 b1) / 4 < 2 ^ 53).
      { rewrite qcode_div4 by nia. rewrite <- Z.div_div by lia.
        apply div_pow2_upper; try lia.
        destruct (Z.eq_dec (a1 / b1) 0) as [->|NZ]; [apply pow2_pos; lia|].
        pose proof (Zdigits2_bounds (a1 / b1) ltac:(lia)).
        assert (2 ^ Zdigits2 (a1 / b1) <= 2 ^ (53 + target a1 b1))
          by (apply pow2_le; pose proof (Zdigits2_nonneg (a1 / b1)); unfold target; lia).
        lia. }
      apply div_upper in Q; lia. }
    assert (L2 : 2 ^ 52 <= rne (qcode a2 (b2 * 2 ^ target a2 b2))).
    { apply rne_lower.
      assert (Q : 2 ^ 52 <= qcode a2 (b2 * 2 ^ target a2 b2) / 4).
      { rewrite qcode_div4 by nia. rewrite <- Z.div_div by lia.
        assert (Pm : 0 < a2 / b2).
        { destruct (Z.eq_dec (a2 / b2) 0) as [Z0|]; [|lia].
          unfold target in L. rewrite Z0 in L. cbn [Zdigits2] in L. lia. }
        apply div_pow2_lower; try lia.
        pose proof (Zdigits2_bounds (a2 / b2) Pm).
        replace (52 + target a2 b2) with (Zdigits2 (a2 / b2) - 1) by (unfold target in *; lia).
        lia. }
      apply div_lower in Q; lia. }
    assert (rne (qcode a1 (b1 * 2 ^ target a1 b1)) * 2 ^ target a1 b1
            <= 2 ^ 53 * 2 ^ target a1 b1) by nia.
    assert (2 ^ 52 * 2 ^ target a2 b2
            <= rne (qcode a2 (b2 * 2 ^ target a2 b2)) * 2 ^ target a2 b2) by nia.
    assert (2 ^ 53 * 2 ^ target a1 b1 <= 2 ^ 52 * 2 ^ target a2 b2).
    { rewrite <- !Z.pow_add_r by lia. apply pow2_le. lia. }
    lia.
Qed.

Lemma RNDpos_ext (a1 b1 a2 b2 : Z) :
  0 <= a1 -> 0 < b1 -> 0 < b2 -> a1 * b2 = a2 * b1 -> RNDpos a1 b1 = RNDpos a2 b2.
Proof.
  intros Ha Hb1 Hb2 H. assert (0 <= a2) by nia.
  apply Z.le_antisymm; apply RNDpos_mono; lia.
Qed.

Lemma RND_range (p q : Z) : 0 < q -> - top <= RND p q <= top.
Proof.
  intros Hq. unfold RND. pose proof top_pos.
  destruct (p <? 0) eqn:S; [apply Z.ltb_lt in S|apply Z.ltb_ge in S].
  - pose proof (RNDpos_range (- p) q ltac:(lia) Hq). lia.
  - pose proof (RNDpos_range p q S Hq). lia.
Qed.

Lemma RND_mono (p1 q1 p2 q2 : Z) :
  0 < q1 -> 0 < q2 -> p1 * q2 <= p2 * q1 -> RND p1 q1 <= RND p2 q2.
Proof.
  intros H1 H2 H. unfold RND.
  destruct (p1 <? 0) eqn:S1; [apply Z.ltb_lt in S1|apply Z.ltb_ge in S1];
  (destruct (p2 <? 0) eqn:S2; [apply Z.ltb_lt in S2|apply Z.ltb_ge in S2]).
  - assert (RNDpos (- p2) q2 <= RNDpos (- p1) q1) by (apply RNDpos_mono; nia). lia.
  - pose proof (RNDpos_range (- p1) q1 ltac:(lia) H1).
    pose proof (RNDpos_range p2 q2 S2 H2). lia.
  - nia.
  - apply RNDpos_mono; lia.
Qed.

Lemma RND_opp (p q : Z) : 0 < q -> RND (- p) q = - RND p q.
Proof.
  intros Hq. unfold RND.
  destruct (Z.lt_trichotomy p 0) as [L|[->|G]].
  - rewrite (proj2 (Z.ltb_ge (- p) 0)), (proj2 (Z.ltb_lt p 0)) by lia. lia.
  - change (RND (- 0) q) with (RNDpos 0 q). change (RND 0 q) with (RNDpos 0 q).
    rewrite RNDpos_0 by lia. reflexivity.
  - rewrite (proj2 (Z.ltb_lt (- p) 0)), (proj2 (Z.ltb_ge p 0)) by lia.
    now rewrite Z.opp_involutive.
Qed.

(** A value that is a float already rounds to itself. *)
Lemma RNDpos_exact (m k : Z) :
  0 < m -> 0 <= k -> Z.max (Zdigits2 m + k - 53) 0 = k -> m * 2 ^ k < top ->
  RNDpos (m * 2 ^ k) 1 = m * 2 ^ k.
Proof.
  intros Hm Hk Hcan Hlt. unfold RNDpos, target.
  rewrite Z.div_1_r, Zdigits2_shl, Hcan by lia.
  pose proof (pow2_pos k Hk).
  rewrite (qcode_ext (m * 2 ^ k) (1 * 2 ^ k) m 1) by lia.
  unfold qcode. rewrite Z.div_1_r, Z.mod_1_r. cbn [Z.eqb].
  replace (2 * (2 * m) + 0) with (4 * m) by lia.
  rewrite rne_exact. apply Z.min_l. lia.
Qed.

End Monotone.

Section Order.
Import Binary64.

Lemma valid_finite (s : bool) (m : positive) (e : Z) :
  valid_binary (S754_finite s m e) = true ->
  -1074 <= e <= 971 /\ Z.max (Zdigits2 (Zpos m) + e - 53) (-1074) = e.
Proof.
  cbn [valid_binary]. unfold bounded, canonical_mantissa. rewrite fexp_eq.
  change (emax - prec) with 971. intros H.
  apply andb_prop in H. destruct H as [H1 H2].
  apply Z.eqb_eq in H1. apply Z.leb_le in H2.
  change (Zpos (digits2_pos m)) with (Zdigits2 (Zpos m)) in H1. lia.
Qed.

Lemma valid_val_bounds (s : bool) (m : positive) (e : Z) :
  valid_binary (S754_finite s m e) = true ->
  0 < Zpos m * 2 ^ (e + 1074) < top.
Proof.
  intros V. destruct (valid_finite s m e V) as [He Hc].
  pose proof (Zdigits2_bounds (Zpos m) ltac:(lia)) as B.
  pose proof (pow2_pos (e + 1074) ltac:(lia)) as P.
  assert (2 ^ Zdigits2 (Zpos m) <= 2 ^ 53)
    by (apply pow2_le; pose proof (Zdigits2_nonneg (Zpos m)); lia).
  assert (2 ^ 53 * 2 ^ (e + 1074) <= top).
  { rewrite <- Z.pow_add_r by lia. unfold top. apply pow2_le. lia. }
  split; [lia|]. nia.
Qed.

(** Canonical floats compare by exponent first, then by mantissa. *)
Lemma canonical_compare (s1 s2 : bool) (m1 m2 : positive) (e1 e2 : Z) :
  valid_binary (S754_finite s1 m1 e1) = true ->
  valid_binary (S754_finite s2 m2 e2) = true ->
  (Zpos m1 * 2 ^ (e1 + 1074) ?= Zpos m2 * 2 ^ (e2 + 1074)) =
  match e1 ?= e2 with
  | Lt => Lt
  | Gt => Gt
  | Eq => Pos.compare_cont Eq m1 m2
  end.
Proof.
  intros V1 V2.
  destruct (valid_finite _ _ _ V1) as [He1 Hc1].
  destruct (valid_finite _ _ _ V2) as [He2 Hc2].
  pose proof (Zdigits2_bounds (Zpos m1) ltac:(lia)) as B1.
  pose proof (Zdigits2_bounds (Zpos m2) ltac:(lia)) as B2.
  pose proof (Zdigits2_pos (Zpos m1) ltac:(lia)) as D1.
  pose proof (Zdigits2_pos (Zpos m2) ltac:(lia)) as D2.
  pose proof (pow2_pos (e1 + 1074) ltac:(lia)) as P1.
  pose proof (pow2_pos (e2 + 1074) ltac:(lia)) as P2.
  assert (Key : forall ma ea mb eb,
    0 < ma -> 0 < mb -> -1074 <= ea -> ea < eb ->
    Z.max (Zdigits2 ma + ea - 53) (-1074) = ea ->
    Z.max (Zdigits2 mb + eb - 53) (-1074) = eb ->
    ma * 2 ^ (ea + 1074) < mb * 2 ^ (eb + 1074)).
  { intros ma ea mb eb Ha Hb Hea Hlt Ca Cb.
    pose proof (Zdigits2_bounds ma Ha) as Ba. pose proof (Zdigits2_bounds mb Hb) as Bb.
    pose proof (Zdigits2_pos ma Ha). pose proof (Zdigits2_pos mb Hb).
    assert (Db : Zdigits2 mb = 53) by lia.
    assert (Da : Zdigits2 ma <= 53) by lia.
    rewrite Db in Bb. change (53 - 1) with 52 in Bb.
    assert (2 ^ Zdigits2 ma <= 2 ^ 53) by (apply pow2_le; lia).
    pose proof (pow2_pos (ea + 1074) ltac:(lia)).
    replace (eb + 1074) with ((eb - ea) + (ea + 1074)) by lia.
    rewrite (Z.pow_add_r 2 (eb - ea) (ea + 1074)) by lia.
    assert (G : 2 ^ 1 <= 2 ^ (eb - ea)) by (apply pow2_le; lia).
    change (2 ^ 1) with 2 in G.
    replace (2 ^ 53) with (2 * 2 ^ 52) in * by reflexivity.
    assert (L1 : ma < mb * 2 ^ (eb - ea)).
    { set (K := 2 ^ 52) in *. set (Q := 2 ^ (eb - ea)) in *.
      clearbody K Q. clear - Bb Ba H1 G. nia. }
    rewrite Z.mul_assoc. apply Z.mul_lt_mono_pos_r; assumption. }
  destruct (Z.compare_spec e1 e2) as [E|L|G].
  - subst e2. rewrite <- Zmult_compare_compat_r by lia. reflexivity.
  - apply Z.compare_lt_iff. apply Key; lia.
  - apply Z.compare_gt_iff. apply Key; lia.
Qed.

Lemma SFcompare_val (x y : spec_float) :
  valid_binary x = true -> valid_binary y = true ->
  not_nan x = true -> not_nan y = true ->
  SFcompare x y = Some (SFval x ?= SFval y).
Proof.
  intros Vx Vy Nx Ny. pose proof top_pos as T.
  destruct x as [sx|sx| |sx mx ex]; try discriminate;
  destruct y as [sy|sy| |sy my ey]; try discriminate;
  try pose proof (valid_val_bounds _ _ _ Vx) as Bx;
  try pose proof (valid_val_bounds _ _ _ Vy) as By_.
  9:{ pose proof (canonical_compare sx sy mx my ex ey Vx Vy) as C.
      cbn [SFcompare SFval]. destruct sx, sy; f_equal.
      - rewrite Z.compare_opp.
        rewrite (Z.compare_antisym (Zpos mx * 2 ^ (ex + 1074))), C.
        destruct (ex ?= ey); reflexivity.
      - symmetry. apply Z.compare_lt_iff. lia.
      - symmetry. apply Z.compare_gt_iff. lia.
      - rewrite C. reflexivity. }
  all: cbn [SFcompare SFval];
    repeat match goal with s : bool |- _ => destruct s end;
    f_equal; symmetry;
    first [apply Z.compare_eq_iff; lia | apply Z.compare_lt_iff; lia
          | apply Z.compare_gt_iff; lia].
Qed.

End Order.

Section Ops.
Import Binary64.

Lemma qcode_int (A : Z) : qcode A 1 = 4 * A + lcode loc_Exact.
Proof.
  unfold qcode. rewrite Z.div_1_r, Z.mod_1_r. cbn [Z.eqb lcode]. lia.
Qed.

Lemma iter_xO (m d : positive) : Zpos (Pos.iter xO m d) = Zpos m * 2 ^ Zpos d.
Proof.
  induction d as [|d IH] using Pos.peano_ind.
  - cbn [Pos.iter]. change (2 ^ 1) with 2. lia.
  - rewrite Pos.iter_succ, Pos2Z.inj_xO, IH, Pos2Z.inj_succ, Z.pow_succ_r by lia. lia.
Qed.

Lemma shl_align_fst (m : positive) (e e' : Z) :
  e' <= e -> Zpos (fst (shl_align m e e')) = Zpos m * 2 ^ (e - e').
Proof.
  intros H. unfold shl_align.
  destruct (e' - e) as [|p|p] eqn:D; cbn [fst].
  - replace (e - e') with 0 by lia. cbn. lia.
  - lia.
  - rewrite iter_xO. f_equal. f_equal. lia.
Qed.

Lemma RNDe_int (A e : Z) : -1074 <= e -> RNDe A 1 e = RNDpos (A * 2 ^ (e + 1074)) 1.
Proof.
  intros H. unfold RNDe. rewrite Z.max_l, Z.max_r by lia. reflexivity.
Qed.

Lemma RNDe_shift (A B e j : Z) :
  0 <= A -> 0 < B -> 0 <= j -> RNDe (A * 2 ^ j) B (e - j) = RNDe A B e.
Proof.
  intros HA HB Hj. unfold RNDe.
  pose proof (pow2_pos j Hj).
  pose proof (pow2_pos (Z.max (e - j + 1074) 0) ltac:(lia)).
  pose proof (pow2_pos (Z.max (- 1074 - (e - j)) 0) ltac:(lia)).
  pose proof (pow2_pos (Z.max (e + 1074) 0) ltac:(lia)).
  pose proof (pow2_pos (Z.max (- 1074 - e) 0) ltac:(lia)).
  apply RNDpos_ext; try nia.
  replace (A * 2 ^ j * 2 ^ Z.max (e - j + 1074) 0 * (B * 2 ^ Z.max (-1074 - e) 0))
    with (A * B * 2 ^ (j + Z.max (e - j + 1074) 0 + Z.max (-1074 - e) 0))
    by (rewrite !Z.pow_add_r by lia; ring).
  replace (A * 2 ^ Z.max (e + 1074) 0 * (B * 2 ^ Z.max (-1074 - (e - j)) 0))
    with (A * B * 2 ^ (Z.max (e + 1074) 0 + Z.max (-1074 - (e - j)) 0))
    by (rewrite !Z.pow_add_r by lia; ring).
  f_equal. f_equal. lia.
Qed.

(** [binary_round]: the rounding of [m * 2^e]. *)
Lemma binary_round_val (sx : bool) (m : positive) (e : Z) :
  valid_binary (binary_round prec emax sx m e) = true /\
  not_nan (binary_round prec emax sx m e) = true /\
  SFval (binary_round prec emax sx m e) =
  (if sx then - RNDe (Zpos m) 1 e else RNDe (Zpos m) 1 e).
Proof.
  unfold binary_round.
  set (F := fexp prec emax (Zpos (digits2_pos m) + e)).
  destruct (Z_le_gt_dec e F) as [Le|Gt].
  - assert (S : shl_align m e F = (m, e)).
    { unfold shl_align. destruct (F - e) eqn:D; try reflexivity. lia. }
    rewrite S. apply bra_val; try lia.
    + symmetry. apply qcode_int.
    + exact Le.
  - assert (S : shl_align m e F = (Pos.iter xO m (Z.to_pos (e - F)), F)).
    { unfold shl_align. destruct (F - e) as [|p|p] eqn:D; try lia.
      replace (Z.to_pos (e - F)) with p; [reflexivity|].
      replace (e - F) with (Zpos p) by lia. reflexivity. }
    rewrite S.
    assert (V : Zpos (Pos.iter xO m (Z.to_pos (e - F))) = Zpos m * 2 ^ (e - F)).
    { rewrite iter_xO. rewrite Z2Pos.id by lia. reflexivity. }
    rewrite <- (RNDe_shift (Zpos m) 1 e (e - F)) by lia.
    replace (e - (e - F)) with F by lia. rewrite <- V.
    apply bra_val; try lia.
    + symmetry. apply qcode_int.
    + rewrite V. rewrite Zdigits2_shl by lia.
      change (Zdigits2 (Zpos m)) with (Zpos (digits2_pos m)).
      replace (Zpos (digits2_pos m) + (e - F) + F) with (Zpos (digits2_pos m) + e) by lia.
      fold F. lia.
Qed.

Lemma binary_normalize_val (z e : Z) (s0 : bool) :
  -1074 <= e ->
  valid_binary (binary_normalize prec emax z e s0) = true /\
  not_nan (binary_normalize prec emax z e s0) = true /\
  SFval (binary_normalize prec emax z e s0) = RND (z * 2 ^ (e + 1074)) 1.
Proof.
  intros He. pose proof (pow2_pos (e + 1074) ltac:(lia)) as P.
  destruct z as [|p|p]; cbn [binary_normalize].
  - split; [reflexivity|split; [reflexivity|]].
    cbn [SFval]. rewrite Z.mul_0_l. change (RND 0 1) with (RNDpos 0 1).
    now rewrite RNDpos_0 by lia.
  - destruct (binary_round_val false p e) as (V & N & S).
    split; [assumption|split; [assumption|]]. rewrite S, RNDe_int by lia.
    unfold RND. rewrite (proj2 (Z.ltb_ge _ 0)) by lia. reflexivity.
  - destruct (binary_round_val true p e) as (V & N & S).
    split; [assumption|split; [assumption|]]. rewrite S, RNDe_int by lia.
    unfold RND. rewrite (proj2 (Z.ltb_lt _ 0)) by lia.
    replace (- (Zneg p * 2 ^ (e + 1074))) with (Zpos p * 2 ^ (e + 1074)) by lia.
    reflexivity.
Qed.

End Ops.

Section Arith.
Import Binary64.

Lemma digits_mul_lower (a b : Z) :
  0 < a -> 0 < b -> Zdigits2 a + Zdigits2 b - 1 <= Zdigits2 (a * b).
Proof.
  intros Ha Hb.
  pose proof (Zdigits2_bounds a Ha) as Ba. pose proof (Zdigits2_bounds b Hb) as Bb.
  pose proof (Zdigits2_pos a Ha). pose proof (Zdigits2_pos b Hb).
  pose proof (Zdigits2_bounds (a * b) ltac:(nia)) as Bab.
  pose proof (Zdigits2_pos (a * b) ltac:(nia)).
  destruct (Z_le_gt_dec (Zdigits2 a + Zdigits2 b - 1) (Zdigits2 (a * b))) as [|G]; [assumption|].
  exfalso.
  assert (K : 2 ^ Zdigits2 (a * b) <= 2 ^ ((Zdigits2 a - 1) + (Zdigits2 b - 1)))
    by (apply pow2_le; lia).
  rewrite Z.pow_add_r in K by lia.
  pose proof (pow2_pos (Zdigits2 a - 1) ltac:(lia)).
  pose proof (pow2_pos (Zdigits2 b - 1) ltac:(lia)).
  nia.
Qed.

Lemma digits_div_lower (a b : Z) :
  0 < a -> 0 < b -> Zdigits2 a - Zdigits2 b <= Zdigits2 (a / b).
Proof.
  intros Ha Hb.
  pose proof (Zdigits2_bounds a Ha) as Ba. pose proof (Zdigits2_bounds b Hb) as Bb.
  pose proof (Zdigits2_pos a Ha). pose proof (Zdigits2_pos b Hb).
  pose proof (Zdigits2_nonneg (a / b)).
  destruct (Z_le_gt_dec (Zdigits2 a - Zdigits2 b) 0) as [|G]; [lia|].
  assert (L : 2 ^ (Zdigits2 a - Zdigits2 b - 1) <= a / b).
  { apply Z.div_le_lower_bound; [assumption|].
    pose proof (pow2_pos (Zdigits2 a - Zdigits2 b - 1) ltac:(lia)).
    assert (K : b * 2 ^ (Zdigits2 a - Zdigits2 b - 1)
            <= 2 ^ Zdigits2 b * 2 ^ (Zdigits2 a - Zdigits2 b - 1)) by nia.
    rewrite <- Z.pow_add_r in K by lia.
    replace (Zdigits2 b + (Zdigits2 a - Zdigits2 b - 1)) with (Zdigits2 a - 1) in K by lia.
    lia. }
  pose proof (pow2_pos (Zdigits2 a - Zdigits2 b - 1) ltac:(lia)).
  pose proof (Zdigits2_bounds (a / b) ltac:(lia)) as Bq.
  destruct (Z_le_gt_dec (Zdigits2 a - Zdigits2 b) (Zdigits2 (a / b))) as [|G2]; [assumption|].
  assert (2 ^ Zdigits2 (a / b) <= 2 ^ (Zdigits2 a - Zdigits2 b - 1)) by (apply pow2_le; lia).
  lia.
Qed.

Lemma RND_pos (p q : Z) : 0 <= p -> RND p q = RNDpos p q.
Proof. intros H. unfold RND. now rewrite (proj2 (Z.ltb_ge p 0)). Qed.

Lemma RND_neg (p q : Z) : p < 0 -> RND p q = - RNDpos (- p) q.
Proof. intros H. unfold RND. now rewrite (proj2 (Z.ltb_lt p 0)). Qed.

(** *** Product of two finite floats *)
Lemma SFmul_val (sx sc : bool) (mx mc : positive) (ex ec : Z) :
  valid_binary (S754_finite sx mx ex) = true ->
  valid_binary (S754_finite sc mc ec) = true ->
  let r := SFmul prec emax (S754_finite sx mx ex) (S754_finite sc mc ec) in
  valid_binary r = true /\ not_nan r = true /\
  SFval r = RND (SFval (S754_finite sx mx ex) * SFval (S754_finite sc mc ec)) (2 ^ 1074).
Proof.
  intros Vx Vc r. unfold r. cbn [SFmul].
  destruct (valid_finite _ _ _ Vx) as [Hex Hcx].
  destruct (valid_finite _ _ _ Vc) as [Hec Hcc].
  pose proof (valid_val_bounds _ _ _ Vx) as Bx.
  pose proof (valid_val_bounds _ _ _ Vc) as Bc.
  pose proof (digits_mul_lower (Zpos mx) (Zpos mc) ltac:(lia) ltac:(lia)) as DM.
  pose proof (Zdigits2_pos (Zpos mx) ltac:(lia)).
  pose proof (Zdigits2_pos (Zpos mc) ltac:(lia)).
  assert (HA : 0 <= Zpos mx * Zpos mc) by nia.
  assert (HQ : 4 * Zpos (mx * mc) + lcode loc_Exact = qcode (Zpos mx * Zpos mc) 1)
    by (rewrite qcode_int, Pos2Z.inj_mul; reflexivity).
  assert (HE : ex + ec <= fexp prec emax (Zdigits2 (Zpos (mx * mc)) + (ex + ec)))
    by (rewrite fexp_eq, Pos2Z.inj_mul; lia).
  destruct (bra_val (xorb sx sc) (Zpos (mx * mc)) (ex + ec) loc_Exact
              (Zpos mx * Zpos mc) 1 HA ltac:(lia) HQ HE) as (V & N & S).
  clear HA HQ HE.
  split; [exact V|split; [exact N|]]. rewrite S. clear V N S.
  assert (E : RNDe (Zpos mx * Zpos mc) 1 (ex + ec)
              = RNDpos (Zpos mx * 2 ^ (ex + 1074) * (Zpos mc * 2 ^ (ec + 1074))) (2 ^ 1074)).
  { unfold RNDe.
    pose proof (pow2_pos (Z.max (ex + ec + 1074) 0) ltac:(lia)).
    pose proof (pow2_pos (Z.max (-1074 - (ex + ec)) 0) ltac:(lia)).
    apply RNDpos_ext; [nia | lia | apply pow2_pos; lia | ].
    replace (Zpos mx * Zpos mc * 2 ^ Z.max (ex + ec + 1074) 0 * 2 ^ 1074)
      with (Zpos mx * Zpos mc * 2 ^ (Z.max (ex + ec + 1074) 0 + 1074))
      by (rewrite !Z.pow_add_r by lia; ring).
    replace (Zpos mx * 2 ^ (ex + 1074) * (Zpos mc * 2 ^ (ec + 1074))
             * (1 * 2 ^ Z.max (-1074 - (ex + ec)) 0))
      with (Zpos mx * Zpos mc * 2 ^ ((ex + 1074) + (ec + 1074) + Z.max (-1074 - (ex + ec)) 0))
      by (rewrite !Z.pow_add_r by lia; ring).
    f_equal. f_equal. lia. }
  rewrite E. clear E. cbn [SFval].
  set (vx := Zpos mx * 2 ^ (ex + 1074)) in *. set (vc := Zpos mc * 2 ^ (ec + 1074)) in *.
  destruct sx, sc; cbn [xorb].
  - rewrite RND_pos by nia. f_equal. ring.
  - rewrite RND_neg by nia. f_equal. f_equal. ring.
  - rewrite RND_neg by nia. f_equal. f_equal. ring.
  - rewrite RND_pos by nia. reflexivity.
Qed.

(** *** Sum and difference of two finite floats *)
Lemma aligned_val (s : bool) (m : positive) (e ez : Z) :
  -1074 <= ez <= e ->
  cond_Zopp s (Zpos (fst (shl_align m e ez))) * 2 ^ (ez + 1074) =
  SFval (S754_finite s m e).
Proof.
  intros H. rewrite shl_align_fst by lia. cbn [SFval].
  replace (e + 1074) with ((e - ez) + (ez + 1074)) by lia.
  rewrite (Z.pow_add_r 2 (e - ez) (ez + 1074)) by lia.
  destruct s; cbn [cond_Zopp]; ring.
Qed.

Lemma SFadd_val (sx sc : bool) (mx mc : positive) (ex ec : Z) :
  valid_binary (S754_finite sx mx ex) = true ->
  valid_binary (S754_finite sc mc ec) = true ->
  let r := SFadd prec emax (S754_finite sx mx ex) (S754_finite sc mc ec) in
  valid_binary r = true /\ not_nan r = true /\
  SFval r = RND (SFval (S754_finite sx mx ex) + SFval (S754_finite sc mc ec)) 1.
Proof.
  intros Vx Vc r. unfold r. cbn [SFadd].
  destruct (valid_finite _ _ _ Vx) as [Hex Hcx].
  destruct (valid_finite _ _ _ Vc) as [Hec Hcc].
  match goal with |- context [binary_normalize _ _ ?z ?e ?s] =>
    destruct (binary_normalize_val z e s ltac:(lia)) as (V & N & S) end.
  split; [exact V|split; [exact N|]]. rewrite S.
  rewrite Z.mul_add_distr_r, !aligned_val by lia. reflexivity.
Qed.

Lemma SFsub_val (sx sc : bool) (mx mc : positive) (ex ec : Z) :
  valid_binary (S754_finite sx mx ex) = true ->
  valid_binary (S754_finite sc mc ec) = true ->
  let r := SFsub prec emax (S754_finite sx mx ex) (S754_finite sc mc ec) in
  valid_binary r = true /\ not_nan r = true /\
  SFval r = RND (SFval (S754_finite sx mx ex) - SFval (S754_finite sc mc ec)) 1.
Proof.
  intros Vx Vc r. unfold r. cbn [SFsub].
  destruct (valid_finite _ _ _ Vx) as [Hex Hcx].
  destruct (valid_finite _ _ _ Vc) as [Hec Hcc].
  match goal with |- context [binary_normalize _ _ ?z ?e ?s] =>
    destruct (binary_normalize_val z e s ltac:(lia)) as (V & N & S) end.
  split; [exact V|split; [exact N|]]. rewrite S.
  rewrite Z.mul_sub_distr_r, !aligned_val by lia. reflexivity.
Qed.

End Arith.

Section Division.
Import Binary64.

(** The location of a remainder is the low part of the quotient's code. *)
Lemma new_location_code (A B : Z) :
  0 <= A -> 0 < B ->
  4 * (A / B) + lcode (new_location B (A mod B)) = qcode A B.
Proof.
  intros HA HB.
  pose proof (Z.div_mod A B ltac:(lia)) as D.
  pose proof (Z.mod_pos_bound A B HB) as R.
  set (q := A / B) in *. set (r := A mod B) in *.
  assert (Q : forall h t, 0 <= t < B -> 2 * A = B * h + t ->
              qcode A B = 2 * h + (if t =? 0 then 0 else 1)).
  { intros h t Ht E. unfold qcode.
    rewrite (Z.div_unique (2 * A) B h t) by (try lia; left; lia).
    rewrite (Z.mod_unique (2 * A) B h t) by (try lia; left; lia).
    reflexivity. }
  clearbody q r.
  unfold new_location.
  destruct (Z.even B) eqn:Ev; unfold new_location_even, new_location_odd;
    (destruct (r =? 0) eqn:R0; [apply Z.eqb_eq in R0|apply Z.eqb_neq in R0]).
  - rewrite (Q (2 * q) 0) by (clear Q; lia). cbn [lcode Z.eqb]. lia.
  - destruct (Z.compare_spec (2 * r) B) as [E|L|G]; cbn [lcode].
    + rewrite (Q (2 * q + 1) 0) by (clear Q; lia). cbn [Z.eqb]. lia.
    + rewrite (Q (2 * q) (2 * r)) by (clear Q; lia).
      destruct (2 * r =? 0) eqn:Z0; [apply Z.eqb_eq in Z0|]; lia.
    + rewrite (Q (2 * q + 1) (2 * r - B)) by (clear Q; lia).
      destruct (2 * r - B =? 0) eqn:Z0; [apply Z.eqb_eq in Z0|]; lia.
  - rewrite (Q (2 * q) 0) by (clear Q; lia). cbn [lcode Z.eqb]. lia.
  - assert (Od : 2 * r <> B).
    { intros E. rewrite <- E in Ev. rewrite Z.even_mul in Ev. discriminate. }
    destruct (Z.compare_spec (2 * r + 1) B) as [E|L|G]; cbn [lcode].
    + rewrite (Q (2 * q) (2 * r)) by (clear Q; lia).
      destruct (2 * r =? 0) eqn:Z0; [apply Z.eqb_eq in Z0|]; lia.
    + rewrite (Q (2 * q) (2 * r)) by (clear Q; lia).
      destruct (2 * r =? 0) eqn:Z0; [apply Z.eqb_eq in Z0|]; lia.
    + rewrite (Q (2 * q + 1) (2 * r - B)) by (clear Q; lia).
      destruct (2 * r - B =? 0) eqn:Z0; [apply Z.eqb_eq in Z0|]; lia.
Qed.

(** *** Quotient of a finite float by a positive finite float *)
Lemma SFdiv_val (sx : bool) (mx mc : positive) (ex ec : Z) :
  valid_binary (S754_finite sx mx ex) = true ->
  valid_binary (S754_finite false mc ec) = true ->
  let r := SFdiv prec emax (S754_finite sx mx ex) (S754_finite false mc ec) in
  valid_binary r = true /\ not_nan r = true /\
  SFval r = RND (SFval (S754_finite sx mx ex) * 2 ^ 1074) (SFval (S754_finite false mc ec)).
Proof.
  intros Vx Vc r. unfold r. cbn [SFdiv]. unfold SFdiv_core_binary.
  destruct (valid_finite _ _ _ Vx) as [Hex Hcx].
  destruct (valid_finite _ _ _ Vc) as [Hec Hcc].
  pose proof (valid_val_bounds _ _ _ Vx) as Bx.
  pose proof (valid_val_bounds _ _ _ Vc) as Bc.
  rewrite fexp_eq.
  set (d1 := Zdigits2 (Zpos mx)) in *. set (d2 := Zdigits2 (Zpos mc)) in *.
  set (e' := Z.min (Z.max (d1 + ex - (d2 + ec) - 53) (-1074)) (ex - ec)).
  set (s := ex - ec - e').
  assert (Hs : 0 <= s) by (unfold s, e'; lia).
  set (m' := match s with Z0 => Zpos mx | Zpos _ => Z.shiftl (Zpos mx) s | Zneg _ => 0 end).
  assert (Hm' : m' = Zpos mx * 2 ^ s).
  { unfold m'. destruct s as [|p|p] eqn:Es; try lia.
    apply Z.shiftl_mul_pow2. lia. }
  pose proof (pow2_pos s Hs) as Ps.
  assert (Pm' : 0 < m') by nia.
  destruct (Z.div_eucl m' (Zpos mc)) as [q rm] eqn:DE.
  assert (Hq : q = m' / Zpos mc) by (unfold Z.div; now rewrite DE).
  assert (Hr : rm = m' mod Zpos mc) by (unfold Z.modulo; now rewrite DE).
  assert (HQ : 4 * q + lcode (new_location (Zpos mc) rm) = qcode m' (Zpos mc)).
  { rewrite Hq, Hr. apply new_location_code; lia. }
  assert (HE : e' <= fexp prec emax (Zdigits2 q + e')).
  { rewrite fexp_eq, Hq.
    pose proof (digits_div_lower m' (Zpos mc) Pm' ltac:(lia)) as DL.
    assert (Dg : Zdigits2 m' = d1 + s) by (rewrite Hm'; apply Zdigits2_shl; lia).
    rewrite Dg in DL. fold d2 in DL.
    pose proof (Zdigits2_nonneg (m' / Zpos mc)) as Dn.
    set (dq := Zdigits2 (m' / Zpos mc)) in *.
    unfold s, e' in *. clear - DL Dn. lia. }
  cbn [xorb]. rewrite xorb_false_r.
  destruct (bra_val sx q e' (new_location (Zpos mc) rm) m' (Zpos mc)
              ltac:(lia) ltac:(lia) HQ HE) as (V & N & S).
  split; [exact V|split; [exact N|]]. rewrite S. clear V N S HQ HE.
  assert (E : RNDe m' (Zpos mc) e'
              = RNDpos (Zpos mx * 2 ^ (ex + 1074) * 2 ^ 1074) (Zpos mc * 2 ^ (ec + 1074))).
  { unfold RNDe. rewrite Hm'.
    pose proof (pow2_pos (Z.max (e' + 1074) 0) ltac:(lia)).
    pose proof (pow2_pos (Z.max (-1074 - e') 0) ltac:(lia)).
    pose proof (pow2_pos (ec + 1074) ltac:(lia)).
    apply RNDpos_ext; [nia | nia | nia | ].
    replace (Zpos mx * 2 ^ s * 2 ^ Z.max (e' + 1074) 0 * (Zpos mc * 2 ^ (ec + 1074)))
      with (Zpos mx * Zpos mc * 2 ^ (s + Z.max (e' + 1074) 0 + (ec + 1074)))
      by (rewrite !Z.pow_add_r by lia; ring).
    replace (Zpos mx * 2 ^ (ex + 1074) * 2 ^ 1074 * (Zpos mc * 2 ^ Z.max (-1074 - e') 0))
      with (Zpos mx * Zpos mc * 2 ^ ((ex + 1074) + 1074 + Z.max (-1074 - e') 0))
      by (rewrite !Z.pow_add_r by lia; ring).
    f_equal. f_equal. unfold s. lia. }
  rewrite E. clear E. cbn [SFval].
  pose proof (pow2_pos 1074 ltac:(lia)).
  destruct sx.
  - rewrite RND_neg by nia. f_equal. f_equal. ring.
  - rewrite RND_pos by nia. reflexivity.
Qed.

End Division.

Section Prim.
Import Binary64.

Lemma leb_iff (x y : float) :
  (x <=? y)%float = true <-> is_num x = true /\ is_num y = true /\ val x <= val y.
Proof.
  rewrite FloatAxioms.leb_spec. unfold SFleb, is_num, val.
  pose proof (Prim2SF_valid x) as Vx. pose proof (Prim2SF_valid y) as Vy.
  destruct (not_nan (Prim2SF x)) eqn:Nx.
  2:{ destruct (Prim2SF x); try discriminate. cbn. split; [discriminate|intros (H & _); discriminate]. }
  destruct (not_nan (Prim2SF y)) eqn:Ny.
  2:{ destruct (Prim2SF y); try discriminate.
      destruct (Prim2SF x); cbn; (split; [discriminate|intros (_ & H & _); discriminate]). }
  rewrite (SFcompare_val _ _ Vx Vy Nx Ny).
  destruct (Z.compare_spec (SFval (Prim2SF x)) (SFval (Prim2SF y))) as [E|L|G];
    (split; [intros H0|intros (_ & _ & H0)]);
    first [discriminate | reflexivity | lia | (split; [reflexivity|split; [reflexivity|lia]])].
Qed.

Lemma ltb_iff (x y : float) :
  (x <? y)%float = true <-> is_num x = true /\ is_num y = true /\ val x < val y.
Proof.
  rewrite FloatAxioms.ltb_spec. unfold SFltb, is_num, val.
  pose proof (Prim2SF_valid x) as Vx. pose proof (Prim2SF_valid y) as Vy.
  destruct (not_nan (Prim2SF x)) eqn:Nx.
  2:{ destruct (Prim2SF x); try discriminate. cbn. split; [discriminate|intros (H & _); discriminate]. }
  destruct (not_nan (Prim2SF y)) eqn:Ny.
  2:{ destruct (Prim2SF y); try discriminate.
      destruct (Prim2SF x); cbn; (split; [discriminate|intros (_ & H & _); discriminate]). }
  rewrite (SFcompare_val _ _ Vx Vy Nx Ny).
  destruct (Z.compare_spec (SFval (Prim2SF x)) (SFval (Prim2SF y))) as [E|L|G];
    (split; [intros H0|intros (_ & _ & H0)]);
    first [discriminate | reflexivity | lia | (split; [reflexivity|split; [reflexivity|lia]])].
Qed.

Lemma is_num_iff (x : float) : is_num x = true <-> (x <=? x)%float = true.
Proof.
  rewrite leb_iff. split; [intros H; repeat split; try assumption; lia|intros (H & _); exact H].
Qed.

Lemma leb_trans (x y z : float) :
  (x <=? y)%float = true -> (y <=? z)%float = true -> (x <=? z)%float = true.
Proof.
  rewrite !leb_iff. intros (A & B & C) (D & E & F). repeat split; try assumption. lia.
Qed.

Lemma leb_ltb_trans (x y z : float) :
  (x <=? y)%float = true -> (y <? z)%float = true -> (x <? z)%float = true.
Proof.
  rewrite leb_iff, !ltb_iff. intros (A & B & C) (D & E & F). repeat split; try assumption. lia.
Qed.

Lemma ltb_leb (x y : float) : (x <? y)%float = true -> (x <=? y)%float = true.
Proof.
  rewrite leb_iff, ltb_iff. intros (A & B & C). repeat split; try assumption. lia.
Qed.

Lemma val_range (X : spec_float) :
  valid_binary X = true -> - top <= SFval X <= top.
Proof.
  intros V. pose proof top_pos.
  destruct X as [s|s| |s m e]; cbn [SFval]; try lia.
  - destruct s; lia.
  - pose proof (valid_val_bounds _ _ _ V). destruct s; lia.
Qed.

Lemma extend_mono (h : Z -> Z) :
  (forall u v, u <= v -> h u <= h v) -> (forall v, - top <= h v <= top) ->
  forall u v, u <= v -> extend h u <= extend h v.
Proof.
  intros Hm Hr u v L. unfold extend. pose proof top_pos.
  pose proof (Hr u). pose proof (Hr v). pose proof (Hm u v L).
  destruct (u <=? - top) eqn:A; destruct (v <=? - top) eqn:B;
  destruct (top <=? u) eqn:C; destruct (top <=? v) eqn:D;
  rewrite ?Z.leb_le, ?Z.leb_gt in *; lia.
Qed.

(** A function on floats that acts on values as a nondecreasing function
    is nondecreasing. *)
Lemma mono_of_val (f : float -> float) (g : Z -> Z) :
  (forall x, is_num x = true -> is_num (f x) = true /\ val (f x) = g (val x)) ->
  (forall u v, u <= v -> g u <= g v) ->
  mono f.
Proof.
  intros Hf Hg x y. rewrite !leb_iff. intros (Nx & Ny & L).
  destruct (Hf x Nx) as [Nfx Vx]. destruct (Hf y Ny) as [Nfy Vy].
  repeat split; try assumption. rewrite Vx, Vy. apply Hg, L.
Qed.

Lemma mono_comp (f g : float -> float) : mono f -> mono g -> mono (fun x => g (f x)).
Proof. intros Hf Hg x y H. apply Hg, Hf, H. Qed.

End Prim.

Section PrimOps.
Import Binary64.

Lemma extend_fin (h : Z -> Z) (v : Z) : - top < v < top -> extend h v = h v.
Proof.
  intros H. unfold extend.
  rewrite (proj2 (Z.leb_gt v (- top))), (proj2 (Z.leb_gt top v)) by lia. reflexivity.
Qed.

Lemma extend_top (h : Z -> Z) : extend h top = top.
Proof.
  unfold extend. pose proof top_pos.
  rewrite (proj2 (Z.leb_gt top (- top))), (proj2 (Z.leb_le top top)) by lia. reflexivity.
Qed.

Lemma extend_bot (h : Z -> Z) : extend h (- top) = - top.
Proof. unfold extend. now rewrite (proj2 (Z.leb_le (- top) (- top))) by lia. Qed.

Lemma RND_0 (q : Z) : 0 < q -> RND 0 q = 0.
Proof. intros H. change (RND 0 q) with (RNDpos 0 q). now apply RNDpos_0. Qed.

(** Rounding the value of a float gives it back. *)
Lemma RND_exact (s : bool) (m : positive) (e : Z) :
  valid_binary (S754_finite s m e) = true ->
  RND (SFval (S754_finite s m e)) 1 = SFval (S754_finite s m e).
Proof.
  intros V. destruct (valid_finite _ _ _ V) as [He Hc].
  pose proof (valid_val_bounds _ _ _ V) as B.
  assert (E : RNDpos (Zpos m * 2 ^ (e + 1074)) 1 = Zpos m * 2 ^ (e + 1074))
    by (apply RNDpos_exact; lia).
  cbn [SFval]. destruct s.
  - rewrite RND_neg by lia. rewrite Z.opp_involutive, E. reflexivity.
  - rewrite RND_pos by lia. exact E.
Qed.

Lemma val_finite_range (s : bool) (m : positive) (e : Z) :
  valid_binary (S754_finite s m e) = true ->
  - top < SFval (S754_finite s m e) < top.
Proof.
  intros V. pose proof (valid_val_bounds _ _ _ V). cbn [SFval]. destruct s; lia.
Qed.

(** *** [x * c] for a positive finite [c] *)
Lemma mul_r_val (c : float) (mc : positive) (ec : Z) :
  Prim2SF c = S754_finite false mc ec ->
  forall x, is_num x = true ->
  is_num (x * c) = true /\
  val (x * c) = extend (fun v => RND (v * val c) (2 ^ 1074)) (val x).
Proof.
  intros Hc x Nx. unfold is_num, val in *. rewrite mul_spec, Hc.
  pose proof (Prim2SF_valid x) as Vx. pose proof (Prim2SF_valid c) as Vc. rewrite Hc in Vc.
  pose proof top_pos as T. pose proof (pow2_pos 1074 ltac:(lia)) as P.
  destruct (Prim2SF x) as [s|s| |s m e]; try discriminate.
  - split; [reflexivity|]. cbn [SF64mul SFmul SFval].
    rewrite extend_fin by lia. rewrite Z.mul_0_l, RND_0 by lia. reflexivity.
  - split; [reflexivity|]. cbn [SF64mul SFmul SFval]. rewrite xorb_false_r.
    destruct s; [now rewrite extend_bot|now rewrite extend_top].
  - destruct (SFmul_val s false m mc e ec Vx Vc) as (V & N & S).
    split; [exact N|]. unfold SF64mul. rewrite S.
    rewrite extend_fin by (apply val_finite_range, Vx). reflexivity.
Qed.

Lemma mul_r_mono (c : float) (mc : positive) (ec : Z) :
  Prim2SF c = S754_finite false mc ec -> mono (fun x => (x * c)%float).
Proof.
  intros Hc. pose proof (pow2_pos 1074 ltac:(lia)) as P.
  pose proof (Prim2SF_valid c) as Vc. rewrite Hc in Vc.
  pose proof (valid_val_bounds _ _ _ Vc) as Bc.
  assert (Pc : 0 < val c) by (unfold val; rewrite Hc; cbn [SFval]; lia).
  eapply mono_of_val; [apply (mul_r_val c mc ec Hc)|].
  apply extend_mono.
  - intros u v L. apply RND_mono; try lia. nia.
  - intros v. apply RND_range. lia.
Qed.

(** *** [x / c] for a positive finite [c] *)
Lemma div_r_val (c : float) (mc : positive) (ec : Z) :
  Prim2SF c = S754_finite false mc ec ->
  forall x, is_num x = true ->
  is_num (x / c) = true /\
  val (x / c) = extend (fun v => RND (v * 2 ^ 1074) (val c)) (val x).
Proof.
  intros Hc x Nx. unfold is_num, val in *. rewrite div_spec, Hc.
  pose proof (Prim2SF_valid x) as Vx. pose proof (Prim2SF_valid c) as Vc. rewrite Hc in Vc.
  pose proof top_pos as T. pose proof (valid_val_bounds _ _ _ Vc) as Bc.
  destruct (Prim2SF x) as [s|s| |s m e]; try discriminate.
  - split; [reflexivity|]. cbn [SF64div SFdiv SFval].
    rewrite extend_fin by lia. rewrite Z.mul_0_l, RND_0 by lia. reflexivity.
  - split; [reflexivity|]. cbn [SF64div SFdiv SFval]. rewrite xorb_false_r.
    destruct s; [now rewrite extend_bot|now rewrite extend_top].
  - destruct (SFdiv_val s m mc e ec Vx Vc) as (V & N & S).
    split; [exact N|]. unfold SF64div. rewrite S.
    rewrite extend_fin by (apply val_finite_range, Vx). reflexivity.
Qed.

Lemma div_r_mono (c : float) (mc : positive) (ec : Z) :
  Prim2SF c = S754_finite false mc ec -> mono (fun x => (x / c)%float).
Proof.
  intros Hc. pose proof (pow2_pos 1074 ltac:(lia)) as P.
  pose proof (Prim2SF_valid c) as Vc. rewrite Hc in Vc.
  pose proof (valid_val_bounds _ _ _ Vc) as Bc.
  assert (Pc : 0 < val c) by (unfold val; rewrite Hc; cbn [SFval]; lia).
  eapply mono_of_val; [apply (div_r_val c mc ec Hc)|].
  apply extend_mono.
  - intros u v L. apply RND_mono; try lia. nia.
  - intros v. apply RND_range. lia.
Qed.

(** *** [c + x], [x + c] and [x - c] for a finite [c] *)
Lemma RND_exact_fz (X : spec_float) :
  valid_binary X = true -> finite_or_zero X = true -> RND (SFval X) 1 = SFval X.
Proof.
  intros V F. destruct X as [s|s| |s m e]; try discriminate.
  - cbn [SFval]. apply RND_0. lia.
  - apply RND_exact, V.
Qed.

Lemma fz_range (X : spec_float) :
  valid_binary X = true -> finite_or_zero X = true -> - top < SFval X < top.
Proof.
  intros V F. pose proof top_pos. destruct X as [s|s| |s m e]; try discriminate.
  - cbn [SFval]. lia.
  - apply val_finite_range, V.
Qed.

Lemma SFadd_fz (X Y : spec_float) :
  valid_binary X = true -> valid_binary Y = true ->
  finite_or_zero X = true -> finite_or_zero Y = true ->
  not_nan (SF64add X Y) = true /\ SFval (SF64add X Y) = RND (SFval X + SFval Y) 1.
Proof.
  intros Vx Vy Fx Fy. unfold SF64add.
  destruct X as [sx|sx| |sx mx ex]; try discriminate;
  destruct Y as [sy|sy| |sy my ey]; try discriminate.
  - split; [destruct sx, sy; reflexivity|].
    replace (SFval (SFadd prec emax (S754_zero sx) (S754_zero sy))) with 0
      by (destruct sx, sy; reflexivity).
    cbn [SFval]. now rewrite RND_0 by lia.
  - split; [reflexivity|]. cbn [SFadd]. rewrite Z.add_0_l.
    symmetry. apply RND_exact, Vy.
  - split; [reflexivity|]. cbn [SFadd]. change (SFval (S754_zero sy)) with 0.
    rewrite Z.add_0_r. symmetry. apply RND_exact, Vx.
  - destruct (SFadd_val sx sy mx my ex ey Vx Vy) as (V & N & S). split; assumption.
Qed.

Lemma SFsub_fz (X Y : spec_float) :
  valid_binary X = true -> valid_binary Y = true ->
  finite_or_zero X = true -> finite_or_zero Y = true ->
  not_nan (SF64sub X Y) = true /\ SFval (SF64sub X Y) = RND (SFval X - SFval Y) 1.
Proof.
  intros Vx Vy Fx Fy. unfold SF64sub.
  destruct X as [sx|sx| |sx mx ex]; try discriminate;
  destruct Y as [sy|sy| |sy my ey]; try discriminate.
  - split; [destruct sx, sy; reflexivity|].
    replace (SFval (SFsub prec emax (S754_zero sx) (S754_zero sy))) with 0
      by (destruct sx, sy; reflexivity).
    cbn [SFval]. now rewrite RND_0 by lia.
  - split; [reflexivity|]. cbn [SFsub]. change (SFval (S754_zero sx)) with 0.
    rewrite Z.sub_0_l.
    assert (V' : valid_binary (S754_finite (negb sy) my ey) = true) by exact Vy.
    rewrite <- (RND_exact _ _ _ V'). f_equal. cbn [SFval]. destruct sy; cbn [negb]; lia.
  - split; [reflexivity|]. cbn [SFsub]. change (SFval (S754_zero sy)) with 0.
    rewrite Z.sub_0_r. symmetry. apply RND_exact, Vx.
  - destruct (SFsub_val sx sy mx my ex ey Vx Vy) as (V & N & S). split; assumption.
Qed.

Lemma add_l_val (c : float) :
  finite_or_zero (Prim2SF c) = true ->
  forall x, is_num x = true ->
  is_num (c + x) = true /\ val (c + x) = extend (fun v => RND (val c + v) 1) (val x).
Proof.
  intros Fc x Nx. unfold is_num, val in *. rewrite add_spec.
  pose proof (Prim2SF_valid x) as Vx. pose proof (Prim2SF_valid c) as Vc.
  destruct (finite_or_zero (Prim2SF x)) eqn:Fx.
  - destruct (SFadd_fz _ _ Vc Vx Fc Fx) as [N S]. split; [exact N|].
    rewrite S, extend_fin by (apply fz_range; assumption). reflexivity.
  - destruct (Prim2SF x) as [s|s| |s m e]; try discriminate.
    destruct (Prim2SF c) as [sc|sc| |sc mc ec]; try discriminate;
      (split; [reflexivity|]); cbn [SF64add SFadd SFval];
      (destruct s; [now rewrite extend_bot|now rewrite extend_top]).
Qed.

Lemma add_r_val (c : float) :
  finite_or_zero (Prim2SF c) = true ->
  forall x, is_num x = true ->
  is_num (x + c) = true /\ val (x + c) = extend (fun v => RND (v + val c) 1) (val x).
Proof.
  intros Fc x Nx. unfold is_num, val in *. rewrite add_spec.
  pose proof (Prim2SF_valid x) as Vx. pose proof (Prim2SF_valid c) as Vc.
  destruct (finite_or_zero (Prim2SF x)) eqn:Fx.
  - destruct (SFadd_fz _ _ Vx Vc Fx Fc) as [N S]. split; [exact N|].
    rewrite S, extend_fin by (apply fz_range; assumption). reflexivity.
  - destruct (Prim2SF x) as [s|s| |s m e]; try discriminate.
    destruct (Prim2SF c) as [sc|sc| |sc mc ec]; try discriminate;
      (split; [reflexivity|]); cbn [SF64add SFadd SFval];
      (destruct s; [now rewrite extend_bot|now rewrite extend_top]).
Qed.

Lemma sub_r_val (c : float) :
  finite_or_zero (Prim2SF c) = true ->
  forall x, is_num x = true ->
  is_num (x - c) = true /\ val (x - c) = extend (fun v => RND (v - val c) 1) (val x).
Proof.
  intros Fc x Nx. unfold is_num, val in *. rewrite sub_spec.
  pose proof (Prim2SF_valid x) as Vx. pose proof (Prim2SF_valid c) as Vc.
  destruct (finite_or_zero (Prim2SF x)) eqn:Fx.
  - destruct (SFsub_fz _ _ Vx Vc Fx Fc) as [N S]. split; [exact N|].
    rewrite S, extend_fin by (apply fz_range; assumption). reflexivity.
  - destruct (Prim2SF x) as [s|s| |s m e]; try discriminate.
    destruct (Prim2SF c) as [sc|sc| |sc mc ec]; try discriminate;
      (split; [reflexivity|]); cbn [SF64sub SFsub SFval];
      (destruct s; [now rewrite extend_bot|now rewrite extend_top]).
Qed.

Lemma add_l_mono (c : float) :
  finite_or_zero (Prim2SF c) = true -> mono (fun x => (c + x)%float).
Proof.
  intros Fc. eapply mono_of_val; [apply (add_l_val c Fc)|].
  apply extend_mono.
  - intros u v L. apply RND_mono; lia.
  - intros v. apply RND_range. lia.
Qed.

Lemma add_r_mono (c : float) :
  finite_or_zero (Prim2SF c) = true -> mono (fun x => (x + c)%float).
Proof.
  intros Fc. eapply mono_of_val; [apply (add_r_val c Fc)|].
  apply extend_mono.
  - intros u v L. apply RND_mono; lia.
  - intros v. apply RND_range. lia.
Qed.

Lemma sub_r_mono (c : float) :
  finite_or_zero (Prim2SF c) = true -> mono (fun x => (x - c)%float).
Proof.
  intros Fc. eapply mono_of_val; [apply (sub_r_val c Fc)|].
  apply extend_mono.
  - intros u v L. apply RND_mono; lia.
  - intros v. apply RND_range. lia.
Qed.

End PrimOps.

Section Conversions.
Import Binary64.

Lemma N2F_spec (z : Z) :
  0 <= z -> Prim2SF (JS.N2F z) = binary_normalize prec emax z 0 false.
Proof.
  intros Hz. unfold JS.N2F.
  destruct (z <? 2 ^ 63) eqn:B; [apply Z.ltb_lt in B|].
  - rewrite of_uint63_spec. f_equal.
    rewrite Uint63.of_Z_spec. apply Z.mod_small. split; [assumption|exact B].
  - apply Prim2SF_SF2Prim. apply (binary_normalize_val z 0 false). lia.
Qed.

Lemma N2F_val (z : Z) :
  0 <= z -> is_num (JS.N2F z) = true /\ val (JS.N2F z) = RND (z * 2 ^ 1074) 1.
Proof.
  intros Hz. unfold is_num, val. rewrite N2F_spec by assumption.
  destruct (binary_normalize_val z 0 false ltac:(lia)) as (V & N & S).
  split; [exact N|exact S].
Qed.

Lemma SFval_opp (X : spec_float) : SFval (SFopp X) = - SFval X.
Proof. destruct X as [s|s| |s m e]; cbn [SFopp SFval]; try destruct s; cbn [negb]; lia. Qed.

Lemma opp_val (x : float) :
  is_num x = true -> is_num (- x) = true /\ val (- x) = - val x.
Proof.
  unfold is_num, val. rewrite opp_spec. intros N.
  split; [destruct (Prim2SF x); try discriminate; reflexivity|apply SFval_opp].
Qed.

Lemma Z2F_val (z : Z) :
  is_num (JS.Z2F z) = true /\ val (JS.Z2F z) = RND (z * 2 ^ 1074) 1.
Proof.
  unfold JS.Z2F. destruct (z <? 0) eqn:S; [apply Z.ltb_lt in S|apply Z.ltb_ge in S].
  - destruct (N2F_val (- z) ltac:(lia)) as [N V].
    destruct (opp_val _ N) as [N' V']. split; [exact N'|].
    rewrite V', V, <- RND_opp by lia. f_equal. lia.
  - apply N2F_val, S.
Qed.

Lemma Z2F_mono (a b : Z) : a <= b -> (JS.Z2F a <=? JS.Z2F b)%float = true.
Proof.
  intros L. apply leb_iff.
  destruct (Z2F_val a) as [Na Va]. destruct (Z2F_val b) as [Nb Vb].
  split; [exact Na|split; [exact Nb|]]. rewrite Va, Vb.
  pose proof (pow2_pos 1074 ltac:(lia)). apply RND_mono; nia.
Qed.

(** Integers below 2^53 convert exactly. *)
Lemma N2F_exact (z : Z) : 0 <= z < 2 ^ 53 -> val (JS.N2F z) = z * 2 ^ 1074.
Proof.
  intros Hz. destruct (N2F_val z ltac:(lia)) as [_ V]. rewrite V.
  destruct (Z.eq_dec z 0) as [->|NZ]; [apply RND_0; lia|].
  rewrite RND_pos by (pose proof (pow2_pos 1074 ltac:(lia)); nia).
  unfold RNDpos, target. rewrite Z.div_1_r, Zdigits2_shl by lia.
  pose proof (digits_lt_pow z 53 ltac:(lia) ltac:(lia)) as D.
  pose proof (Zdigits2_pos z ltac:(lia)) as P.
  rewrite Z.max_l by lia.
  set (T := Zdigits2 z + 1074 - 53).
  pose proof (pow2_pos T ltac:(unfold T; lia)).
  rewrite (qcode_ext (z * 2 ^ 1074) (1 * 2 ^ T) (z * 2 ^ (1074 - T)) 1); try lia.
  2:{ replace 1074 with ((1074 - T) + T) at 1 by lia.
      rewrite Z.pow_add_r by (unfold T; lia). ring. }
  rewrite qcode_int. cbn [lcode]. rewrite Z.add_0_r, rne_exact.
  replace (z * 2 ^ (1074 - T) * 2 ^ T) with (z * 2 ^ 1074).
  2:{ replace 1074 with ((1074 - T) + T) at 1 by lia.
      rewrite Z.pow_add_r by (unfold T; lia). ring. }
  apply Z.min_l.
  assert (z * 2 ^ 1074 < 2 ^ 53 * 2 ^ 1074) by (pose proof (pow2_pos 1074 ltac:(lia)); nia).
  assert (2 ^ 53 * 2 ^ 1074 <= top) by (rewrite <- Z.pow_add_r by lia; apply pow2_le; lia).
  lia.
Qed.

End Conversions.

Section Rounding.
Import Binary64.

Lemma RHU_mono (u v : Z) : u <= v -> RHU u <= RHU v.
Proof.
  intros L. unfold RHU. pose proof (pow2_pos 1074 ltac:(lia)).
  apply Z.mul_le_mono_nonneg_l; [lia|]. apply Z.div_le_mono; lia.
Qed.

Lemma RHU_int (N : Z) : RHU (N * 2 ^ 1074) = N * 2 ^ 1074.
Proof.
  unfold RHU. pose proof (pow2_pos 1074 ltac:(lia)).
  rewrite Z.div_add_l by lia.
  rewrite (Z.div_small (2 ^ 1073)).
  - lia.
  - split; [apply Z.pow_nonneg; lia|apply Z.pow_lt_mono_r; lia].
Qed.

Lemma pow2_split (k : Z) :
  1 <= k <= 1074 ->
  2 ^ k = 2 * 2 ^ (k - 1) /\ 2 ^ 1073 = 2 ^ (k - 1) * 2 ^ (1074 - k) /\
  2 ^ 1074 = 2 * 2 ^ (k - 1) * 2 ^ (1074 - k).
Proof.
  intros Hk.
  assert (A : 2 ^ k = 2 * 2 ^ (k - 1)).
  { replace k with (1 + (k - 1)) at 1 by lia. rewrite Z.pow_add_r by lia. reflexivity. }
  assert (B : 2 ^ 1073 = 2 ^ (k - 1) * 2 ^ (1074 - k)).
  { rewrite <- Z.pow_add_r by lia. f_equal. lia. }
  repeat split; try assumption.
  rewrite <- Z.mul_assoc, <- B. reflexivity.
Qed.

Lemma round_up_pos (m k : Z) :
  0 <= m -> 1 <= k <= 1074 ->
  (m * 2 ^ (1074 - k) + 2 ^ 1073) / 2 ^ 1074 =
  m / 2 ^ k + (if 2 ^ (k - 1) <=? m mod 2 ^ k then 1 else 0).
Proof.
  intros Hm Hk. destruct (pow2_split k Hk) as (A & B & C).
  pose proof (pow2_pos (k - 1) ltac:(lia)) as PH.
  pose proof (pow2_pos (1074 - k) ltac:(lia)) as PP.
  pose proof (Z.div_mod m (2 ^ k) ltac:(lia)) as D.
  pose proof (Z.mod_pos_bound m (2 ^ k) ltac:(lia)) as R.
  rewrite B, C. rewrite A in D, R |- *.
  set (H := 2 ^ (k - 1)) in *. set (P := 2 ^ (1074 - k)) in *.
  set (q := m / (2 * H)) in *. set (r := m mod (2 * H)) in *.
  clearbody H P q r. symmetry.
  destruct (H <=? r) eqn:T; [apply Z.leb_le in T|apply Z.leb_gt in T].
  - apply (Z.div_unique _ _ _ ((r - H) * P)); [left; nia|]. subst m. ring.
  - apply (Z.div_unique _ _ _ ((r + H) * P)); [left; nia|]. subst m. ring.
Qed.

Lemma round_up_neg (m k : Z) :
  0 <= m -> 1 <= k <= 1074 ->
  (- (m * 2 ^ (1074 - k)) + 2 ^ 1073) / 2 ^ 1074 =
  - (m / 2 ^ k + (if 2 ^ (k - 1) <? m mod 2 ^ k then 1 else 0)).
Proof.
  intros Hm Hk. destruct (pow2_split k Hk) as (A & B & C).
  pose proof (pow2_pos (k - 1) ltac:(lia)) as PH.
  pose proof (pow2_pos (1074 - k) ltac:(lia)) as PP.
  pose proof (Z.div_mod m (2 ^ k) ltac:(lia)) as D.
  pose proof (Z.mod_pos_bound m (2 ^ k) ltac:(lia)) as R.
  rewrite B, C. rewrite A in D, R |- *.
  set (H := 2 ^ (k - 1)) in *. set (P := 2 ^ (1074 - k)) in *.
  set (q := m / (2 * H)) in *. set (r := m mod (2 * H)) in *.
  clearbody H P q r. symmetry.
  destruct (H <? r) eqn:T; [apply Z.ltb_lt in T|apply Z.ltb_ge in T].
  - apply (Z.div_unique _ _ _ ((3 * H - r) * P)); [left; nia|]. subst m. ring.
  - apply (Z.div_unique _ _ _ ((H - r) * P)); [left; nia|]. subst m. ring.
Qed.

Lemma Math_round_val (x : float) :
  is_num x = true ->
  is_num (JS.Math_round x) = true /\ val (JS.Math_round x) = RHU (val x).
Proof.
  intros Nx. unfold JS.Math_round.
  pose proof (Prim2SF_valid x) as Vx.
  unfold is_num, val in *.
  destruct (Prim2SF x) as [s|s| |s m e] eqn:E; try discriminate.
  - rewrite E. split; [reflexivity|]. reflexivity.
  - rewrite E. split; [reflexivity|]. cbn [SFval].
    change top with (2 ^ 1024 * 2 ^ 1074).
    destruct s; [|now rewrite RHU_int].
    replace (- (2 ^ 1024 * 2 ^ 1074)) with ((- 2 ^ 1024) * 2 ^ 1074) by ring.
    now rewrite RHU_int.
  - destruct (valid_finite _ _ _ Vx) as [He Hc].
    pose proof (Zdigits2_bounds (Zpos m) ltac:(lia)) as Bm.
    assert (Hm : Zpos m < 2 ^ 53).
    { assert (2 ^ Zdigits2 (Zpos m) <= 2 ^ 53)
        by (apply pow2_le; pose proof (Zdigits2_nonneg (Zpos m)); lia). lia. }
    destruct (0 <=? e) eqn:S; [apply Z.leb_le in S|apply Z.leb_gt in S].
    + rewrite E. split; [reflexivity|]. cbn [SFval].
      replace (e + 1074) with (e + 1074)%Z by reflexivity.
      rewrite Z.pow_add_r by lia.
      destruct s.
      * replace (- (Zpos m * (2 ^ e * 2 ^ 1074))) with ((- (Zpos m * 2 ^ e)) * 2 ^ 1074) by ring.
        now rewrite RHU_int.
      * replace (Zpos m * (2 ^ e * 2 ^ 1074)) with ((Zpos m * 2 ^ e) * 2 ^ 1074) by ring.
        now rewrite RHU_int.
    + rewrite Z.shiftr_div_pow2, Z.land_ones, Z.shiftl_mul_pow2, Z.mul_1_l by lia.
      set (k := - e) in *.
      assert (Hq : 0 <= Zpos m / 2 ^ k < 2 ^ 52).
      { split; [apply Z.div_pos; [lia|apply pow2_pos; lia]|].
        apply div_pow2_upper; try lia.
        assert (2 ^ 53 <= 2 ^ (52 + k)) by (apply pow2_le; lia). lia. }
      assert (P52 : 2 ^ 52 + 1 < 2 ^ 53) by reflexivity.
      cbn [SFval]. replace (e + 1074) with (1074 - k) by (unfold k; lia).
      replace (k - 1) with (k - 1) by reflexivity.
      destruct s.
      * unfold RHU. rewrite (round_up_neg (Zpos m) k) by lia.
        set (n := Zpos m / 2 ^ k + (if 2 ^ (k - 1) <? Zpos m mod 2 ^ k then 1 else 0)).
        assert (Hn : 0 <= n < 2 ^ 53) by (unfold n; destruct (_ <? _); lia).
        replace (if 2 ^ (k - 1) <? Zpos m mod 2 ^ k then Zpos m / 2 ^ k + 1 else Zpos m / 2 ^ k)
          with n by (unfold n; destruct (_ <? _); lia).
        destruct (n =? 0) eqn:Z0; [apply Z.eqb_eq in Z0|].
        -- rewrite Z0. split; reflexivity.
        -- destruct (N2F_val n ltac:(lia)) as [Nn _].
           destruct (opp_val _ Nn) as [N' V']. unfold is_num, val in N', V'.
           split; [exact N'|]. rewrite V'.
           change (SFval (Prim2SF (JS.N2F n))) with (val (JS.N2F n)).
           rewrite N2F_exact by lia. ring.
      * unfold RHU. rewrite (round_up_pos (Zpos m) k) by lia.
        set (n := Zpos m / 2 ^ k + (if 2 ^ (k - 1) <=? Zpos m mod 2 ^ k then 1 else 0)).
        assert (Hn : 0 <= n < 2 ^ 53) by (unfold n; destruct (_ <=? _); lia).
        replace (if 2 ^ (k - 1) <=? Zpos m mod 2 ^ k then Zpos m / 2 ^ k + 1 else Zpos m / 2 ^ k)
          with n by (unfold n; destruct (_ <=? _); lia).
        destruct (N2F_val n ltac:(lia)) as [Nn _]. unfold is_num in Nn.
        split; [exact Nn|].
        change (SFval (Prim2SF (JS.N2F n))) with (val (JS.N2F n)).
        rewrite N2F_exact by lia. ring.
Qed.

Lemma Math_round_mono : mono JS.Math_round.
Proof.
  eapply mono_of_val; [apply Math_round_val|apply RHU_mono].
Qed.

End Rounding.

Section Engine.
Import Binary64 PlinkoEngine.

Lemma ltb_leb_trans (x y z : float) :
  (x <? y)%float = true -> (y <=? z)%float = true -> (x <? z)%float = true.
Proof.
  rewrite leb_iff, !ltb_iff. intros (A & B & C) (D & E & F). repeat split; try assumption. lia.
Qed.

Lemma not_ltb_leb (x y : float) :
  is_num x = true -> is_num y = true -> (x <? y)%float = false -> (y <=? x)%float = true.
Proof.
  intros Nx Ny H. apply leb_iff. repeat split; try assumption.
  destruct (Z_le_gt_dec (val y) (val x)) as [|G]; [assumption|].
  assert (T : (x <? y)%float = true) by (apply ltb_iff; repeat split; try assumption; lia).
  congruence.
Qed.

Lemma is_nan_false (x : float) : is_num x = true -> is_nan x = false.
Proof.
  intros N. unfold is_nan. rewrite FloatAxioms.eqb_spec. unfold SFeqb.
  rewrite (SFcompare_val _ _ (Prim2SF_valid x) (Prim2SF_valid x) N N).
  now rewrite Z.compare_refl.
Qed.

Lemma is_nan_true (x : float) : is_num x = false -> is_nan x = true.
Proof.
  intros N. unfold is_nan. rewrite FloatAxioms.eqb_spec. unfold is_num in N.
  destruct (Prim2SF x); try discriminate. reflexivity.
Qed.

Lemma leb_num_l (x y : float) : (x <=? y)%float = true -> is_num x = true.
Proof. rewrite leb_iff. now intros (H & _). Qed.

Lemma leb_num_r (x y : float) : (x <=? y)%float = true -> is_num y = true.
Proof. rewrite leb_iff. now intros (_ & H & _). Qed.

(** *** The unit interval of the generator *)
Lemma to_unit_mono (a b : Z) :
  a <= b -> (XORShift32.to_unit a <=? XORShift32.to_unit b)%float = true.
Proof.
  intros L. unfold XORShift32.to_unit.
  apply (div_r_mono 4294967296 4503599627370496 (-20) eq_refl).
  apply Z2F_mono, L.
Qed.

Lemma to_unit_range (s : Z) :
  0 <= s < 2 ^ 32 ->
  (0 <=? XORShift32.to_unit s)%float = true /\ (XORShift32.to_unit s <? 1)%float = true.
Proof.
  intros H. split.
  - change 0%float with (XORShift32.to_unit 0). apply to_unit_mono. lia.
  - apply (leb_ltb_trans _ (XORShift32.to_unit (2 ^ 32 - 1))).
    + apply to_unit_mono. lia.
    + reflexivity.
Qed.

(** *** Peg biases *)
Lemma roundedBias_mono : mono roundedBias_of.
Proof.
  unfold roundedBias_of, leftBias_of.
  apply (mono_comp (fun u => (JS.Math_round ((0.5 + (u - 0.5) * 0.2) * 1000000))%float)
                   (fun w => (w / 1000000)%float)).
  2:{ exact (div_r_mono 1000000 8589934592000000 (-33) eq_refl). }
  apply (mono_comp (fun u => ((0.5 + (u - 0.5) * 0.2) * 1000000)%float) JS.Math_round).
  2:{ exact Math_round_mono. }
  apply (mono_comp (fun u => (0.5 + (u - 0.5) * 0.2)%float) (fun w => (w * 1000000)%float)).
  2:{ exact (mul_r_mono 1000000 8589934592000000 (-33) eq_refl). }
  apply (mono_comp (fun u => ((u - 0.5) * 0.2)%float) (fun w => (0.5 + w)%float)).
  2:{ exact (add_l_mono 0.5 eq_refl). }
  apply (mono_comp (fun u => (u - 0.5)%float) (fun w => (w * 0.2)%float)).
  2:{ exact (mul_r_mono 0.2 7205759403792794 (-55) eq_refl). }
  exact (sub_r_mono 0.5 eq_refl).
Qed.

Lemma roundedBias_range (u : float) :
  (0 <=? u)%float = true -> (u <=? 1)%float = true ->
  (0.4 <=? roundedBias_of u)%float = true /\ (roundedBias_of u <=? 0.6)%float = true.
Proof.
  intros L U. split.
  - change 0.4%float with (roundedBias_of 0). apply roundedBias_mono, L.
  - change 0.6%float with (roundedBias_of 1). apply roundedBias_mono, U.
Qed.

(** *** The clamp of [simulateDrop] *)
Lemma clamp_range (z : float) :
  is_num z = true ->
  (0 <=? JS.Math_max 0 (JS.Math_min 1 z))%float = true /\
  (JS.Math_max 0 (JS.Math_min 1 z) <=? 1)%float = true.
Proof.
  intros Nz.
  assert (N1 : is_num 1 = true) by reflexivity.
  assert (N0 : is_num 0 = true) by reflexivity.
  set (w := JS.Math_min 1 z).
  assert (Hw : is_num w = true /\ (w <=? 1)%float = true).
  { unfold w, JS.Math_min. rewrite (is_nan_false z Nz).
    change (is_nan 1) with false. cbn [orb].
    destruct (1 <? z)%float eqn:A; [split; reflexivity|].
    pose proof (not_ltb_leb 1 z N1 Nz A) as L.
    destruct (z <? 1)%float; [split; assumption|].
    change (JS.is_neg_zero 1) with false. cbn iota. split; assumption. }
  destruct Hw as [Nw Lw]. unfold JS.Math_max.
  rewrite (is_nan_false w Nw). change (is_nan 0) with false. cbn [orb].
  destruct (0 <? w)%float eqn:A; [split; [apply ltb_leb, A|exact Lw]|].
  destruct (w <? 0)%float; [split; reflexivity|].
  change (JS.is_neg_zero 0) with false. cbn iota. split; reflexivity.
Qed.

Lemma adj_num (dropColumn : float) :
  is_num dropColumn = true -> is_num (adj_of dropColumn) = true.
Proof.
  intros Nd. unfold adj_of.
  destruct (sub_r_val (JS.Z2F (ROWS / 2)) eq_refl _ Nd) as [N _].
  apply (mul_r_val 0.01 5764607523034235 (-59) eq_refl _ N).
Qed.

(** A drop column that is NaN makes the adjusted bias NaN, whatever the peg
    bias. *)
Lemma adjustedBias_nan (leftBias dropColumn : float) :
  is_nan dropColumn = true -> adjustedBias_of leftBias (adj_of dropColumn) = nan.
Proof.
  intros Nd.
  assert (E : Prim2SF dropColumn = S754_nan).
  { destruct (is_num dropColumn) eqn:N.
    - rewrite (is_nan_false _ N) in Nd. discriminate.
    - unfold is_num in N. destruct (Prim2SF dropColumn); try discriminate. reflexivity. }
  assert (B : is_num (leftBias + adj_of dropColumn) = false).
  { unfold is_num, adj_of. rewrite add_spec, mul_spec, sub_spec, E.
    destruct (Prim2SF leftBias) as [s|s| |s m e]; reflexivity. }
  apply is_nan_true in B.
  unfold adjustedBias_of, JS.Math_min. rewrite B, orb_true_r.
  reflexivity.
Qed.

Lemma is_num_of_not_nan (x : float) : is_nan x = false -> is_num x = true.
Proof.
  intros N. destruct (is_num x) eqn:E; [reflexivity|].
  apply is_nan_true in E. congruence.
Qed.

Lemma bounded_finite (x lo hi : float) :
  finite_or_zero (Prim2SF lo) = true -> finite_or_zero (Prim2SF hi) = true ->
  (lo <=? x)%float = true -> (x <=? hi)%float = true ->
  finite_or_zero (Prim2SF x) = true.
Proof.
  intros Flo Fhi L U. apply leb_iff in L, U.
  destruct L as (_ & Nx & L). destruct U as (_ & _ & U).
  pose proof (fz_range _ (Prim2SF_valid lo) Flo).
  pose proof (fz_range _ (Prim2SF_valid hi) Fhi).
  unfold val, is_num in *.
  destruct (Prim2SF x) as [s|s| |s m e]; try reflexivity; try discriminate.
  cbn [SFval] in *. destruct s; lia.
Qed.

Lemma adjustedBias_range (leftBias dropColumn : float) :
  is_num dropColumn = true ->
  (0.4 <=? leftBias)%float = true -> (leftBias <=? 0.6)%float = true ->
  (0 <=? adjustedBias_of leftBias (adj_of dropColumn))%float = true /\
  (adjustedBias_of leftBias (adj_of dropColumn) <=? 1)%float = true.
Proof.
  intros Nd L U. unfold adjustedBias_of. apply clamp_range.
  assert (F : finite_or_zero (Prim2SF leftBias) = true)
    by (apply (bounded_finite leftBias 0.4 0.6); auto).
  apply (add_l_val leftBias F), adj_num, Nd.
Qed.

(** *** The pay table *)
Lemma multiplier_mono (center i j : Z) :
  Z.abs (i - center) <= Z.abs (j - center) ->
  (multiplier_of center i <=? multiplier_of center j)%float = true.
Proof.
  intros L. unfold multiplier_of.
  apply (div_r_mono 100 7036874417766400 (-46) eq_refl).
  apply Math_round_mono.
  apply (mul_r_mono 100 7036874417766400 (-46) eq_refl).
  apply (add_l_mono 0.5 eq_refl).
  apply (mul_r_mono 0.3 5404319552844595 (-54) eq_refl).
  apply Z2F_mono, L.
Qed.

End Engine.

(** * The specification, property by property *)

(** ** Shape of the path *)
Section Path.
Import PlinkoEngine Stream.

Lemma walk_step (pegMap : PegMap) (adj : float) (n row pos k : nat)
    (r : RoundRNG.t) (s : GamePath) :
  nth_error (walk pegMap adj n row pos r) k = Some s ->
  PlinkoEngine.row s = (row + k)%nat /\ (pos <= column s <= pos + S k)%nat /\
  randomValue s = draw_at k r /\
  adjustedBias s = adjustedBias_of (pegBias s) adj /\
  direction s = (if (randomValue s <? adjustedBias s)%float then Left else Right) /\
  exists p, (p <= row + k)%nat /\ pegBias s = nth p (nth (row + k) pegMap []) nan.
Proof.
  intros H. apply walk_nth in H. destruct H as (p & Hp & ->).
  pose proof (step_at_column pegMap adj (row + k) p (draw_at k r)) as Hc.
  split; [reflexivity|]. split; [lia|].
  unfold step_at. cbn [randomValue adjustedBias pegBias direction].
  split; [reflexivity|]. split; [reflexivity|]. split; [reflexivity|].
  exists (Nat.min p (row + k)). split; [lia|reflexivity].
Qed.

Lemma last_nth_error {A : Type} (l : list A) (x : A) :
  last (map Some l) None = Some x -> nth_error l (List.length l - 1) = Some x.
Proof.
  induction l as [|a l IH]; [discriminate|].
  destruct l as [|b l].
  - cbn. congruence.
  - intros H. change (last (map Some (b :: l)) None = Some x) in H.
    apply IH in H. cbn [List.length] in *.
    replace (S (S (List.length l)) - 1)%nat with (S (S (List.length l) - 1)) by lia.
    exact H.
Qed.

End Path.

Section Outcome.
Import PlinkoEngine Stream.

(** C1. Determinism of [playRound]: two invocations on the same server
    secret, client seed, nonce, drop column, row count and stake have the
    same outcome, and when they return, the two Game Results agree on the peg
    map, the peg map hash, the path with every step's random draw, peg bias
    and adjusted bias, the bin index, the payout multiplier, the payout
    amount and the combined seed. *)
Theorem playRound_deterministic
    (serverSeed1 clientSeed1 nonce1 : string) (dropColumn1 : float) (rows1 betCents1 : Z)
    (serverSeed2 clientSeed2 nonce2 : string) (dropColumn2 : float) (rows2 betCents2 : Z) :
  serverSeed1 = serverSeed2 -> clientSeed1 = clientSeed2 -> nonce1 = nonce2 ->
  dropColumn1 = dropColumn2 -> rows1 = rows2 -> betCents1 = betCents2 ->
  playRound serverSeed1 clientSeed1 nonce1 dropColumn1 rows1 betCents1 =
  playRound serverSeed2 clientSeed2 nonce2 dropColumn2 rows2 betCents2 /\
  forall g1 g2 : GameResult,
    playRound serverSeed1 clientSeed1 nonce1 dropColumn1 rows1 betCents1 = Returns g1 ->
    playRound serverSeed2 clientSeed2 nonce2 dropColumn2 rows2 betCents2 = Returns g2 ->
    pegMap g1 = pegMap g2 /\ pegMapHash g1 = pegMapHash g2 /\
    path g1 = path g2 /\
    map randomValue (path g1) = map randomValue (path g2) /\
    map pegBias (path g1) = map pegBias (path g2) /\
    map adjustedBias (path g1) = map adjustedBias (path g2) /\
    binIndex g1 = binIndex g2 /\
    payoutMultiplier g1 = payoutMultiplier g2 /\
    payoutCents g1 = payoutCents g2 /\
    combinedSeed g1 = combinedSeed g2.
Proof.
  intros -> -> -> -> -> ->. split; [reflexivity|].
  intros g1 g2 H1 H2. rewrite H1 in H2. injection H2 as ->.
  repeat split.
Qed.

Lemma playRound_deterministic_witness :
  playRound Vector.serverSeed Vector.clientSeed Vector.nonce 6 12 100 =
  playRound Vector.serverSeed Vector.clientSeed Vector.nonce 6 12 100 /\
  forall g1 g2 : GameResult,
    playRound Vector.serverSeed Vector.clientSeed Vector.nonce 6 12 100 = Returns g1 ->
    playRound Vector.serverSeed Vector.clientSeed Vector.nonce 6 12 100 = Returns g2 ->
    pegMap g1 = pegMap g2 /\ pegMapHash g1 = pegMapHash g2 /\
    path g1 = path g2 /\
    map randomValue (path g1) = map randomValue (path g2) /\
    map pegBias (path g1) = map pegBias (path g2) /\
    map adjustedBias (path g1) = map adjustedBias (path g2) /\
    binIndex g1 = binIndex g2 /\
    payoutMultiplier g1 = payoutMultiplier g2 /\
    payoutCents g1 = payoutCents g2 /\
    combinedSeed g1 = combinedSeed g2.
Proof.
  apply (playRound_deterministic
           Vector.serverSeed Vector.clientSeed Vector.nonce 6 12 100
           Vector.serverSeed Vector.clientSeed Vector.nonce 6 12 100);
    reflexivity.
Defined.

(** C2, as the code has it.  [playRound] checks neither the drop column nor
    the stake.  Whatever the drop column (any number, NaN included) and the
    stake, it returns a Game Result when the row count is at least 12; when
    the row count is below 12 it throws a TypeError and nothing else.  The
    throw comes from [simulateDrop], after [generatePegMap] has returned and
    taken its draws: rows(rows+1)/2 of them for a row count from 0 to 11,
    none for a negative one.  Whether it returns depends on the row count
    alone. *)
Theorem playRound_checks_nothing
    (serverSeed clientSeed nonce : string) (dropColumn : float) (rows betCents : Z) :
  (12 <= rows ->
   exists g, playRound serverSeed clientSeed nonce dropColumn rows betCents = Returns g /\
             PlinkoEngine.rows g = rows) /\
  (rows < 12 ->
   playRound serverSeed clientSeed nonce dropColumn rows betCents = Throws TypeError /\
   exists (pegMap : PegMap) (rng' : RoundRNG.t),
     generatePegMap rows
       (RoundRNG.new (SHA256.hex (serverSeed ++ ":" ++ clientSeed ++ ":" ++ nonce))) =
       Returns (pegMap, rng') /\
     RoundRNG.getCallCount rng' = (if 0 <=? rows then rows * (rows + 1) / 2 else 0) /\
     simulateDrop pegMap dropColumn rng' = Throws TypeError).
Proof.
  split; intros Hrows.
  - destruct (playRound_returns serverSeed clientSeed nonce dropColumn rows betCents Hrows)
      as (step & _ & Hplay).
    eexists. split; [exact Hplay|]. reflexivity.
  - split; [now apply playRound_throws|].
    do 2 eexists. split; [apply generatePegMap_spec|]. split.
    + unfold RoundRNG.getCallCount. rewrite callCount_advance, triangular_closed.
      destruct (Z.leb_spec 0 rows) as [P|N].
      * rewrite Z2Nat.id by exact P. reflexivity.
      * replace (Z.to_nat rows) with 0%nat by lia. reflexivity.
    + unfold simulateDrop. change (Z.to_nat ROWS) with 12%nat.
      apply dropLoop_throws. rewrite triangle_length. lia.
Qed.

(** C2, counterexample.  On the seeds of the end-to-end vector, with 12
    rows: drop column 13 and drop column -1 are outside [0, 12], NaN is no
    column at all, the stakes 0 and -5 are not positive, and each call
    returns a Game Result.  With the drop column NaN the ball goes right at
    every row and lands in bin 12. *)
Lemma playRound_accepts_out_of_range :
  (exists g, playRound Vector.serverSeed Vector.clientSeed Vector.nonce 13 12 100 =
             Returns g) /\
  (exists g, playRound Vector.serverSeed Vector.clientSeed Vector.nonce (-1) 12 100 =
             Returns g) /\
  (exists g, playRound Vector.serverSeed Vector.clientSeed Vector.nonce nan 12 100 =
             Returns g /\ binIndex g = 12%nat) /\
  (exists g, playRound Vector.serverSeed Vector.clientSeed Vector.nonce 6 12 0 =
             Returns g /\ payoutCents g = 0%float) /\
  (exists g, playRound Vector.serverSeed Vector.clientSeed Vector.nonce 6 12 (-5) =
             Returns g /\ payoutCents g = (-2)%float).
Proof.
  repeat split.
  - destruct (playRound_returns Vector.serverSeed Vector.clientSeed Vector.nonce 13 12 100)
      as (step & _ & Hplay); [lia|]. eexists; exact Hplay.
  - destruct (playRound_returns Vector.serverSeed Vector.clientSeed Vector.nonce (-1) 12 100)
      as (step & _ & Hplay); [lia|]. eexists; exact Hplay.
  - eexists. split; [vm_compute; reflexivity|reflexivity].
  - eexists. split; [vm_compute; reflexivity|reflexivity].
  - eexists. split; [vm_compute; reflexivity|reflexivity].
Qed.

(** C3, as the code has it.  [simulateDrop] loops over the constant [ROWS],
    not over the row count it is called for.  So for every row count of at
    least 12 the path has exactly 12 steps, step k being that of row k, and
    the bin index is the column of the last step, in [0, 12]; the peg map
    does have as many rows as asked.  With 13 rows the path therefore has 12
    steps, not 13, and with any row count below 12 (5, say) the call throws
    instead of returning a path. *)
Theorem playRound_path_has_ROWS_steps
    (serverSeed clientSeed nonce : string) (dropColumn : float) (betCents : Z) :
  (forall rows, 12 <= rows ->
     exists g, playRound serverSeed clientSeed nonce dropColumn rows betCents = Returns g /\
       PlinkoEngine.rows g = rows /\
       List.length (pegMap g) = Z.to_nat rows /\
       List.length (path g) = Z.to_nat ROWS /\
       (forall k step, nth_error (path g) k = Some step -> PlinkoEngine.row step = k) /\
       (exists step, nth_error (path g) 11 = Some step /\ binIndex g = column step) /\
       (binIndex g <= 12)%nat) /\
  (exists g, playRound serverSeed clientSeed nonce dropColumn 13 betCents = Returns g /\
     PlinkoEngine.rows g = 13 /\ List.length (path g) = 12%nat) /\
  playRound serverSeed clientSeed nonce dropColumn 5 betCents = Throws TypeError /\
  (forall rows, rows < 12 ->
     playRound serverSeed clientSeed nonce dropColumn rows betCents = Throws TypeError).
Proof.
  assert (main : forall rows, 12 <= rows ->
     exists g, playRound serverSeed clientSeed nonce dropColumn rows betCents = Returns g /\
       PlinkoEngine.rows g = rows /\
       List.length (pegMap g) = Z.to_nat rows /\
       List.length (path g) = Z.to_nat ROWS /\
       (forall k step, nth_error (path g) k = Some step -> PlinkoEngine.row step = k) /\
       (exists step, nth_error (path g) 11 = Some step /\ binIndex g = column step) /\
       (binIndex g <= 12)%nat).
  { intros rows Hrows.
    destruct (playRound_returns serverSeed clientSeed nonce dropColumn rows betCents Hrows)
      as (step & Hlast & Hplay).
    eexists. split; [exact Hplay|].
    cbn [PlinkoEngine.rows pegMap path binIndex].
    apply last_nth_error in Hlast. rewrite walk_length in Hlast.
    change (12 - 1)%nat with 11%nat in Hlast.
    split; [reflexivity|]. split; [apply triangle_length|].
    split; [apply walk_length|].
    split; [intros k st Hk; apply walk_step in Hk; destruct Hk as (Hk & _); exact Hk|].
    split; [exists step; split; [exact Hlast|reflexivity]|].
    apply walk_step in Hlast. lia. }
  split; [exact main|]. split.
  - destruct (main 13) as (g & Hg & Hr & _ & Hp & _); [lia|].
    exists g. repeat split; assumption.
  - split; [apply playRound_throws; lia|]. intros rows Hrows. now apply playRound_throws.
Qed.

(** C9. Commitment soundness: the commitment is the hexadecimal SHA-256
    digest of secret + ":" + nonce; verifying a commitment against the secret
    and nonce it was created from answers true; and for any commitment string
    whatever the answer is a boolean, true exactly when the string is that
    digest. *)
Theorem verifyCommit_sound (serverSeed nonce : string) :
  ProvablyFairProtocol.createCommitHash serverSeed nonce =
    SHA256.hex (serverSeed ++ ":" ++ nonce) /\
  ProvablyFairProtocol.verifyCommit serverSeed nonce
    (ProvablyFairProtocol.createCommitHash serverSeed nonce) = true /\
  forall commitHash : string,
    (ProvablyFairProtocol.verifyCommit serverSeed nonce commitHash = true <->
     commitHash = ProvablyFairProtocol.createCommitHash serverSeed nonce) /\
    (ProvablyFairProtocol.verifyCommit serverSeed nonce commitHash = false <->
     commitHash <> ProvablyFairProtocol.createCommitHash serverSeed nonce).
Proof.
  split; [reflexivity|]. split.
  - unfold ProvablyFairProtocol.verifyCommit. apply String.eqb_refl.
  - intros commitHash. unfold ProvablyFairProtocol.verifyCommit. split.
    + rewrite String.eqb_eq. split; congruence.
    + rewrite String.eqb_neq. split; congruence.
Qed.

End Outcome.

Section EndToEnd.
Import PlinkoEngine Stream Decimal.

(** C7. The literal end-to-end vector: for the given secret, client seed
    and nonce, drop column 6 and 12 rows, whatever the stake, [playRound]
    returns a result whose combined seed is the given digest, whose bin index
    is 6, and whose peg map starts with the rows [0.422123],
    [0.552503, 0.408786] and [0.491574, 0.468780, 0.436540], each entry
    within 1e-6 of the value given. *)
Theorem playRound_vector (betCents : Z) :
  exists g,
    playRound Vector.serverSeed Vector.clientSeed Vector.nonce 6 12 betCents = Returns g /\
    combinedSeed g = Vector.combinedSeed /\
    binIndex g = 6%nat /\
    (exists a, nth_error (pegMap g) 0 = Some [a] /\ close_to a 0.422123 = true) /\
    (exists a b, nth_error (pegMap g) 1 = Some [a; b] /\
       close_to a 0.552503 = true /\ close_to b 0.408786 = true) /\
    (exists a b c, nth_error (pegMap g) 2 = Some [a; b; c] /\
       close_to a 0.491574 = true /\ close_to b 0.468780 = true /\
       close_to c 0.436540 = true).
Proof.
  destruct (playRound_returns Vector.serverSeed Vector.clientSeed Vector.nonce 6 12 betCents)
    as (step & Hlast & Hplay); [lia|].
  eexists. split; [exact Hplay|].
  cbn [combinedSeed binIndex pegMap].
  split; [vm_compute; reflexivity|].
  split.
  { vm_compute in Hlast. injection Hlast as <-. reflexivity. }
  split; [eexists; split; [vm_compute; reflexivity|vm_compute; reflexivity]|].
  split.
  - do 2 eexists. split; [vm_compute; reflexivity|]. split; vm_compute; reflexivity.
  - do 3 eexists. split; [vm_compute; reflexivity|]. repeat split; vm_compute; reflexivity.
Qed.

End EndToEnd.

(** ** The generator at the level of bits *)
Section Bits.
Import Binary64 Xorshift.

Lemma ToUint32_ToInt32 (z : Z) : JS.ToUint32 (JS.ToInt32 z) = JS.ToUint32 z.
Proof.
  unfold JS.ToUint32, JS.ToInt32. rewrite Zminus_mod_idemp_l.
  f_equal. lia.
Qed.

Lemma ToUint32_idem (z : Z) : JS.ToUint32 (JS.ToUint32 z) = JS.ToUint32 z.
Proof. unfold JS.ToUint32. apply Z.mod_mod. lia. Qed.

Lemma ToUint32_lxor (a b : Z) :
  JS.ToUint32 (Z.lxor a b) = Z.lxor (JS.ToUint32 a) (JS.ToUint32 b).
Proof.
  unfold JS.ToUint32. rewrite <- !Z.land_ones by lia.
  apply Z.bits_inj'. intros n _.
  rewrite Z.lxor_spec, !Z.land_spec, Z.lxor_spec.
  now destruct (Z.testbit a n), (Z.testbit b n), (Z.testbit (Z.ones 32) n).
Qed.

Lemma ToUint32_shiftl (a n : Z) :
  0 <= n -> JS.ToUint32 (Z.shiftl a n) = JS.ToUint32 (Z.shiftl (JS.ToUint32 a) n).
Proof.
  intros Hn. unfold JS.ToUint32. rewrite !Z.shiftl_mul_pow2 by assumption.
  now rewrite Z.mul_mod_idemp_l by lia.
Qed.

Lemma ToUint32_range (z : Z) : 0 <= JS.ToUint32 z < 2 ^ 32.
Proof. unfold JS.ToUint32. apply Z.mod_pos_bound. lia. Qed.

Lemma ToUint32_xor (a b : Z) :
  JS.ToUint32 (JS.xor a b) = Z.lxor (JS.ToUint32 a) (JS.ToUint32 b).
Proof. unfold JS.xor. now rewrite ToUint32_lxor, !ToUint32_ToInt32. Qed.

Lemma ToUint32_shl (a n : Z) :
  0 <= n -> JS.ToUint32 (JS.shl a n) = JS.ToUint32 (Z.shiftl (JS.ToUint32 a) n).
Proof.
  intros Hn. unfold JS.shl.
  now rewrite ToUint32_ToInt32, ToUint32_shiftl, ToUint32_ToInt32 by assumption.
Qed.

(** The JavaScript operators work on signed 32-bit values between the
    assignments; modulo 2^32 they are the masked steps of the
    specification. *)
Lemma next_state_refines (s : Z) : XORShift32.next_state s = xorshift32_step s.
Proof.
  unfold XORShift32.next_state, xorshift32_step. cbv zeta.
  set (s1 := JS.xor s (JS.shl s 13)).
  set (s2 := JS.xor s1 (JS.ushr s1 17)).
  change (Z.lxor s (Z.shiftl s 13) mod 2 ^ 32)
    with (JS.ToUint32 (Z.lxor s (Z.shiftl s 13))).
  set (x1 := JS.ToUint32 (Z.lxor s (Z.shiftl s 13))).
  change (Z.lxor x1 (Z.shiftr x1 17) mod 2 ^ 32)
    with (JS.ToUint32 (Z.lxor x1 (Z.shiftr x1 17))).
  set (x2 := JS.ToUint32 (Z.lxor x1 (Z.shiftr x1 17))).
  change (Z.lxor x2 (Z.shiftl x2 5) mod 2 ^ 32)
    with (JS.ToUint32 (Z.lxor x2 (Z.shiftl x2 5))).
  assert (E1 : JS.ToUint32 s1 = x1).
  { unfold s1, x1. rewrite ToUint32_xor, ToUint32_shl, ToUint32_lxor by lia.
    now rewrite (ToUint32_shiftl s 13) by lia. }
  assert (E2 : JS.ToUint32 s2 = x2).
  { unfold s2. rewrite ToUint32_xor. unfold JS.ushr. rewrite E1.
    unfold x2. rewrite ToUint32_lxor. f_equal. unfold x1. symmetry. apply ToUint32_idem. }
  unfold JS.ushr. rewrite Z.shiftr_0_r.
  rewrite ToUint32_xor, ToUint32_shl, E2 by lia.
  rewrite ToUint32_lxor. f_equal. unfold x2. symmetry. apply ToUint32_idem.
Qed.

Lemma next_state_range (s : Z) : 0 <= XORShift32.next_state s < 2 ^ 32.
Proof. rewrite next_state_refines. unfold xorshift32_step. apply Z.mod_pos_bound. lia. Qed.

(** The quotient by 2^32 is exact in binary64. *)
Lemma to_unit_exact (s : Z) :
  0 <= s < 2 ^ 32 -> val (XORShift32.to_unit s) = s * 2 ^ 1042.
Proof.
  intros Hs. unfold XORShift32.to_unit.
  destruct (Z2F_val s) as (Ns & _).
  assert (Vs : val (JS.Z2F s) = s * 2 ^ 1074).
  { unfold JS.Z2F. destruct (s <? 0) eqn:B; [apply Z.ltb_lt in B; lia|].
    apply N2F_exact. assert (2 ^ 32 < 2 ^ 53) by (apply Z.pow_lt_mono_r; lia). lia. }
  destruct (div_r_val 4294967296 4503599627370496 (-20) eq_refl _ Ns) as (_ & V).
  rewrite V, Vs. clear V Vs Ns.
  assert (P1074 : 0 < 2 ^ 1074) by (apply pow2_pos; lia).
  assert (P1042 : 0 < 2 ^ 1042) by (apply pow2_pos; lia).
  assert (T : s * 2 ^ 1074 < top).
  { unfold top. replace (2 ^ 2098) with (2 ^ 1024 * 2 ^ 1074)
      by (rewrite <- Z.pow_add_r by lia; reflexivity).
    apply Z.mul_lt_mono_pos_r; [assumption|].
    assert (2 ^ 32 < 2 ^ 1024) by (apply Z.pow_lt_mono_r; lia). lia. }
  rewrite extend_fin by (pose proof top_pos; nia).
  change (val 4294967296) with (2 ^ 32 * 2 ^ 1074).
  destruct (Z.eq_dec s 0) as [->|Hn].
  { rewrite Z.mul_0_l. cbn [Z.mul]. apply RND_0. nia. }
  rewrite RND_pos by nia.
  set (d := Zdigits2 s).
  assert (Hd : 0 < d <= 32).
  { split; [apply Zdigits2_pos; lia|apply digits_lt_pow; lia]. }
  assert (EQ : s * 2 ^ (53 - d) * 2 ^ (989 + d) = s * 2 ^ 1042).
  { rewrite <- (Z.mul_assoc s), <- (Z.pow_add_r 2 (53 - d) (989 + d)) by lia.
    now replace (53 - d + (989 + d)) with 1042 by lia. }
  rewrite (RNDpos_ext _ _ (s * 2 ^ (53 - d) * 2 ^ (989 + d)) 1).
  - rewrite RNDpos_exact; [exact EQ| | | |].
    + apply Z.mul_pos_pos; [lia|apply pow2_pos; lia].
    + lia.
    + rewrite Zdigits2_shl by lia. fold d. lia.
    + rewrite EQ. assert (2 ^ 1042 < 2 ^ 1074) by (apply Z.pow_lt_mono_r; lia).
      clear - T H P1042 Hs. nia.
  - clear - Hs P1074. nia.
  - clear - P1074. nia.
  - lia.
  - rewrite EQ, Z.mul_1_r, <- !Z.mul_assoc. apply (f_equal (Z.mul s)).
    rewrite <- !Z.pow_add_r by lia. reflexivity.
Qed.

End Bits.

Section Generator.
Import Binary64 Xorshift.

(** C8. The generator.  The constructor keeps the seed as an unsigned
    32-bit integer, a zero seed (and NaN, which [>>> 0] turns into 0)
    becoming 1; [next()] replaces the state [s] by the xorshift of [s]: XOR
    with [s] shifted left by 13, then right by 17, then left by 5, each kept
    to 32 bits; it returns the new state divided by 2^32, exactly, a value
    in [0, 1); and the output of call [k] is that of the state reached
    by the calls before it. *)
Theorem XORShift32_refines_xorshift :
  (forall seed : JS.number,
     XORShift32.state (XORShift32.new seed) =
       (if JS.ushr0 seed =? 0 then 1 else JS.ushr0 seed) /\
     0 < XORShift32.state (XORShift32.new seed) < 2 ^ 32) /\
  (forall z : Z, JS.ushr0 (JS.Int z) = z mod 2 ^ 32) /\
  XORShift32.new (JS.Int 0) = XORShift32.new (JS.Int 1) /\
  (forall g : XORShift32.t,
     let s' := xorshift32_step (XORShift32.state g) in
     XORShift32.state (snd (XORShift32.next g)) = s' /\
     0 <= s' < 2 ^ 32 /\
     fst (XORShift32.next g) = (JS.Z2F s' / 4294967296)%float /\
     val (fst (XORShift32.next g)) * 2 ^ 32 = s' * 2 ^ 1074 /\
     (0 <=? fst (XORShift32.next g))%float = true /\
     (fst (XORShift32.next g) <? 1)%float = true) /\
  (forall (k : nat) (g : XORShift32.t),
     nth_call k g =
       XORShift32.next
         {| XORShift32.state := Nat.iter k xorshift32_step (XORShift32.state g) |}).
Proof.
  split; [|split; [|split; [|split]]].
  - intros seed. unfold XORShift32.new. cbn [XORShift32.state].
    split; [reflexivity|].
    assert (R : 0 <= JS.ushr0 seed < 2 ^ 32).
    { destruct seed as [|z]; cbn [JS.ushr0]; [lia|apply ToUint32_range]. }
    destruct (JS.ushr0 seed =? 0) eqn:E; [lia|]. apply Z.eqb_neq in E. lia.
  - reflexivity.
  - reflexivity.
  - intros g s'. unfold XORShift32.next. cbn [fst snd XORShift32.state].
    rewrite next_state_refines. fold s'.
    assert (R : 0 <= s' < 2 ^ 32).
    { unfold s'. rewrite <- next_state_refines. apply next_state_range. }
    split; [reflexivity|]. split; [exact R|]. split; [reflexivity|].
    split.
    + rewrite to_unit_exact by exact R. rewrite <- Z.mul_assoc.
      apply (f_equal (Z.mul s')). rewrite <- Z.pow_add_r by lia. reflexivity.
    + apply to_unit_range, R.
  - induction k as [|k IH]; intros g.
    + destruct g. reflexivity.
    + cbn [nth_call]. rewrite IH, Nat.iter_succ_r.
      replace (XORShift32.state (snd (XORShift32.next g)))
        with (xorshift32_step (XORShift32.state g))
        by (symmetry; apply next_state_refines).
      reflexivity.
Qed.

End Generator.

Section Collisions.
Import Stream Seeds.

Lemma parseInt16_unreadable (c : ascii) (rest : string) :
  is_hex_digit c = false -> JS.is_white_space c = false -> is_sign c = false ->
  JS.parseInt16 (String c rest) = JS.NaN.
Proof.
  intros Hh Hw Hs.
  destruct c as [b0 b1 b2 b3 b4 b5 b6 b7].
  destruct b0, b1, b2, b3, b4, b5, b6, b7;
    first [discriminate Hh | discriminate Hw | discriminate Hs | reflexivity].
Qed.

Lemma extractPRNGSeed_unreadable (combinedSeed : string) :
  starts_unreadable combinedSeed = true ->
  ProvablyFairProtocol.extractPRNGSeed combinedSeed = JS.NaN.
Proof.
  destruct combinedSeed as [|c rest]; [discriminate|].
  unfold starts_unreadable. intros H.
  apply andb_prop in H. destruct H as (H & Hs).
  apply andb_prop in H. destruct H as (Hh & Hw).
  apply negb_true_iff in Hh, Hw, Hs.
  unfold ProvablyFairProtocol.extractPRNGSeed.
  change (substring 0 8 (String c rest)) with (String c (substring 0 7 rest)).
  now apply parseInt16_unreadable.
Qed.

(** C10, as the code has it.  [parseInt] skips leading white space and reads
    a sign, so a first character that is not a hexadecimal digit does not
    by itself make the seed unreadable.  For every combined seed whose first
    character is neither a hexadecimal digit, nor white space, nor a sign,
    [extractPRNGSeed] returns NaN, the constructor turns that into state 1,
    and the round source is the one seeded with 1: any two such seeds give
    the same stream of draws, and no error. *)
Theorem unreadable_seeds_collide (seed1 seed2 : string) :
  starts_unreadable seed1 = true -> starts_unreadable seed2 = true ->
  ProvablyFairProtocol.extractPRNGSeed seed1 = JS.NaN /\
  XORShift32.state (RoundRNG.prng (RoundRNG.new seed1)) = 1 /\
  RoundRNG.new seed1 = RoundRNG.new seed2 /\
  RoundRNG.new seed1 =
    {| RoundRNG.prng := XORShift32.new (JS.Int 1); RoundRNG.callCount := 0 |} /\
  forall n : nat, draws n (RoundRNG.new seed1) = draws n (RoundRNG.new seed2).
Proof.
  intros H1 H2.
  apply extractPRNGSeed_unreadable in H1, H2.
  unfold RoundRNG.new. rewrite H1, H2.
  repeat split.
Qed.

Lemma unreadable_seeds_collide_witness :
  ProvablyFairProtocol.extractPRNGSeed "test_seed_columns" = JS.NaN /\
  XORShift32.state (RoundRNG.prng (RoundRNG.new "test_seed_columns")) = 1 /\
  RoundRNG.new "test_seed_columns" = RoundRNG.new "zzz" /\
  RoundRNG.new "test_seed_columns" =
    {| RoundRNG.prng := XORShift32.new (JS.Int 1); RoundRNG.callCount := 0 |} /\
  forall n : nat,
    draws n (RoundRNG.new "test_seed_columns") = draws n (RoundRNG.new "zzz").
Proof.
  apply (unreadable_seeds_collide "test_seed_columns" "zzz"); reflexivity.
Defined.

(** C10, counterexample.  The first character of "-1" is not a hexadecimal
    digit, and neither is that of " 2" (a space); [extractPRNGSeed] reads
    them as -1 and 2, not NaN, and the generators start in the states
    4294967295 and 2, not 1. *)
Lemma signed_seed_is_read :
  is_hex_digit "-" = false /\
  ProvablyFairProtocol.extractPRNGSeed "-1" = JS.Int (-1) /\
  XORShift32.state (RoundRNG.prng (RoundRNG.new "-1")) = 4294967295 /\
  is_hex_digit " " = false /\
  ProvablyFairProtocol.extractPRNGSeed " 2" = JS.Int 2 /\
  XORShift32.state (RoundRNG.prng (RoundRNG.new " 2")) = 2 /\
  (fst (RoundRNG.next (RoundRNG.new "-1")) =?
   fst (RoundRNG.next (RoundRNG.new "zzz")))%float = false.
Proof. repeat split. Qed.

End Collisions.

(** ** The payout table *)
Section Paytable.
Import PlinkoEngine Decimal Binary64.

Lemma multLoop_length (center : Z) (n : nat) (i : Z) (acc : list float) :
  List.length (multLoop center n i acc) = (List.length acc + n)%nat.
Proof.
  revert i acc; induction n as [|n IH]; intros i acc; cbn [multLoop]; [lia|].
  rewrite IH, length_app. cbn [List.length]. lia.
Qed.

Lemma multLoop_prefix (center : Z) (n k : nat) (i : Z) (acc : list float) :
  (k < List.length acc)%nat ->
  nth k (multLoop center n i acc) nan = nth k acc nan.
Proof.
  revert i acc; induction n as [|n IH]; intros i acc Hk; cbn [multLoop]; [reflexivity|].
  rewrite IH by (rewrite length_app; cbn [List.length]; lia).
  now apply app_nth1.
Qed.

Lemma multLoop_nth (center : Z) (n k : nat) (i : Z) (acc : list float) :
  (k < n)%nat ->
  nth (List.length acc + k) (multLoop center n i acc) nan =
  multiplier_of center (i + Z.of_nat k).
Proof.
  revert k i acc; induction n as [|n IH]; intros k i acc Hk; [lia|].
  cbn [multLoop]. destruct k as [|k].
  - rewrite multLoop_prefix by (rewrite length_app; cbn [List.length]; lia).
    rewrite Nat.add_0_r, app_nth2, Nat.sub_diag by lia.
    cbn [nth]. f_equal. lia.
  - replace (List.length acc + S k)%nat
      with (List.length (acc ++ [multiplier_of center i]) + k)%nat
      by (rewrite length_app; cbn [List.length]; lia).
    rewrite IH by lia. f_equal. lia.
Qed.

(** Entry [i] of the table for [bins] bins, whatever [bins] is. *)
Lemma getPayoutMultipliers_nth (bins i : Z) :
  0 <= i < bins ->
  nth (Z.to_nat i) (getPayoutMultipliers bins) nan = multiplier_of (bins / 2) i.
Proof.
  intros Hi. unfold getPayoutMultipliers.
  change (Z.to_nat i) with (List.length (@nil float) + Z.to_nat i)%nat.
  rewrite multLoop_nth by lia. f_equal. lia.
Qed.

Lemma getPayoutMultipliers_length (bins : Z) :
  List.length (getPayoutMultipliers bins) = Z.to_nat bins.
Proof. unfold getPayoutMultipliers. now rewrite multLoop_length. Qed.

Lemma multiplier_of_distance (center i : Z) :
  multiplier_of center i = multiplier_of 0 (Z.abs (i - center)).
Proof.
  unfold multiplier_of. cbv zeta.
  now replace (Z.abs (Z.abs (i - center) - 0)) with (Z.abs (i - center)) by lia.
Qed.

Lemma multiplier_of_formula (center i : Z) :
  multiplier_of center i = round_2dp (0.5 + JS.Z2F (Z.abs (i - center)) * 0.3).
Proof. reflexivity. Qed.

(** Away from the centre the multiplier is above that of the centre. *)
Lemma multiplier_of_centre_lt (center i : Z) :
  i <> center ->
  (multiplier_of center center <? multiplier_of center i)%float = true.
Proof.
  intros Hi.
  rewrite (multiplier_of_distance center center), Z.sub_diag.
  rewrite (multiplier_of_distance center i).
  apply (ltb_leb_trans _ (multiplier_of 0 1)); [reflexivity|].
  apply multiplier_mono. lia.
Qed.

(** The 13 multipliers the engine pays with are positive finite numbers. *)
Lemma paytable_finite (k : nat) :
  (k <= 12)%nat ->
  exists (mc : positive) (ec : Z),
    Prim2SF (nth k (getPayoutMultipliers BINS) nan) = S754_finite false mc ec.
Proof.
  intros Hk.
  do 13 (destruct k as [|k]; [do 2 eexists; vm_compute; reflexivity|]).
  lia.
Qed.

End Paytable.

Section Payout.
Import PlinkoEngine Stream Decimal Binary64.

(** C5, as the code has it.  For every bin count B the table has B
    entries and entry i is round_2dp(0.5 + |i - floor(B/2)| * 0.3).  That
    formula is symmetric about floor(B/2), which is the middle of [0, B-1]
    only when B is odd.  So for odd B entry i equals entry B-1-i; for every
    even B >= 2 the table is not symmetric, entry B/2 - 1 being 0.8 and the
    entry that mirrors it, B/2, being 0.5.  For every B >= 3 the two edge
    entries are strictly above the centre entry; for B = 2 the edge bin 1 is
    the centre itself.  The tables for 4 and 2 bins are [1.1, 0.8, 0.5, 0.8]
    and [0.8, 0.5]. *)
Theorem getPayoutMultipliers_symmetric_only_if_odd (bins : Z) :
  List.length (getPayoutMultipliers bins) = Z.to_nat bins /\
  (forall i : Z, 0 <= i < bins ->
     nth (Z.to_nat i) (getPayoutMultipliers bins) nan =
       round_2dp (0.5 + JS.Z2F (Z.abs (i - bins / 2)) * 0.3)) /\
  (Z.odd bins = true ->
   forall i : Z, 0 <= i < bins ->
     nth (Z.to_nat i) (getPayoutMultipliers bins) nan =
       nth (Z.to_nat (bins - 1 - i)) (getPayoutMultipliers bins) nan) /\
  (Z.even bins = true -> 2 <= bins ->
     0 <= bins / 2 - 1 < bins /\
     nth (Z.to_nat (bins / 2 - 1)) (getPayoutMultipliers bins) nan = 0.8%float /\
     nth (Z.to_nat (bins - 1 - (bins / 2 - 1))) (getPayoutMultipliers bins) nan = 0.5%float /\
     (nth (Z.to_nat (bins / 2 - 1)) (getPayoutMultipliers bins) nan =?
      nth (Z.to_nat (bins - 1 - (bins / 2 - 1))) (getPayoutMultipliers bins) nan)%float
       = false) /\
  (3 <= bins ->
     (nth (Z.to_nat (bins / 2)) (getPayoutMultipliers bins) nan <?
      nth (Z.to_nat 0) (getPayoutMultipliers bins) nan)%float = true /\
     (nth (Z.to_nat (bins / 2)) (getPayoutMultipliers bins) nan <?
      nth (Z.to_nat (bins - 1)) (getPayoutMultipliers bins) nan)%float = true) /\
  getPayoutMultipliers 4 = [1.1; 0.8; 0.5; 0.8]%float /\
  getPayoutMultipliers 2 = [0.8; 0.5]%float /\
  (nth (Z.to_nat (2 / 2)) (getPayoutMultipliers 2) nan <?
   nth (Z.to_nat (2 - 1)) (getPayoutMultipliers 2) nan)%float = false.
Proof.
  split; [apply getPayoutMultipliers_length|].
  split; [intros i Hi; now rewrite getPayoutMultipliers_nth by lia|].
  split.
  { intros Hodd i Hi. apply Z.odd_spec in Hodd. destruct Hodd as (c & ->).
    assert (Hhalf : (2 * c + 1) / 2 = c)
      by (symmetry; apply (Z.div_unique _ 2 c 1); lia).
    rewrite !getPayoutMultipliers_nth by lia.
    rewrite Hhalf, (multiplier_of_distance c i),
      (multiplier_of_distance c (2 * c + 1 - 1 - i)).
    f_equal. lia. }
  split.
  { intros Heven Hb. apply Z.even_spec in Heven. destruct Heven as (c & ->).
    assert (Hhalf : 2 * c / 2 = c)
      by (symmetry; apply (Z.div_unique _ 2 c 0); lia).
    rewrite Hhalf. split; [lia|].
    replace (2 * c - 1 - (c - 1)) with c by lia.
    rewrite !getPayoutMultipliers_nth by lia. rewrite Hhalf.
    rewrite (multiplier_of_distance c (c - 1)), (multiplier_of_distance c c).
    replace (Z.abs (c - 1 - c)) with 1 by lia. rewrite Z.sub_diag.
    repeat split. }
  split.
  { intros Hb.
    pose proof (Z.mul_div_le bins 2 ltac:(lia)) as Lo.
    pose proof (Z.mul_succ_div_gt bins 2 ltac:(lia)) as Hi.
    set (center := bins / 2) in *.
    rewrite !getPayoutMultipliers_nth by lia. fold center.
    split; apply multiplier_of_centre_lt; lia. }
  repeat split.
Qed.

(** C4, as the code has it.  For every secret, client seed, nonce, drop
    column, row count of at least 12 and stake s, the rounds played with
    stakes s and 2*s have the same peg map, path, bin index and payout
    multiplier.  The payout is Math.round(stake * multiplier) in binary64:
    the integer nearest to the product, a tie going up.  Because of that
    rounding the payout for 2*s is not always twice the payout for s; for a
    stake of at least 0 it is never below it. *)
Theorem payout_of_doubled_stake
    (serverSeed clientSeed nonce : string) (dropColumn : float) (rows betCents : Z) :
  12 <= rows ->
  exists g1 g2 : GameResult,
    playRound serverSeed clientSeed nonce dropColumn rows betCents = Returns g1 /\
    playRound serverSeed clientSeed nonce dropColumn rows (2 * betCents) = Returns g2 /\
    pegMap g2 = pegMap g1 /\ path g2 = path g1 /\
    binIndex g2 = binIndex g1 /\
    payoutMultiplier g2 = payoutMultiplier g1 /\
    payoutCents g1 = JS.Math_round (JS.Z2F betCents * payoutMultiplier g1) /\
    payoutCents g2 = JS.Math_round (JS.Z2F (2 * betCents) * payoutMultiplier g1) /\
    is_num (payoutCents g1) = true /\
    val (payoutCents g1) = RHU (val (JS.Z2F betCents * payoutMultiplier g1)) /\
    val (payoutCents g2) = RHU (val (JS.Z2F (2 * betCents) * payoutMultiplier g1)) /\
    (0 <= betCents -> (payoutCents g1 <=? payoutCents g2)%float = true).
Proof.
  intros Hrows.
  destruct (playRound_returns serverSeed clientSeed nonce dropColumn rows betCents Hrows)
    as (step & Hlast & Hplay1).
  destruct (playRound_returns serverSeed clientSeed nonce dropColumn rows (2 * betCents) Hrows)
    as (step' & Hlast' & Hplay2).
  rewrite Hlast in Hlast'. injection Hlast' as <-.
  do 2 eexists. split; [exact Hplay1|]. split; [exact Hplay2|].
  cbn [pegMap path binIndex payoutMultiplier payoutCents].
  do 6 (split; [reflexivity|]).
  apply last_nth_error in Hlast. rewrite walk_length in Hlast.
  apply walk_step in Hlast. destruct Hlast as (_ & Hcol & _).
  destruct (paytable_finite (column step)) as (mc & ec & Hm); [lia|].
  set (m := nth (column step) (getPayoutMultipliers BINS) nan) in *.
  destruct (Z2F_val betCents) as (N1 & _).
  destruct (Z2F_val (2 * betCents)) as (N2 & _).
  destruct (mul_r_val m mc ec Hm _ N1) as (M1 & _).
  destruct (mul_r_val m mc ec Hm _ N2) as (M2 & _).
  destruct (Math_round_val _ M1) as (R1 & V1).
  destruct (Math_round_val _ M2) as (_ & V2).
  split; [exact R1|]. split; [exact V1|]. split; [exact V2|].
  intros Hb. apply Math_round_mono.
  apply (mul_r_mono m mc ec Hm). apply Z2F_mono. lia.
Qed.

Lemma payout_of_doubled_stake_witness :
  exists g1 g2 : GameResult,
    playRound Vector.serverSeed Vector.clientSeed Vector.nonce 6 12 100 = Returns g1 /\
    playRound Vector.serverSeed Vector.clientSeed Vector.nonce 6 12 (2 * 100) = Returns g2 /\
    pegMap g2 = pegMap g1 /\ path g2 = path g1 /\
    binIndex g2 = binIndex g1 /\
    payoutMultiplier g2 = payoutMultiplier g1 /\
    payoutCents g1 = JS.Math_round (JS.Z2F 100 * payoutMultiplier g1) /\
    payoutCents g2 = JS.Math_round (JS.Z2F (2 * 100) * payoutMultiplier g1) /\
    is_num (payoutCents g1) = true /\
    val (payoutCents g1) = RHU (val (JS.Z2F 100 * payoutMultiplier g1)) /\
    val (payoutCents g2) = RHU (val (JS.Z2F (2 * 100) * payoutMultiplier g1)) /\
    (0 <= 100 -> (payoutCents g1 <=? payoutCents g2)%float = true).
Proof.
  apply (payout_of_doubled_stake Vector.serverSeed Vector.clientSeed Vector.nonce 6 12 100).
  lia.
Defined.

(** C4, counterexample.  On the end-to-end vector the ball lands in bin 6,
    whose multiplier is 0.5.  The stake 1 pays Math.round(0.5) = 1 and the
    stake 2 pays Math.round(1) = 1, which is not twice 1. *)
Lemma doubled_stake_same_payout :
  exists g1 g2 : GameResult,
    playRound Vector.serverSeed Vector.clientSeed Vector.nonce 6 12 1 = Returns g1 /\
    playRound Vector.serverSeed Vector.clientSeed Vector.nonce 6 12 (2 * 1) = Returns g2 /\
    binIndex g1 = 6%nat /\ payoutMultiplier g1 = 0.5%float /\
    payoutCents g1 = 1%float /\ payoutCents g2 = 1%float /\
    (payoutCents g2 =? 2 * payoutCents g1)%float = false.
Proof.
  do 2 eexists. split; [vm_compute; reflexivity|]. split; [vm_compute; reflexivity|].
  repeat split.
Qed.

End Payout.

(** ** Peg biases and adjusted biases *)
Section Biases.
Import PlinkoEngine Stream Decimal Binary64.

Lemma next_range (r : RoundRNG.t) :
  (0 <=? fst (RoundRNG.next r))%float = true /\
  (fst (RoundRNG.next r) <? 1)%float = true.
Proof.
  unfold RoundRNG.next, XORShift32.next. cbn [fst].
  apply to_unit_range, next_state_range.
Qed.

Lemma draw_at_range (k : nat) (r : RoundRNG.t) :
  (0 <=? draw_at k r)%float = true /\ (draw_at k r <=? 1)%float = true.
Proof.
  unfold draw_at. destruct (next_range (advance k r)) as (L & U).
  split; [exact L|]. apply ltb_leb, U.
Qed.

Lemma draw_at_advance (a k : nat) (r : RoundRNG.t) :
  draw_at k (advance a r) = draw_at (a + k) r.
Proof. unfold draw_at. now rewrite advance_add. Qed.

Lemma consumed_0 (k : nat) : consumed k 0 = triangular k.
Proof.
  pose proof (consumed_triangular k 0) as H. cbn [triangular] in H.
  rewrite !Nat.add_0_r in H. exact H.
Qed.

(** Peg [i] of row [k] of the map drawn from [r]. *)
Lemma triangle_entry (n k i : nat) (r : RoundRNG.t) :
  (k < n)%nat -> (i <= k)%nat ->
  exists pegRow,
    nth_error (triangle n 0 r) k = Some pegRow /\
    List.length pegRow = S k /\
    nth_error pegRow i = Some (roundedBias_of (draw_at (triangular k + i) r)).
Proof.
  intros Hk Hi. eexists. split; [apply triangle_nth, Hk|].
  cbn [Nat.add]. rewrite consumed_0. split.
  - now rewrite length_map, draws_length.
  - rewrite nth_error_map, draws_nth by lia. cbn [option_map].
    now rewrite draw_at_advance.
Qed.

Lemma roundedBias_draw_range (k : nat) (r : RoundRNG.t) :
  (0.4 <=? roundedBias_of (draw_at k r))%float = true /\
  (roundedBias_of (draw_at k r) <=? 0.6)%float = true.
Proof. destruct (draw_at_range k r). now apply roundedBias_range. Qed.

Lemma roundedBias_of_formula (u : float) :
  roundedBias_of u = round_6dp (0.5 + (u - 0.5) * 0.2).
Proof. reflexivity. Qed.

Lemma ltb_nan_r (x : float) : (x <? nan)%float = false.
Proof.
  rewrite FloatAxioms.ltb_spec. change (Prim2SF nan) with S754_nan.
  destruct (Prim2SF x) as [s|s| |s m e]; try destruct s; reflexivity.
Qed.

(** C6, as the code has it.  For every row count and every round source,
    [generatePegMap] returns as many rows as asked (none for a negative row
    count); row r holds r+1 values; peg i of row r is
    0.5 + (u - 0.5) * 0.2 rounded to 6 decimals, where u is draw number
    r(r+1)/2 + i of the source, that is, the draws are taken row by row and
    left to right; every stored bias lies in [0.4, 0.6]; for a row count of
    at least 0 the source is left advanced by rows(rows+1)/2 draws exactly,
    and for a negative one it is left as it was.  On a map of at least 12
    rows [simulateDrop] returns 12 steps for every drop column, each decided
    by comparing its draw with its adjusted bias.  If the drop column is a
    number, every adjusted bias lies in [0, 1]; if it is NaN, every adjusted
    bias is NaN and every step goes right. *)
Theorem generatePegMap_triangular (rows : Z) (rng : RoundRNG.t) :
  exists (pegMap : PegMap) (rng' : RoundRNG.t),
    generatePegMap rows rng = Returns (pegMap, rng') /\
    List.length pegMap = Z.to_nat rows /\
    (forall r i : nat, (r < Z.to_nat rows)%nat -> (i <= r)%nat ->
       exists (pegRow : list float) (v : float),
         nth_error pegMap r = Some pegRow /\ List.length pegRow = S r /\
         nth_error pegRow i = Some v /\
         v = round_6dp (0.5 + (draw_at (triangular r + i) rng - 0.5) * 0.2) /\
         Z.of_nat (triangular r + i) = Z.of_nat r * (Z.of_nat r + 1) / 2 + Z.of_nat i /\
         (0.4 <=? v)%float = true /\ (v <=? 0.6)%float = true) /\
    rng' = advance (triangular (Z.to_nat rows)) rng /\
    (0 <= rows ->
     RoundRNG.getCallCount rng' = RoundRNG.getCallCount rng + rows * (rows + 1) / 2) /\
    (rows < 0 -> pegMap = [] /\ rng' = rng) /\
    (12 <= rows ->
     forall (dropColumn : float) (rng2 : RoundRNG.t),
       exists (path : list GamePath) (rng3 : RoundRNG.t),
         simulateDrop pegMap dropColumn rng2 = Returns (path, rng3) /\
         List.length path = 12%nat /\
         forall step : GamePath, In step path ->
           direction step =
             (if (randomValue step <? adjustedBias step)%float then Left else Right) /\
           (is_nan dropColumn = false ->
            (0 <=? adjustedBias step)%float = true /\
            (adjustedBias step <=? 1)%float = true) /\
           (is_nan dropColumn = true ->
            adjustedBias step = nan /\ direction step = Right)).
Proof.
  exists (triangle (Z.to_nat rows) 0 rng), (advance (triangular (Z.to_nat rows)) rng).
  split; [apply generatePegMap_spec|].
  split; [apply triangle_length|].
  split.
  { intros r i Hr Hi.
    destruct (triangle_entry (Z.to_nat rows) r i rng Hr Hi) as (pegRow & Hrow & Hlen & Hv).
    exists pegRow, (roundedBias_of (draw_at (triangular r + i) rng)).
    split; [exact Hrow|]. split; [exact Hlen|]. split; [exact Hv|].
    split; [apply roundedBias_of_formula|].
    split; [rewrite Nat2Z.inj_add, triangular_closed; reflexivity|].
    apply roundedBias_draw_range. }
  split; [reflexivity|].
  split.
  { intros Hrows. unfold RoundRNG.getCallCount.
    rewrite callCount_advance, triangular_closed, Z2Nat.id by exact Hrows.
    reflexivity. }
  split.
  { intros Hrows. replace (Z.to_nat rows) with 0%nat by lia. split; reflexivity. }
  intros Hrows dropColumn rng2.
  unfold simulateDrop. change (Z.to_nat ROWS) with 12%nat.
  rewrite dropLoop_returns by (rewrite triangle_length; lia).
  do 2 eexists. split; [reflexivity|].
  cbn [app]. split; [apply walk_length|]. intros step Hin.
  apply In_nth_error in Hin. destruct Hin as (k & Hk).
  assert (Hk12 : (k < 12)%nat).
  { rewrite <- (walk_length (triangle (Z.to_nat rows) 0 rng) (adj_of dropColumn) 12 0 0 rng2).
    apply nth_error_Some. congruence. }
  apply walk_step in Hk.
  destruct Hk as (_ & _ & _ & Hadj & Hdir & p & Hp & Hbias).
  split; [exact Hdir|]. split.
  - intros Nd. apply is_num_of_not_nan in Nd.
    rewrite Hadj, Hbias. cbn [Nat.add] in *.
    destruct (triangle_entry (Z.to_nat rows) k p rng) as (pegRow & Hrow & _ & Hv);
      [lia|lia|].
    rewrite (nth_error_nth _ _ [] Hrow), (nth_error_nth _ _ nan Hv).
    destruct (roundedBias_draw_range (triangular k + p) rng).
    now apply adjustedBias_range.
  - intros Nd. pose proof (adjustedBias_nan (pegBias step) dropColumn Nd) as E.
    rewrite <- Hadj in E. split; [exact E|].
    rewrite Hdir, E, ltb_nan_r. reflexivity.
Qed.

(** C6, counterexample.  With a row count of -2 the map is empty and no
    draw is taken, where rows(rows+1)/2 is 1.  And on the 12-row map of the
    end-to-end vector, with the drop column NaN, [simulateDrop] returns 12
    steps whose adjusted bias is NaN, neither at least 0 nor at most 1, and
    every step goes right. *)
Lemma negative_rows_and_nan_column :
  (exists rng' : RoundRNG.t,
     generatePegMap (-2) (RoundRNG.new Vector.combinedSeed) = Returns ([], rng') /\
     RoundRNG.getCallCount rng' = 0 /\ (-2) * (-2 + 1) / 2 = 1) /\
  (exists (pegMap : PegMap) (rng' : RoundRNG.t) (path : list GamePath) (rng3 : RoundRNG.t),
     generatePegMap 12 (RoundRNG.new Vector.combinedSeed) = Returns (pegMap, rng') /\
     simulateDrop pegMap nan rng' = Returns (path, rng3) /\
     List.length path = 12%nat /\
     Forall (fun step =>
               (0 <=? adjustedBias step)%float = false /\
               (adjustedBias step <=? 1)%float = false /\
               direction step = Right) path).
Proof.
  split.
  - eexists. split; [vm_compute; reflexivity|]. split; reflexivity.
  - do 4 eexists. split; [vm_compute; reflexivity|].
    split; [vm_compute; reflexivity|]. split; [reflexivity|].
    repeat constructor.
Qed.

End Biases.

(** * Beyond the specification: the rest of the code *)

(** ** Strings *)
Section Strings.

Lemma length_append (a b : string) :
  String.length (a ++ b) = (String.length a + String.length b)%nat.
Proof. induction a as [|c a IH]; cbn; [reflexivity|now rewrite IH]. Qed.

Lemma list_ascii_append (a b : string) :
  list_ascii_of_string (a ++ b) = (list_ascii_of_string a ++ list_ascii_of_string b)%list.
Proof. induction a as [|c a IH]; cbn; [reflexivity|now rewrite IH]. Qed.

Lemma length_list_ascii (a : string) :
  List.length (list_ascii_of_string a) = String.length a.
Proof. induction a as [|c a IH]; cbn; [reflexivity|now rewrite IH]. Qed.

Lemma substring_0_append (a b : string) :
  String.substring 0 (String.length a) (a ++ b) = a.
Proof.
  induction a as [|c a IH]; cbn.
  - now destruct b.
  - now rewrite IH.
Qed.

Lemma substring_0_length (n : nat) (a : string) :
  String.length (String.substring 0 n a) = Nat.min n (String.length a).
Proof.
  revert a; induction n as [|n IH]; intros a.
  - now destruct a.
  - destruct a as [|c a]; cbn; [reflexivity|now rewrite IH].
Qed.

Lemma substring_0_all (n : nat) (a : string) :
  (String.length a <= n)%nat -> String.substring 0 n a = a.
Proof.
  revert a; induction n as [|n IH]; intros a Ha.
  - destruct a; [reflexivity|cbn in Ha; lia].
  - destruct a as [|c a]; cbn; [reflexivity|]. rewrite IH; [reflexivity|cbn in Ha; lia].
Qed.

End Strings.

(** ** The shape of a digest *)
Section Digest.
Import Measure.

Lemma w32_word (x : Z) : word32 (SHA256.w32 x) = true.
Proof.
  unfold word32, SHA256.w32. change 0xFFFFFFFF with (Z.ones 32).
  rewrite Z.land_ones by lia.
  pose proof (Z.mod_pos_bound x (2 ^ 32)) as H.
  apply andb_true_intro. split; [apply Z.leb_le|apply Z.ltb_lt]; lia.
Qed.

Lemma round_length (st : list Z) (kw : Z * Z) :
  List.length (SHA256.round st kw) = List.length st.
Proof.
  unfold SHA256.round.
  do 9 (destruct st as [|? st]; [reflexivity|]). reflexivity.
Qed.

Lemma rounds_length (l : list (Z * Z)) (st : list Z) :
  List.length (fold_left SHA256.round l st) = List.length st.
Proof.
  revert st; induction l as [|kw l IH]; intros st; cbn [fold_left]; [reflexivity|].
  now rewrite IH, round_length.
Qed.

Lemma compress_shape (h block : list Z) :
  List.length (SHA256.compress h block) = List.length h /\
  forallb word32 (SHA256.compress h block) = true.
Proof.
  unfold SHA256.compress. split.
  - rewrite length_map, length_combine, rounds_length. apply Nat.min_id.
  - apply forallb_forall. intros x Hx. apply in_map_iff in Hx.
    destruct Hx as (p & <- & _). apply w32_word.
Qed.

Lemma digest_shape (msg : list Z) :
  List.length (SHA256.digest msg) = 8%nat /\
  forallb word32 (SHA256.digest msg) = true.
Proof.
  unfold SHA256.digest.
  generalize (SHA256.chunks 16 (List.length (SHA256.words_of_bytes (SHA256.pad msg)))
                (SHA256.words_of_bytes (SHA256.pad msg))).
  assert (H : List.length SHA256.H0 = 8%nat /\ forallb word32 SHA256.H0 = true)
    by (split; reflexivity).
  revert H. generalize SHA256.H0.
  intros h H l. revert h H. induction l as [|b l IH]; intros h H; cbn [fold_left].
  - exact H.
  - apply IH. destruct (compress_shape h b) as (L & W). split; [|exact W].
    rewrite L. apply H.
Qed.

(** The sixteen digits. *)
Lemma hex_digit_cases (x : Z) :
  0 <= x < 16 ->
  JS.hex_value (SHA256.hex_digit x) = Some x /\
  lower_hex (SHA256.hex_digit x) = true /\
  Utils.in_class (SHA256.hex_digit x) = true /\
  JS.is_white_space (SHA256.hex_digit x) = false /\
  Ascii.eqb (SHA256.hex_digit x) "-" = false /\
  Ascii.eqb (SHA256.hex_digit x) "+" = false /\
  Ascii.eqb (SHA256.hex_digit x) "x" = false /\
  Ascii.eqb (SHA256.hex_digit x) "X" = false.
Proof.
  intros Hx.
  assert (E : x = Z.of_nat (Z.to_nat x)) by lia.
  assert (Hn : (Z.to_nat x < 16)%nat) by lia.
  rewrite E. revert Hn. generalize (Z.to_nat x). clear. intros n Hn.
  do 16 (destruct n as [|n]; [repeat split|]). lia.
Qed.

Lemma nibble_range (w i : Z) : 0 <= Z.land (Z.shiftr w (4 * i)) 0xF < 16.
Proof.
  change 0xF with (Z.ones 4). rewrite Z.land_ones by lia.
  apply Z.mod_pos_bound. lia.
Qed.

Lemma hex_word_chars (w : Z) :
  list_ascii_of_string (SHA256.hex_word w) =
  map (fun i => SHA256.hex_digit (Z.land (Z.shiftr w (4 * Z.of_nat i)) 0xF))
      [7; 6; 5; 4; 3; 2; 1; 0]%nat.
Proof. unfold SHA256.hex_word. now rewrite list_ascii_of_string_of_list_ascii. Qed.

Lemma hex_word_shape (w : Z) :
  String.length (SHA256.hex_word w) = 8%nat /\
  forallb lower_hex (list_ascii_of_string (SHA256.hex_word w)) = true.
Proof.
  split.
  - now rewrite <- length_list_ascii, hex_word_chars.
  - rewrite hex_word_chars. apply forallb_forall. intros c Hc.
    apply in_map_iff in Hc. destruct Hc as (i & <- & _).
    apply (hex_digit_cases _ (nibble_range w (Z.of_nat i))).
Qed.

Lemma hex_words_shape (ws : list Z) :
  let h := fold_right (fun w acc => (SHA256.hex_word w ++ acc)%string) EmptyString ws in
  String.length h = (8 * List.length ws)%nat /\
  forallb lower_hex (list_ascii_of_string h) = true.
Proof.
  induction ws as [|w ws (IHl & IHc)]; cbn [fold_right List.length]; [split; reflexivity|].
  destruct (hex_word_shape w) as (L & C). split.
  - rewrite length_append, L, IHl. lia.
  - rewrite list_ascii_append, forallb_app, C, IHc. reflexivity.
Qed.

Lemma lower_hex_in_class (c : ascii) : lower_hex c = true -> Utils.in_class c = true.
Proof.
  unfold lower_hex, Utils.in_class. generalize (nat_of_ascii c). intros n H.
  apply orb_true_iff in H. apply orb_true_iff.
  destruct H as [H|H]; [right; exact H|left].
  apply orb_true_iff. left. exact H.
Qed.

(** Every hexadecimal digest has 64 characters, digits and letters a-f. *)
Lemma hex_shape (s : string) : hex64 (SHA256.hex s) = true.
Proof.
  unfold hex64, SHA256.hex.
  destruct (hex_words_shape (SHA256.digest (SHA256.utf8 s))) as (L & C).
  destruct (digest_shape (SHA256.utf8 s)) as (L8 & _).
  rewrite L, L8, C. reflexivity.
Qed.

Lemma hex64_valid (h : string) : hex64 h = true -> Utils.isValidHex h = true.
Proof.
  unfold hex64. intros H. apply andb_prop in H. destruct H as (L & C).
  apply Nat.eqb_eq in L.
  destruct h as [|c h]; [discriminate|]. unfold Utils.isValidHex.
  apply forallb_forall. intros x Hx.
  apply lower_hex_in_class. revert x Hx. now apply forallb_forall.
Qed.

End Digest.

(** ** Reading a seed back from hexadecimal *)
Section Reading.
Import Measure.

Lemma in_class_facts (c : ascii) :
  Utils.in_class c = true ->
  (exists d, JS.hex_value c = Some d /\ 0 <= d < 16) /\
  JS.is_white_space c = false /\
  Ascii.eqb c "x" = false /\ Ascii.eqb c "X" = false.
Proof.
  destruct c as [b0 b1 b2 b3 b4 b5 b6 b7].
  destruct b0, b1, b2, b3, b4, b5, b6, b7; intros H; try discriminate H;
    (split; [eexists; split; [vm_compute; reflexivity|lia]|repeat split]).
Qed.

(** A text that starts with a character of the class, and goes on with one
    if it goes on, is read from its first character, unsigned and without
    prefix. *)
Lemma parseInt16_unsigned (c : ascii) (r : string) :
  Utils.in_class c = true ->
  match r with
  | String c' _ => Ascii.eqb c' "x" = false /\ Ascii.eqb c' "X" = false
  | EmptyString => True
  end ->
  JS.parseInt16 (String c r) =
  match JS.hex_digits (String c r) None with
  | Some v => JS.Int (1 * v)
  | None => JS.NaN
  end.
Proof.
  intros Hc Hr.
  destruct c as [b0 b1 b2 b3 b4 b5 b6 b7].
  destruct b0, b1, b2, b3, b4, b5, b6, b7; try discriminate Hc; try reflexivity.
  destruct r as [|c' r]; [reflexivity|]. destruct Hr as (Hx & HX).
  destruct c' as [b0 b1 b2 b3 b4 b5 b6 b7].
  destruct b0, b1, b2, b3, b4, b5, b6, b7;
    first [discriminate Hx | discriminate HX | reflexivity].
Qed.

Lemma hex_digits_bounds (s : string) (a : Z) :
  forallb Utils.in_class (list_ascii_of_string s) = true -> 0 <= a ->
  exists v, JS.hex_digits s (Some a) = Some v /\
            a * 16 ^ Z.of_nat (String.length s) <= v < (a + 1) * 16 ^ Z.of_nat (String.length s).
Proof.
  revert a; induction s as [|c s IH]; intros a Hs Ha.
  - exists a. cbn. split; [reflexivity|lia].
  - cbn [list_ascii_of_string forallb] in Hs. apply andb_prop in Hs.
    destruct Hs as (Hc & Hs).
    destruct (in_class_facts c Hc) as ((d & Hd & Rd) & _).
    cbn [JS.hex_digits]. rewrite Hd.
    destruct (IH (16 * a + d) Hs) as (v & Hv & Rv); [lia|].
    exists v. split; [exact Hv|].
    cbn [String.length]. rewrite Nat2Z.inj_succ, Z.pow_succ_r by lia.
    assert (P : 0 < 16 ^ Z.of_nat (String.length s)) by (apply Z.pow_pos_nonneg; lia).
    nia.
Qed.

Lemma forallb_substring (n : nat) (s : string) :
  forallb Utils.in_class (list_ascii_of_string s) = true ->
  forallb Utils.in_class (list_ascii_of_string (String.substring 0 n s)) = true.
Proof.
  revert s; induction n as [|n IH]; intros s Hs.
  - now destruct s.
  - destruct s as [|c s]; [reflexivity|].
    cbn [list_ascii_of_string forallb] in Hs. apply andb_prop in Hs.
    cbn [String.substring list_ascii_of_string forallb].
    rewrite (proj1 Hs). now apply IH.
Qed.

(** A seed of hexadecimal digits is read as the number its first eight
    digits write. *)
Lemma extractPRNGSeed_valid (seed : string) :
  Utils.isValidHex seed = true ->
  exists v, ProvablyFairProtocol.extractPRNGSeed seed = JS.Int v /\ 0 <= v < 2 ^ 32.
Proof.
  intros H. destruct seed as [|c s]; [discriminate|].
  unfold Utils.isValidHex in H.
  apply (forallb_substring 8) in H.
  unfold ProvablyFairProtocol.extractPRNGSeed.
  pose proof (substring_0_length 8 (String c s)) as L.
  change (String.substring 0 8 (String c s)) with (String c (String.substring 0 7 s)) in *.
  set (r := String.substring 0 7 s) in *.
  cbn [list_ascii_of_string forallb] in H. apply andb_prop in H. destruct H as (Hc & Hr).
  rewrite parseInt16_unsigned.
  - destruct (in_class_facts c Hc) as ((d & Hd & Rd) & _).
    cbn [JS.hex_digits]. rewrite Hd.
    destruct (hex_digits_bounds r (16 * 0 + d) Hr) as (v & Hv & Rv); [lia|].
    rewrite Hv. exists v. split; [f_equal; lia|].
    cbn [String.length] in L.
    assert (Lr : (String.length r <= 7)%nat) by lia.
    assert (P : 0 < 16 ^ Z.of_nat (String.length r)) by (apply Z.pow_pos_nonneg; lia).
    assert (Q : 16 ^ Z.of_nat (String.length r) <= 16 ^ 7)
      by (apply Z.pow_le_mono_r; lia).
    change (2 ^ 32) with (16 * 16 ^ 7). nia.
  - exact Hc.
  - destruct r as [|c' r']; [exact I|].
    cbn [list_ascii_of_string forallb] in Hr. apply andb_prop in Hr.
    destruct (in_class_facts c' (proj1 Hr)) as (_ & _ & Hx & HX). now split.
Qed.

(** The eight digits of a word write that word. *)
Lemma hex_digits_hex_word (w : Z) :
  0 <= w < 2 ^ 32 -> JS.hex_digits (SHA256.hex_word w) None = Some w.
Proof.
  intros Hw.
  rewrite <- (string_of_list_ascii_of_string (SHA256.hex_word w)), hex_word_chars.
  cbn [map string_of_list_ascii JS.hex_digits].
  repeat rewrite (proj1 (hex_digit_cases _ (nibble_range w _))).
  f_equal.
  change 0xF with (Z.ones 4). rewrite !Z.land_ones, !Z.shiftr_div_pow2 by lia.
  change (4 * Z.of_nat 7) with 28. change (4 * Z.of_nat 6) with 24.
  change (4 * Z.of_nat 5) with 20. change (4 * Z.of_nat 4) with 16.
  change (4 * Z.of_nat 3) with 12. change (4 * Z.of_nat 2) with 8.
  change (4 * Z.of_nat 1) with 4. change (4 * Z.of_nat 0) with 0.
  change (2 ^ 28) with 268435456. change (2 ^ 24) with 16777216.
  change (2 ^ 20) with 1048576. change (2 ^ 16) with 65536.
  change (2 ^ 12) with 4096. change (2 ^ 8) with 256. change (2 ^ 4) with 16.
  change (2 ^ 0) with 1. change (2 ^ 32) with 4294967296 in Hw.
  Z.to_euclidean_division_equations. lia.
Qed.

Lemma hex_word_in_class (w : Z) :
  forallb Utils.in_class (list_ascii_of_string (SHA256.hex_word w)) = true.
Proof.
  apply forallb_forall. intros c Hc. apply lower_hex_in_class.
  revert c Hc. apply forallb_forall. apply hex_word_shape.
Qed.

Lemma parseInt16_hex_word (w : Z) :
  0 <= w < 2 ^ 32 -> JS.parseInt16 (SHA256.hex_word w) = JS.Int w.
Proof.
  intros Hw. pose proof (hex_word_in_class w) as C.
  pose proof (hex_digits_hex_word w Hw) as D.
  destruct (SHA256.hex_word w) as [|c r] eqn:E; [discriminate D|].
  cbn [list_ascii_of_string forallb] in C. apply andb_prop in C. destruct C as (Hc & Hr).
  rewrite parseInt16_unsigned.
  - rewrite D. f_equal. lia.
  - exact Hc.
  - destruct r as [|c' r']; [exact I|].
    cbn [list_ascii_of_string forallb] in Hr. apply andb_prop in Hr.
    destruct (in_class_facts c' (proj1 Hr)) as (_ & _ & Hx & HX). now split.
Qed.

(** The seed read from a digest is the first word of the digest. *)
Lemma extractPRNGSeed_hex (s : string) :
  let w := nth 0 (SHA256.digest (SHA256.utf8 s)) 0 in
  0 <= w < 2 ^ 32 /\ ProvablyFairProtocol.extractPRNGSeed (SHA256.hex s) = JS.Int w.
Proof.
  destruct (digest_shape (SHA256.utf8 s)) as (L & W).
  unfold SHA256.hex.
  destruct (SHA256.digest (SHA256.utf8 s)) as [|w ws]; [discriminate L|].
  cbn [nth fold_right]. cbn [forallb] in W. apply andb_prop in W.
  destruct W as (Hw & _). unfold word32 in Hw. apply andb_prop in Hw.
  destruct Hw as (H0 & H1). apply Z.leb_le in H0. apply Z.ltb_lt in H1.
  split; [lia|].
  unfold ProvablyFairProtocol.extractPRNGSeed.
  replace 8%nat with (String.length (SHA256.hex_word w)) by apply hex_word_shape.
  rewrite substring_0_append. apply parseInt16_hex_word. lia.
Qed.

End Reading.

Section DigestSeeds.
Import Measure.

(** X1. Every digest the protocol produces is a string of exactly 64
    characters, each a digit or a lower-case letter a-f, and so passes
    [isValidHex]: the commit hash, the combined seed, the peg map hash and
    the server seed, whatever their inputs. *)
Theorem digests_are_hex64 :
  (forall serverSeed nonce : string,
     hex64 (ProvablyFairProtocol.createCommitHash serverSeed nonce) = true /\
     Utils.isValidHex (ProvablyFairProtocol.createCommitHash serverSeed nonce) = true) /\
  (forall serverSeed clientSeed nonce : string,
     hex64 (ProvablyFairProtocol.generateCombinedSeed serverSeed clientSeed nonce) = true /\
     Utils.isValidHex
       (ProvablyFairProtocol.generateCombinedSeed serverSeed clientSeed nonce) = true) /\
  (forall pegMap : PlinkoEngine.PegMap,
     hex64 (PlinkoEngine.createPegMapHash pegMap) = true /\
     Utils.isValidHex (PlinkoEngine.createPegMapHash pegMap) = true) /\
  (forall (random : float) (now : Z),
     hex64 (ProvablyFairProtocol.generateServerSeed random now) = true /\
     Utils.isValidHex (ProvablyFairProtocol.generateServerSeed random now) = true).
Proof.
  assert (H : forall s, hex64 (SHA256.hex s) = true /\ Utils.isValidHex (SHA256.hex s) = true).
  { intros s. split; [apply hex_shape|apply hex64_valid, hex_shape]. }
  split; [|split; [|split]]; intros; apply H.
Qed.

(** X2. The seed of a round is never unreadable: for every server seed,
    client seed and nonce, [extractPRNGSeed] reads from the combined seed the
    first 32-bit word of the SHA-256 digest, an integer in [0, 2^32), never
    NaN; the round's generator starts in that word, or in 1 when the word is
    0. *)
Theorem combined_seed_is_read (serverSeed clientSeed nonce : string) :
  let combinedSeed := ProvablyFairProtocol.generateCombinedSeed serverSeed clientSeed nonce in
  let w := nth 0 (SHA256.digest
                    (SHA256.utf8 (serverSeed ++ ":" ++ clientSeed ++ ":" ++ nonce))) 0 in
  0 <= w < 2 ^ 32 /\
  ProvablyFairProtocol.extractPRNGSeed combinedSeed = JS.Int w /\
  JS.isNaN (ProvablyFairProtocol.extractPRNGSeed combinedSeed) = false /\
  RoundRNG.new combinedSeed =
    {| RoundRNG.prng := {| XORShift32.state := if w =? 0 then 1 else w |};
       RoundRNG.callCount := 0 |}.
Proof.
  intros combinedSeed w.
  destruct (extractPRNGSeed_hex (serverSeed ++ ":" ++ clientSeed ++ ":" ++ nonce))
    as (Hw & He).
  fold w in Hw, He.
  unfold combinedSeed, ProvablyFairProtocol.generateCombinedSeed.
  split; [exact Hw|]. split; [exact He|]. split; [now rewrite He|].
  unfold RoundRNG.new, XORShift32.new. rewrite He. cbn [JS.ushr0].
  unfold JS.ToUint32. rewrite Z.mod_small by exact Hw. reflexivity.
Qed.

(** X3. A seed that passes [isValidHex] is always read: [extractPRNGSeed]
    returns an integer in [0, 2^32), not NaN, and the generator of the round
    source starts in that integer, or in 1 when it is 0. *)
Theorem valid_hex_seed_is_read (seed : string) :
  Utils.isValidHex seed = true ->
  exists v : Z,
    ProvablyFairProtocol.extractPRNGSeed seed = JS.Int v /\ 0 <= v < 2 ^ 32 /\
    XORShift32.getState (RoundRNG.prng (RoundRNG.new seed)) = (if v =? 0 then 1 else v).
Proof.
  intros H. destruct (extractPRNGSeed_valid seed H) as (v & Hv & Rv).
  exists v. split; [exact Hv|]. split; [exact Rv|].
  unfold RoundRNG.new, XORShift32.new, XORShift32.getState.
  cbn [RoundRNG.prng XORShift32.state]. rewrite Hv. cbn [JS.ushr0].
  unfold JS.ToUint32. rewrite Z.mod_small by exact Rv. reflexivity.
Qed.

Lemma valid_hex_seed_is_read_witness :
  exists v : Z,
    ProvablyFairProtocol.extractPRNGSeed "abcdef1234567890" = JS.Int v /\
    0 <= v < 2 ^ 32 /\
    XORShift32.getState (RoundRNG.prng (RoundRNG.new "abcdef1234567890")) =
      (if v =? 0 then 1 else v).
Proof.
  apply (valid_hex_seed_is_read "abcdef1234567890"). reflexivity.
Defined.

End DigestSeeds.

(** ** The xorshift steps are one-to-one *)
Section Injective.
Import Binary64 Xorshift.

Lemma high_bits (a n : Z) : 0 <= a < 2 ^ 32 -> 32 <= n -> Z.testbit a n = false.
Proof.
  intros Ha Hn. rewrite <- (Z.mod_small a (2 ^ 32)) by exact Ha.
  apply Z.mod_pow2_bits_high. lia.
Qed.

Lemma xorb_cancel_r (x y z : bool) : xorb x z = xorb y z -> x = y.
Proof. now destruct x, y, z. Qed.

(** [a ^ (a << k)], kept to 32 bits, determines [a]: bit [n] of the result
    gives bit [n] of [a] once the bits below are known. *)
Lemma shl_xor_inj (k a b : Z) :
  0 < k -> 0 <= a < 2 ^ 32 -> 0 <= b < 2 ^ 32 ->
  Z.lxor a (Z.shiftl a k) mod 2 ^ 32 = Z.lxor b (Z.shiftl b k) mod 2 ^ 32 ->
  a = b.
Proof.
  intros Hk Ha Hb H. apply Z.bits_inj'. intros n Hn.
  revert n Hn. apply (Zlt_0_ind (fun n => Z.testbit a n = Z.testbit b n)).
  intros n IH Hn.
  destruct (Z_lt_le_dec n 32) as [L|G].
  - apply (f_equal (fun z => Z.testbit z n)) in H.
    rewrite !Z.mod_pow2_bits_low, !Z.lxor_spec, !Z.shiftl_spec in H by lia.
    destruct (Z_lt_le_dec (n - k) 0) as [N|P].
    + rewrite !(Z.testbit_neg_r _ (n - k)) in H by lia. now apply xorb_cancel_r in H.
    + rewrite (IH (n - k)) in H by lia. now apply xorb_cancel_r in H.
  - now rewrite !high_bits by assumption.
Qed.

(** The same for [a ^ (a >>> k)], from the top bit down. *)
Lemma shr_xor_inj (k a b : Z) :
  0 < k -> 0 <= a < 2 ^ 32 -> 0 <= b < 2 ^ 32 ->
  Z.lxor a (Z.shiftr a k) mod 2 ^ 32 = Z.lxor b (Z.shiftr b k) mod 2 ^ 32 ->
  a = b.
Proof.
  intros Hk Ha Hb H. apply Z.bits_inj'. intros n Hn.
  assert (D : forall m, 0 <= m -> forall i, 0 <= i -> 32 - m <= i ->
                Z.testbit a i = Z.testbit b i).
  { apply (Zlt_0_ind (fun m => forall i, 0 <= i -> 32 - m <= i ->
                                 Z.testbit a i = Z.testbit b i)).
    intros m IH Hm i Hi Him.
    destruct (Z_lt_le_dec i 32) as [L|G].
    - pose proof (f_equal (fun z => Z.testbit z i) H) as Hbit. cbv beta in Hbit.
      rewrite !Z.mod_pow2_bits_low, !Z.lxor_spec, !Z.shiftr_spec in Hbit by lia.
      destruct (Z_lt_le_dec (i + k) 32) as [L'|G'].
      + rewrite (IH (32 - (i + k)) ltac:(lia) (i + k)) in Hbit by lia.
        now apply xorb_cancel_r in Hbit.
      + rewrite !(high_bits _ (i + k)) in Hbit by assumption.
        now apply xorb_cancel_r in Hbit.
    - now rewrite !high_bits by assumption. }
  apply (D 32); lia.
Qed.

Lemma mod32_range (x : Z) : 0 <= x mod 2 ^ 32 < 2 ^ 32.
Proof. apply Z.mod_pos_bound. lia. Qed.

(** Distinct 32-bit states have distinct successors. *)
Lemma xorshift32_step_inj (a b : Z) :
  0 <= a < 2 ^ 32 -> 0 <= b < 2 ^ 32 ->
  xorshift32_step a = xorshift32_step b -> a = b.
Proof.
  intros Ha Hb H. unfold xorshift32_step in H. cbv zeta in H.
  apply shl_xor_inj in H; [|lia|apply mod32_range|apply mod32_range].
  apply shr_xor_inj in H; [|lia|apply mod32_range|apply mod32_range].
  apply shl_xor_inj in H; [exact H|lia|exact Ha|exact Hb].
Qed.

Lemma xorshift32_step_range (s : Z) : 0 <= xorshift32_step s < 2 ^ 32.
Proof. unfold xorshift32_step. apply mod32_range. Qed.

(** The state 0 is the only one that leads to 0. *)
Lemma xorshift32_step_pos (s : Z) :
  0 < s < 2 ^ 32 -> 0 < xorshift32_step s < 2 ^ 32.
Proof.
  intros Hs. pose proof (xorshift32_step_range s) as R.
  destruct (Z.eq_dec (xorshift32_step s) 0) as [E|N]; [|lia].
  assert (s = 0); [|lia].
  apply xorshift32_step_inj; [lia|lia|]. rewrite E. reflexivity.
Qed.

Lemma new_state_range (seed : JS.number) :
  0 < XORShift32.state (XORShift32.new seed) < 2 ^ 32.
Proof.
  unfold XORShift32.new. cbn [XORShift32.state].
  assert (R : 0 <= JS.ushr0 seed < 2 ^ 32).
  { destruct seed as [|z]; cbn [JS.ushr0]; [lia|apply ToUint32_range]. }
  destruct (JS.ushr0 seed =? 0) eqn:E; [lia|]. apply Z.eqb_neq in E. lia.
Qed.

Lemma to_unit_pos (s : Z) :
  0 < s < 2 ^ 32 ->
  (0 <? XORShift32.to_unit s)%float = true /\ (XORShift32.to_unit s <? 1)%float = true.
Proof.
  intros H. split; [|apply to_unit_range; lia].
  apply (ltb_leb_trans _ (XORShift32.to_unit 1)); [reflexivity|].
  apply to_unit_mono. lia.
Qed.

Lemma to_unit_inj (a b : Z) :
  0 <= a < 2 ^ 32 -> 0 <= b < 2 ^ 32 ->
  XORShift32.to_unit a = XORShift32.to_unit b -> a = b.
Proof.
  intros Ha Hb H. apply (f_equal val) in H.
  rewrite !to_unit_exact in H by assumption.
  assert (P : 0 < 2 ^ 1042) by (apply pow2_pos; lia).
  apply Z.mul_cancel_r in H; [exact H|lia].
Qed.

Lemma next_snd_state (g : XORShift32.t) :
  XORShift32.state (snd (XORShift32.next g)) = xorshift32_step (XORShift32.state g).
Proof. unfold XORShift32.next. cbn [snd XORShift32.state]. apply next_state_refines. Qed.

Lemma next_fst (g : XORShift32.t) :
  fst (XORShift32.next g) = XORShift32.to_unit (xorshift32_step (XORShift32.state g)).
Proof. unfold XORShift32.next. cbn [fst]. now rewrite next_state_refines. Qed.

Lemma round_next_fst (r : RoundRNG.t) :
  fst (RoundRNG.next r) =
  XORShift32.to_unit (xorshift32_step (XORShift32.state (RoundRNG.prng r))).
Proof. unfold RoundRNG.next, XORShift32.next. cbn [fst]. now rewrite next_state_refines. Qed.

Lemma round_next_state (r : RoundRNG.t) :
  XORShift32.state (RoundRNG.prng (snd (RoundRNG.next r))) =
  xorshift32_step (XORShift32.state (RoundRNG.prng r)).
Proof.
  unfold RoundRNG.next, XORShift32.next. cbn [snd RoundRNG.prng XORShift32.state].
  apply next_state_refines.
Qed.

End Injective.

Section Streams.
Import Binary64 Xorshift Stream.

Lemma advance_prng_pos (n : nat) (r : RoundRNG.t) :
  0 < XORShift32.state (RoundRNG.prng r) < 2 ^ 32 ->
  0 < XORShift32.state (RoundRNG.prng (advance n r)) < 2 ^ 32.
Proof.
  revert r; induction n as [|n IH]; intros r H; cbn [advance]; [exact H|].
  apply IH. rewrite round_next_state. now apply xorshift32_step_pos.
Qed.

(** X4. The generator never reaches the state 0.  Whatever the seed
    (NaN and 0 included), after any number of calls of [next()] the state
    lies in [1, 2^32 - 1], and every value [next()] returns is strictly
    between 0 and 1.  The same holds of every draw of a round source, whatever
    string it is built from. *)
Theorem generator_never_zero :
  (forall (seed : JS.number) (k : nat),
     0 < XORShift32.getState (snd (nth_call k (XORShift32.new seed))) < 2 ^ 32 /\
     (0 <? fst (nth_call k (XORShift32.new seed)))%float = true /\
     (fst (nth_call k (XORShift32.new seed)) <? 1)%float = true) /\
  (forall (combinedSeed : string) (k : nat),
     (0 <? draw_at k (RoundRNG.new combinedSeed))%float = true /\
     (draw_at k (RoundRNG.new combinedSeed) <? 1)%float = true).
Proof.
  split.
  - intros seed k. generalize (new_state_range seed).
    generalize (XORShift32.new seed). clear seed.
    induction k as [|k IH]; intros g Hg.
    + cbn [nth_call]. unfold XORShift32.getState.
      rewrite next_snd_state, next_fst.
      pose proof (xorshift32_step_pos _ Hg) as Hn.
      split; [exact Hn|]. now apply to_unit_pos.
    + cbn [nth_call]. apply IH. rewrite next_snd_state. now apply xorshift32_step_pos.
  - intros combinedSeed k. unfold draw_at.
    assert (H : 0 < XORShift32.state (RoundRNG.prng (RoundRNG.new combinedSeed)) < 2 ^ 32)
      by apply new_state_range.
    apply (advance_prng_pos k) in H.
    rewrite round_next_fst. apply to_unit_pos. now apply xorshift32_step_pos.
Qed.

(** X5. Two generators in different states never agree: if the states are
    32-bit values and a call of [next()] returns the same number on both, or
    leaves both in the same state, then the two states were the same; and so
    for the outputs of call [k], for every [k]. *)
Theorem generator_one_to_one (g1 g2 : XORShift32.t) :
  0 <= XORShift32.getState g1 < 2 ^ 32 ->
  0 <= XORShift32.getState g2 < 2 ^ 32 ->
  (XORShift32.getState (snd (XORShift32.next g1)) =
   XORShift32.getState (snd (XORShift32.next g2)) -> g1 = g2) /\
  (forall k : nat, fst (nth_call k g1) = fst (nth_call k g2) -> g1 = g2).
Proof.
  intros H1 H2. unfold XORShift32.getState in *.
  assert (S : forall a b : XORShift32.t,
             0 <= XORShift32.state a < 2 ^ 32 -> 0 <= XORShift32.state b < 2 ^ 32 ->
             xorshift32_step (XORShift32.state a) = xorshift32_step (XORShift32.state b) ->
             a = b).
  { intros [a] [b] Ha Hb E. cbn [XORShift32.state] in *.
    f_equal. now apply xorshift32_step_inj. }
  split.
  - rewrite !next_snd_state. now apply S.
  - intros k. revert g1 g2 H1 H2. induction k as [|k IH]; intros g1 g2 H1 H2 E.
    + cbn [nth_call] in E. rewrite !next_fst in E.
      apply S; [assumption|assumption|].
      apply to_unit_inj; [apply xorshift32_step_range|apply xorshift32_step_range|exact E].
    + cbn [nth_call] in E.
      apply IH in E; [|rewrite next_snd_state; apply xorshift32_step_range
                      |rewrite next_snd_state; apply xorshift32_step_range].
      apply S; [assumption|assumption|].
      rewrite <- !next_snd_state. now rewrite E.
Qed.

Lemma generator_one_to_one_witness :
  (XORShift32.getState (snd (XORShift32.next (XORShift32.new (JS.Int 42)))) =
   XORShift32.getState (snd (XORShift32.next (XORShift32.new (JS.Int 43)))) ->
   XORShift32.new (JS.Int 42) = XORShift32.new (JS.Int 43)) /\
  (forall k : nat,
     fst (nth_call k (XORShift32.new (JS.Int 42))) =
     fst (nth_call k (XORShift32.new (JS.Int 43))) ->
     XORShift32.new (JS.Int 42) = XORShift32.new (JS.Int 43)).
Proof.
  apply (generator_one_to_one (XORShift32.new (JS.Int 42)) (XORShift32.new (JS.Int 43)));
    vm_compute; (split; [discriminate|reflexivity]).
Defined.

End Streams.

(** ** Minimum, maximum and equality on values *)
Section MinMax.
Import Binary64.

Lemma eqb_iff (x y : float) :
  (x =? y)%float = true <-> is_num x = true /\ is_num y = true /\ val x = val y.
Proof.
  rewrite FloatAxioms.eqb_spec. unfold SFeqb, is_num, val.
  pose proof (Prim2SF_valid x) as Vx. pose proof (Prim2SF_valid y) as Vy.
  destruct (not_nan (Prim2SF x)) eqn:Nx.
  2:{ destruct (Prim2SF x); try discriminate. cbn.
      split; [discriminate|intros (H & _); discriminate]. }
  destruct (not_nan (Prim2SF y)) eqn:Ny.
  2:{ destruct (Prim2SF y); try discriminate.
      destruct (Prim2SF x); cbn; (split; [discriminate|intros (_ & H & _); discriminate]). }
  rewrite (SFcompare_val _ _ Vx Vy Nx Ny).
  destruct (Z.compare_spec (SFval (Prim2SF x)) (SFval (Prim2SF y))) as [E|L|G];
    (split; [intros H0|intros (_ & _ & H0)]);
    first [discriminate | reflexivity | lia | (split; [reflexivity|split; [reflexivity|lia]])].
Qed.

Lemma ltb_false_iff (x y : float) :
  is_num x = true -> is_num y = true ->
  ((x <? y)%float = false <-> val y <= val x).
Proof.
  intros Nx Ny. split.
  - intros H. apply (not_ltb_leb x y Nx Ny) in H. now apply leb_iff in H.
  - intros H. destruct (x <? y)%float eqn:E; [|reflexivity].
    apply ltb_iff in E. lia.
Qed.

Lemma Math_min_val (a b : float) :
  is_num a = true -> is_num b = true ->
  is_num (JS.Math_min a b) = true /\
  val (JS.Math_min a b) = Z.min (val a) (val b).
Proof.
  intros Na Nb. unfold JS.Math_min.
  rewrite (is_nan_false a Na), (is_nan_false b Nb). cbn [orb].
  destruct (a <? b)%float eqn:A.
  { apply ltb_iff in A. split; [exact Na|lia]. }
  apply (ltb_false_iff a b Na Nb) in A.
  destruct (b <? a)%float eqn:B.
  { apply ltb_iff in B. split; [exact Nb|lia]. }
  apply (ltb_false_iff b a Nb Na) in B.
  destruct (JS.is_neg_zero a); (split; [assumption|lia]).
Qed.

Lemma Math_max_val (a b : float) :
  is_num a = true -> is_num b = true ->
  is_num (JS.Math_max a b) = true /\
  val (JS.Math_max a b) = Z.max (val a) (val b).
Proof.
  intros Na Nb. unfold JS.Math_max.
  rewrite (is_nan_false a Na), (is_nan_false b Nb). cbn [orb].
  destruct (a <? b)%float eqn:A.
  { apply ltb_iff in A. split; [exact Nb|lia]. }
  apply (ltb_false_iff a b Na Nb) in A.
  destruct (b <? a)%float eqn:B.
  { apply ltb_iff in B. split; [exact Na|lia]. }
  apply (ltb_false_iff b a Nb Na) in B.
  destruct (JS.is_neg_zero a); (split; [assumption|lia]).
Qed.

End MinMax.

(** ** The drop, step by step *)
Section Steps.
Import PlinkoEngine Stream Measure Binary64.

Lemma rights_cons (s : GamePath) (p : list GamePath) :
  rights (s :: p) =
  ((match direction s with Right => 1 | Left => 0 end) + rights p)%nat.
Proof. unfold rights. cbn [filter]. now destruct (direction s). Qed.

Lemma step_at_rights (pegMap : PegMap) (adj : float) (row pos : nat) (rv : float) :
  column (step_at pegMap adj row pos rv) =
  (pos + match direction (step_at pegMap adj row pos rv) with Right => 1 | Left => 0 end)%nat.
Proof.
  unfold step_at. cbn [column direction].
  destruct (rv <? _)%float; lia.
Qed.

Lemma walk_S (pegMap : PegMap) (adj : float) (n row pos : nat) (r : RoundRNG.t) :
  walk pegMap adj (S n) row pos r =
  step_at pegMap adj row pos (fst (RoundRNG.next r))
    :: walk pegMap adj n (S row)
         (column (step_at pegMap adj row pos (fst (RoundRNG.next r))))
         (snd (RoundRNG.next r)).
Proof. reflexivity. Qed.

(** The column after step [k] is the starting position plus the number of
    steps to the right so far. *)
Lemma walk_rights (pegMap : PegMap) (adj : float) (n row pos k : nat)
    (r : RoundRNG.t) (s : GamePath) :
  nth_error (walk pegMap adj n row pos r) k = Some s ->
  column s = (pos + rights (firstn (S k) (walk pegMap adj n row pos r)))%nat.
Proof.
  revert row pos k r; induction n as [|n IH]; intros row pos k r H.
  - destruct k; discriminate.
  - rewrite walk_S in *.
    set (s0 := step_at pegMap adj row pos (fst (RoundRNG.next r))) in *.
    pose proof (step_at_rights pegMap adj row pos (fst (RoundRNG.next r))) as C.
    fold s0 in C.
    rewrite firstn_cons, rights_cons.
    destruct k as [|k]; cbn [nth_error] in H.
    + assert (E : s = s0) by congruence. rewrite E, firstn_O.
      change (rights []) with 0%nat. lia.
    + apply IH in H. rewrite H. lia.
Qed.

Lemma firstn_snoc {A : Type} (l : list A) (n : nat) (x : A) :
  nth_error l n = Some x -> firstn (S n) l = (firstn n l ++ [x])%list.
Proof.
  revert n; induction l as [|a l IH]; intros n H.
  - destruct n; discriminate.
  - destruct n as [|n]; cbn [nth_error] in H.
    + assert (E : a = x) by congruence. rewrite E. reflexivity.
    + rewrite firstn_cons, (firstn_cons n), (IH n H). reflexivity.
Qed.

Lemma walk_columns (pegMap : PegMap) (adj : float) (n : nat) (r : RoundRNG.t) :
  (forall step : GamePath,
     last (map Some (walk pegMap adj n 0 0 r)) None = Some step ->
     column step = rights (walk pegMap adj n 0 0 r)) /\
  (forall (k : nat) (step : GamePath),
     nth_error (walk pegMap adj n 0 0 r) k = Some step ->
     column step = rights (firstn (S k) (walk pegMap adj n 0 0 r))) /\
  (forall (k : nat) (before step : GamePath),
     nth_error (walk pegMap adj n 0 0 r) k = Some before ->
     nth_error (walk pegMap adj n 0 0 r) (S k) = Some step ->
     column step =
     (column before + match direction step with Right => 1 | Left => 0 end)%nat).
Proof.
  assert (R : forall (k : nat) (s : GamePath),
             nth_error (walk pegMap adj n 0 0 r) k = Some s ->
             column s = rights (firstn (S k) (walk pegMap adj n 0 0 r))).
  { intros k s H. now rewrite (walk_rights _ _ _ _ _ _ _ _ H). }
  revert R. generalize (walk pegMap adj n 0 0 r). intros p R.
  split; [|split].
  - intros step H. apply last_nth_error in H. pose proof (R _ _ H) as C.
    rewrite C, firstn_all2 by lia. reflexivity.
  - intros k step H. now rewrite (R _ _ H).
  - intros k before step Hb Hs.
    rewrite (R _ _ Hb), (R _ _ Hs), (firstn_snoc p (S k) step Hs).
    unfold rights. rewrite filter_app, length_app. cbn [filter].
    destruct (direction step); cbn [List.length]; lia.
Qed.

(** X6. The bin is the number of moves to the right.  For every round of
    at least 12 rows, the column recorded at step k is the number of steps
    0..k whose direction is right, each step moves the ball by 0 (left) or 1
    (right) column, and the bin index is the number of right steps of the
    whole path. *)
Theorem binIndex_counts_rights
    (serverSeed clientSeed nonce : string) (dropColumn : float) (rows betCents : Z) :
  12 <= rows ->
  exists g : GameResult,
    playRound serverSeed clientSeed nonce dropColumn rows betCents = Returns g /\
    binIndex g = rights (path g) /\
    (forall (k : nat) (step : GamePath),
       nth_error (path g) k = Some step ->
       column step = rights (firstn (S k) (path g))) /\
    (forall (k : nat) (before step : GamePath),
       nth_error (path g) k = Some before -> nth_error (path g) (S k) = Some step ->
       column step =
       (column before + match direction step with Right => 1 | Left => 0 end)%nat).
Proof.
  intros Hrows.
  destruct (playRound_returns serverSeed clientSeed nonce dropColumn rows betCents Hrows)
    as (step & Hlast & Hplay).
  eexists. split; [exact Hplay|]. cbn [binIndex path].
  destruct (walk_columns
              (triangle (Z.to_nat rows) 0
                 (RoundRNG.new (SHA256.hex (serverSeed ++ ":" ++ clientSeed ++ ":" ++ nonce))))
              (adj_of dropColumn) 12
              (advance (triangular (Z.to_nat rows))
                 (RoundRNG.new (SHA256.hex (serverSeed ++ ":" ++ clientSeed ++ ":" ++ nonce)))))
    as (A & B & C).
  split; [exact (A step Hlast)|]. split; [exact B|exact C].
Qed.

Lemma binIndex_counts_rights_witness :
  exists g : GameResult,
    playRound Vector.serverSeed Vector.clientSeed Vector.nonce 6 12 100 = Returns g /\
    binIndex g = rights (path g) /\
    (forall (k : nat) (step : GamePath),
       nth_error (path g) k = Some step ->
       column step = rights (firstn (S k) (path g))) /\
    (forall (k : nat) (before step : GamePath),
       nth_error (path g) k = Some before -> nth_error (path g) (S k) = Some step ->
       column step =
       (column before + match direction step with Right => 1 | Left => 0 end)%nat).
Proof.
  apply (binIndex_counts_rights Vector.serverSeed Vector.clientSeed Vector.nonce 6 12 100).
  lia.
Defined.

End Steps.

(** ** The drop column and the path *)
Section Coupling.
Import PlinkoEngine Stream Measure Binary64.

Lemma Math_min_mono (c : float) : is_num c = true -> mono (JS.Math_min c).
Proof.
  intros Nc. apply (mono_of_val _ (Z.min (val c))).
  - intros x Nx. now apply Math_min_val.
  - intros u v L. lia.
Qed.

Lemma Math_max_mono (c : float) : is_num c = true -> mono (JS.Math_max c).
Proof.
  intros Nc. apply (mono_of_val _ (Z.max (val c))).
  - intros x Nx. now apply Math_max_val.
  - intros u v L. lia.
Qed.

(** A larger adjustment gives a larger adjusted bias. *)
Lemma adjustedBias_mono (leftBias : float) :
  finite_or_zero (Prim2SF leftBias) = true ->
  mono (fun adj => adjustedBias_of leftBias adj).
Proof.
  intros F. unfold adjustedBias_of.
  apply (mono_comp (fun adj => JS.Math_min 1 (leftBias + adj)%float) (JS.Math_max 0)).
  - apply (mono_comp (fun adj => (leftBias + adj)%float) (JS.Math_min 1)).
    + apply add_l_mono, F.
    + now apply Math_min_mono.
  - now apply Math_max_mono.
Qed.

Lemma adj_of_mono (d1 d2 : float) :
  (d1 <=? d2)%float = true -> (adj_of d1 <=? adj_of d2)%float = true.
Proof.
  intros L. unfold adj_of.
  apply (mul_r_mono 0.01 5764607523034235 (-59) eq_refl).
  apply (sub_r_mono (JS.Z2F (ROWS / 2)) eq_refl). exact L.
Qed.

(** One row, two adjustments: the ball that is not to the left before the
    row is not to the left after it. *)
Lemma step_at_mono (pegMap : PegMap) (a1 a2 : float) (row pos1 pos2 : nat) (rv : float) :
  (a1 <=? a2)%float = true ->
  finite_or_zero (Prim2SF (nth (Nat.min pos1 row) (nth row pegMap []) nan)) = true ->
  (pos2 <= pos1)%nat ->
  (column (step_at pegMap a2 row pos2 rv) <= column (step_at pegMap a1 row pos1 rv))%nat.
Proof.
  intros La F Lp.
  destruct (Nat.eq_dec pos2 pos1) as [->|N].
  - unfold step_at. cbn [column].
    set (lb := nth (Nat.min pos1 row) (nth row pegMap []) nan) in *.
    pose proof (adjustedBias_mono lb F a1 a2 La) as M. cbv beta in M.
    destruct (rv <? adjustedBias_of lb a1)%float eqn:E1.
    + rewrite (ltb_leb_trans _ _ _ E1 M). lia.
    + destruct (rv <? adjustedBias_of lb a2)%float; lia.
  - pose proof (step_at_column pegMap a2 row pos2 rv).
    pose proof (step_at_column pegMap a1 row pos1 rv). lia.
Qed.

Lemma walk_mono (pegMap : PegMap) (a1 a2 : float) (n row pos1 pos2 k : nat)
    (r : RoundRNG.t) (s1 s2 : GamePath) :
  (a1 <=? a2)%float = true ->
  (forall i p : nat, (row <= i < row + n)%nat -> (p <= i)%nat ->
     finite_or_zero (Prim2SF (nth p (nth i pegMap []) nan)) = true) ->
  (pos2 <= pos1)%nat ->
  nth_error (walk pegMap a1 n row pos1 r) k = Some s1 ->
  nth_error (walk pegMap a2 n row pos2 r) k = Some s2 ->
  (column s2 <= column s1)%nat.
Proof.
  intros La. revert row pos1 pos2 k r.
  induction n as [|n IH]; intros row pos1 pos2 k r F Lp H1 H2.
  - destruct k; discriminate.
  - rewrite walk_S in H1, H2.
    assert (C : (column (step_at pegMap a2 row pos2 (fst (RoundRNG.next r))) <=
                 column (step_at pegMap a1 row pos1 (fst (RoundRNG.next r))))%nat).
    { apply step_at_mono; [exact La| |exact Lp]. apply F; lia. }
    destruct k as [|k]; cbn [nth_error] in H1, H2.
    + assert (E1 : s1 = step_at pegMap a1 row pos1 (fst (RoundRNG.next r))) by congruence.
      assert (E2 : s2 = step_at pegMap a2 row pos2 (fst (RoundRNG.next r))) by congruence.
      rewrite E1, E2. exact C.
    + apply (IH (S row)
               (column (step_at pegMap a1 row pos1 (fst (RoundRNG.next r))))
               (column (step_at pegMap a2 row pos2 (fst (RoundRNG.next r))))
               k (snd (RoundRNG.next r))); try assumption.
      intros i p Hi Hp. apply F; lia.
Qed.

Lemma triangle_finite (n i p : nat) (r : RoundRNG.t) :
  (i < n)%nat -> (p <= i)%nat ->
  finite_or_zero (Prim2SF (nth p (nth i (triangle n 0 r) []) nan)) = true.
Proof.
  intros Hi Hp.
  destruct (triangle_entry n i p r Hi Hp) as (pegRow & Hrow & _ & Hv).
  rewrite (nth_error_nth _ _ [] Hrow), (nth_error_nth _ _ nan Hv).
  destruct (roundedBias_draw_range (triangular i + p) r) as (L & U).
  apply (bounded_finite _ 0.4 0.6); [reflexivity|reflexivity|exact L|exact U].
Qed.

Lemma walk_same_draws (pegMap : PegMap) (a1 a2 : float) (n row pos1 pos2 k : nat)
    (r : RoundRNG.t) (s1 s2 : GamePath) :
  nth_error (walk pegMap a1 n row pos1 r) k = Some s1 ->
  nth_error (walk pegMap a2 n row pos2 r) k = Some s2 ->
  randomValue s1 = randomValue s2.
Proof.
  intros H1 H2. apply walk_step in H1, H2.
  destruct H1 as (_ & _ & E1 & _). destruct H2 as (_ & _ & E2 & _). congruence.
Qed.

(** X7. Dropping further to the right never lands further to the right.
    For fixed seeds, nonce, stake and row count (at least 12), if the drop
    column d1 is at most d2, the two rounds have the same peg map and the same
    draws, and at every step the ball dropped at d2 is in a column no greater
    than the ball dropped at d1; so its bin index is no greater. *)
Theorem bin_index_antitone_in_drop_column
    (serverSeed clientSeed nonce : string) (d1 d2 : float) (rows betCents : Z) :
  12 <= rows -> (d1 <=? d2)%float = true ->
  exists g1 g2 : GameResult,
    playRound serverSeed clientSeed nonce d1 rows betCents = Returns g1 /\
    playRound serverSeed clientSeed nonce d2 rows betCents = Returns g2 /\
    pegMap g1 = pegMap g2 /\
    (forall (k : nat) (s1 s2 : GamePath),
       nth_error (path g1) k = Some s1 -> nth_error (path g2) k = Some s2 ->
       randomValue s1 = randomValue s2 /\ (column s2 <= column s1)%nat) /\
    (binIndex g2 <= binIndex g1)%nat.
Proof.
  intros Hrows Hd.
  destruct (playRound_returns serverSeed clientSeed nonce d1 rows betCents Hrows)
    as (st1 & Hl1 & Hp1).
  destruct (playRound_returns serverSeed clientSeed nonce d2 rows betCents Hrows)
    as (st2 & Hl2 & Hp2).
  do 2 eexists. split; [exact Hp1|]. split; [exact Hp2|].
  cbn [pegMap path binIndex]. split; [reflexivity|].
  apply last_nth_error in Hl1, Hl2. rewrite walk_length in Hl1, Hl2.
  assert (M : forall (k : nat) (s1 s2 : GamePath),
     nth_error (walk (triangle (Z.to_nat rows) 0
                        (RoundRNG.new (SHA256.hex (serverSeed ++ ":" ++ clientSeed ++ ":" ++ nonce))))
                  (adj_of d1) 12 0 0
                  (advance (triangular (Z.to_nat rows))
                     (RoundRNG.new (SHA256.hex (serverSeed ++ ":" ++ clientSeed ++ ":" ++ nonce)))))
       k = Some s1 ->
     nth_error (walk (triangle (Z.to_nat rows) 0
                        (RoundRNG.new (SHA256.hex (serverSeed ++ ":" ++ clientSeed ++ ":" ++ nonce))))
                  (adj_of d2) 12 0 0
                  (advance (triangular (Z.to_nat rows))
                     (RoundRNG.new (SHA256.hex (serverSeed ++ ":" ++ clientSeed ++ ":" ++ nonce)))))
       k = Some s2 ->
     randomValue s1 = randomValue s2 /\ (column s2 <= column s1)%nat).
  { intros k s1 s2 H1 H2. split; [exact (walk_same_draws _ _ _ _ _ _ _ _ _ _ _ H1 H2)|].
    eapply walk_mono; [exact (adj_of_mono d1 d2 Hd)| | |exact H1|exact H2].
    - intros i p Hi Hp. apply triangle_finite; lia.
    - lia. }
  split; [exact M|]. exact (proj2 (M _ _ _ Hl1 Hl2)).
Qed.

Lemma bin_index_antitone_in_drop_column_witness :
  exists g1 g2 : GameResult,
    playRound Vector.serverSeed Vector.clientSeed Vector.nonce 0 12 100 = Returns g1 /\
    playRound Vector.serverSeed Vector.clientSeed Vector.nonce 12 12 100 = Returns g2 /\
    pegMap g1 = pegMap g2 /\
    (forall (k : nat) (s1 s2 : GamePath),
       nth_error (path g1) k = Some s1 -> nth_error (path g2) k = Some s2 ->
       randomValue s1 = randomValue s2 /\ (column s2 <= column s1)%nat) /\
    (binIndex g2 <= binIndex g1)%nat.
Proof.
  apply (bin_index_antitone_in_drop_column
           Vector.serverSeed Vector.clientSeed Vector.nonce 0 12 12 100);
    [lia|reflexivity].
Defined.

End Coupling.

(** ** Replaying a round in steps *)
Section Replay.
Import PlinkoEngine Stream Measure Binary64.

Lemma triangle_firstn (n1 n2 row : nat) (r : RoundRNG.t) :
  (n1 <= n2)%nat -> firstn n1 (triangle n2 row r) = triangle n1 row r.
Proof.
  revert n2 row r; induction n1 as [|n1 IH]; intros n2 row r L; [reflexivity|].
  destruct n2 as [|n2]; [lia|].
  cbn [triangle firstn]. now rewrite IH by lia.
Qed.

(** X8. [playRound] is [generatePegMap], then [createPegMapHash], then
    [simulateDrop] on the same round source.  For every round of at least 12
    rows: the peg map of the result is the one [generatePegMap] draws from a
    fresh source built on the combined seed; its hash is [createPegMapHash]
    of it; the path is what [simulateDrop] returns on that map from the source
    as the peg map left it, which is the fresh source after rows(rows+1)/2
    calls of [next()]; the round has then made rows(rows+1)/2 + 12 calls; and
    [reset] with the combined seed brings the source back to the fresh one. *)
Theorem playRound_replays_in_steps
    (serverSeed clientSeed nonce : string) (dropColumn : float) (rows betCents : Z) :
  12 <= rows ->
  exists (g : GameResult) (pegMap : PegMap) (rng1 : RoundRNG.t)
         (path : list GamePath) (rng2 : RoundRNG.t),
    playRound serverSeed clientSeed nonce dropColumn rows betCents = Returns g /\
    combinedSeed g =
      ProvablyFairProtocol.generateCombinedSeed serverSeed clientSeed nonce /\
    generatePegMap rows (RoundRNG.new (combinedSeed g)) = Returns (pegMap, rng1) /\
    rng1 = advance (triangular (Z.to_nat rows)) (RoundRNG.new (combinedSeed g)) /\
    simulateDrop pegMap dropColumn rng1 = Returns (path, rng2) /\
    PlinkoEngine.pegMap g = pegMap /\
    pegMapHash g = createPegMapHash pegMap /\
    PlinkoEngine.path g = path /\
    RoundRNG.getCallCount rng1 = rows * (rows + 1) / 2 /\
    RoundRNG.getCallCount rng2 = rows * (rows + 1) / 2 + 12 /\
    RoundRNG.reset (combinedSeed g) rng2 = RoundRNG.new (combinedSeed g).
Proof.
  intros Hrows.
  destruct (playRound_returns serverSeed clientSeed nonce dropColumn rows betCents Hrows)
    as (step & _ & Hplay).
  eexists. exists (triangle (Z.to_nat rows) 0
                     (RoundRNG.new (SHA256.hex (serverSeed ++ ":" ++ clientSeed ++ ":" ++ nonce)))).
  do 3 eexists. split; [exact Hplay|].
  cbn [combinedSeed PlinkoEngine.pegMap pegMapHash PlinkoEngine.path].
  split; [reflexivity|]. split; [apply generatePegMap_spec|]. split; [reflexivity|].
  split.
  { unfold simulateDrop. change (Z.to_nat ROWS) with 12%nat.
    rewrite dropLoop_returns by (rewrite triangle_length; lia). reflexivity. }
  split; [reflexivity|]. split; [reflexivity|]. split; [reflexivity|].
  unfold RoundRNG.getCallCount.
  rewrite <- advance_add, !callCount_advance, Nat2Z.inj_add, triangular_closed.
  rewrite Z2Nat.id by lia.
  split; [reflexivity|]. split; reflexivity.
Qed.

Lemma playRound_replays_in_steps_witness :
  exists (g : GameResult) (pegMap : PegMap) (rng1 : RoundRNG.t)
         (path : list GamePath) (rng2 : RoundRNG.t),
    playRound Vector.serverSeed Vector.clientSeed Vector.nonce 6 12 100 = Returns g /\
    combinedSeed g =
      ProvablyFairProtocol.generateCombinedSeed
        Vector.serverSeed Vector.clientSeed Vector.nonce /\
    generatePegMap 12 (RoundRNG.new (combinedSeed g)) = Returns (pegMap, rng1) /\
    rng1 = advance (triangular (Z.to_nat 12)) (RoundRNG.new (combinedSeed g)) /\
    simulateDrop pegMap 6 rng1 = Returns (path, rng2) /\
    PlinkoEngine.pegMap g = pegMap /\
    pegMapHash g = createPegMapHash pegMap /\
    PlinkoEngine.path g = path /\
    RoundRNG.getCallCount rng1 = 12 * (12 + 1) / 2 /\
    RoundRNG.getCallCount rng2 = 12 * (12 + 1) / 2 + 12 /\
    RoundRNG.reset (combinedSeed g) rng2 = RoundRNG.new (combinedSeed g).
Proof.
  apply (playRound_replays_in_steps Vector.serverSeed Vector.clientSeed Vector.nonce 6 12 100).
  lia.
Defined.

(** X9. A peg map of fewer rows is the top of a peg map of more rows:
    from the same round source, [generatePegMap] for rows1 <= rows2 returns
    for rows1 the first rows1 rows of what it returns for rows2, peg for
    peg. *)
Theorem generatePegMap_prefix (rows1 rows2 : Z) (rng : RoundRNG.t) :
  rows1 <= rows2 ->
  exists (pegMap1 pegMap2 : PegMap) (rng1 rng2 : RoundRNG.t),
    generatePegMap rows1 rng = Returns (pegMap1, rng1) /\
    generatePegMap rows2 rng = Returns (pegMap2, rng2) /\
    pegMap1 = firstn (Z.to_nat rows1) pegMap2 /\
    (forall r : nat, (r < Z.to_nat rows1)%nat ->
       nth_error pegMap1 r = nth_error pegMap2 r).
Proof.
  intros L.
  exists (triangle (Z.to_nat rows1) 0 rng), (triangle (Z.to_nat rows2) 0 rng).
  do 2 eexists. split; [apply generatePegMap_spec|]. split; [apply generatePegMap_spec|].
  assert (E : triangle (Z.to_nat rows1) 0 rng =
              firstn (Z.to_nat rows1) (triangle (Z.to_nat rows2) 0 rng)).
  { symmetry. apply triangle_firstn. lia. }
  split; [exact E|].
  intros r Hr. rewrite E, nth_error_firstn.
  apply Nat.ltb_lt in Hr. now rewrite Hr.
Qed.

Lemma generatePegMap_prefix_witness :
  exists (pegMap1 pegMap2 : PegMap) (rng1 rng2 : RoundRNG.t),
    generatePegMap 3 (RoundRNG.new Vector.combinedSeed) = Returns (pegMap1, rng1) /\
    generatePegMap 12 (RoundRNG.new Vector.combinedSeed) = Returns (pegMap2, rng2) /\
    pegMap1 = firstn (Z.to_nat 3) pegMap2 /\
    (forall r : nat, (r < Z.to_nat 3)%nat ->
       nth_error pegMap1 r = nth_error pegMap2 r).
Proof.
  apply (generatePegMap_prefix 3 12 (RoundRNG.new Vector.combinedSeed)). lia.
Defined.

End Replay.

(** ** What a round can pay *)
Section Payable.
Import PlinkoEngine Stream Measure Binary64 Decimal.

Lemma SFmul_comm (x y : spec_float) : SFmul prec emax x y = SFmul prec emax y x.
Proof.
  destruct x as [sx|sx| |sx mx ex], y as [sy|sy| |sy my ey]; cbn [SFmul];
    try reflexivity; try (now rewrite xorb_comm).
  now rewrite xorb_comm, Pos.mul_comm, Z.add_comm.
Qed.

Lemma mul_comm (x y : float) : (x * y)%float = (y * x)%float.
Proof. apply Prim2SF_inj. rewrite !mul_spec. apply SFmul_comm. Qed.

Lemma positive_finite (x : float) :
  is_num x = true -> 0 < val x < top ->
  exists (m : positive) (e : Z), Prim2SF x = S754_finite false m e.
Proof.
  unfold is_num, val. pose proof top_pos as T.
  destruct (Prim2SF x) as [s|s| |s m e]; cbn [SFval not_nan]; intros N H;
    try discriminate; try lia.
  - destruct s; lia.
  - destruct s; [|now exists m, e].
    assert (0 < Z.pos m * 2 ^ (e + 1074)); [|lia].
    destruct (Z_lt_le_dec (e + 1074) 0) as [Neg|Pos].
    + rewrite Z.pow_neg_r in H by lia. lia.
    + apply Z.mul_pos_pos; [lia|apply Z.pow_pos_nonneg; lia].
Qed.

Lemma Z2F_positive_finite (b : Z) :
  0 < b < 2 ^ 53 ->
  exists (m : positive) (e : Z), Prim2SF (JS.Z2F b) = S754_finite false m e.
Proof.
  intros Hb. destruct (Z2F_val b) as (N & _).
  apply positive_finite; [exact N|].
  unfold JS.Z2F. destruct (b <? 0) eqn:B; [apply Z.ltb_lt in B; lia|].
  rewrite N2F_exact by lia.
  assert (P : 0 < 2 ^ 1074) by (apply pow2_pos; lia).
  split; [nia|]. unfold top.
  replace (2 ^ 2098) with (2 ^ 1024 * 2 ^ 1074)
    by (rewrite <- Z.pow_add_r by lia; reflexivity).
  assert (2 ^ 53 < 2 ^ 1024) by (apply Z.pow_lt_mono_r; lia). nia.
Qed.

(** The multiplier of a bin of the engine's table lies between that of the
    centre and that of the edge. *)
Lemma paytable_bounds (bin : nat) :
  (bin <= 12)%nat ->
  nth bin (getPayoutMultipliers BINS) nan =
    round_2dp (0.5 + JS.Z2F (Z.abs (Z.of_nat bin - 6)) * 0.3) /\
  (0.5 <=? nth bin (getPayoutMultipliers BINS) nan)%float = true /\
  (nth bin (getPayoutMultipliers BINS) nan <=? 2.3)%float = true.
Proof.
  intros Hb.
  assert (E : nth bin (getPayoutMultipliers BINS) nan = multiplier_of 6 (Z.of_nat bin)).
  { rewrite <- (Nat2Z.id bin) at 1.
    rewrite getPayoutMultipliers_nth by (unfold BINS, ROWS; lia). reflexivity. }
  rewrite E. split; [apply multiplier_of_formula|]. split.
  - change 0.5%float with (multiplier_of 6 6). apply multiplier_mono. lia.
  - change 2.3%float with (multiplier_of 6 0). apply multiplier_mono. lia.
Qed.

(** X10. What a round pays.  For every round of at least 12 rows and every
    stake s with 0 < s < 2^53: the multiplier is the table's entry for the
    bin, round_2dp(0.5 + |bin - 6| * 0.3), between 0.5 and 2.3; the payout is
    a whole number of cents; and it lies between Math.round(s * 0.5) and
    Math.round(s * 2.3). *)
Theorem payout_within_paytable
    (serverSeed clientSeed nonce : string) (dropColumn : float) (rows betCents : Z) :
  12 <= rows -> 0 < betCents < 2 ^ 53 ->
  exists g : GameResult,
    playRound serverSeed clientSeed nonce dropColumn rows betCents = Returns g /\
    payoutMultiplier g =
      round_2dp (0.5 + JS.Z2F (Z.abs (Z.of_nat (binIndex g) - 6)) * 0.3) /\
    (0.5 <=? payoutMultiplier g)%float = true /\
    (payoutMultiplier g <=? 2.3)%float = true /\
    (exists cents : Z, val (payoutCents g) = cents * 2 ^ 1074) /\
    (JS.Math_round (JS.Z2F betCents * 0.5) <=? payoutCents g)%float = true /\
    (payoutCents g <=? JS.Math_round (JS.Z2F betCents * 2.3))%float = true.
Proof.
  intros Hrows Hb.
  destruct (playRound_returns serverSeed clientSeed nonce dropColumn rows betCents Hrows)
    as (step & Hlast & Hplay).
  eexists. split; [exact Hplay|]. cbn [payoutMultiplier binIndex payoutCents].
  apply last_nth_error in Hlast. rewrite walk_length in Hlast.
  apply walk_step in Hlast. destruct Hlast as (_ & Hcol & _).
  destruct (paytable_bounds (column step)) as (Hm & Lo & Hi); [lia|].
  revert Hm Lo Hi. generalize (nth (column step) (getPayoutMultipliers BINS) nan).
  intros m Hm Lo Hi.
  split; [exact Hm|]. split; [exact Lo|]. split; [exact Hi|].
  destruct (Z2F_positive_finite betCents Hb) as (mb & eb & Sb).
  pose proof (mul_r_mono (JS.Z2F betCents) mb eb Sb) as M.
  split.
  - assert (Nm : is_num m = true) by (apply leb_iff in Lo; apply Lo).
    destruct (mul_r_val (JS.Z2F betCents) mb eb Sb m Nm) as (Np & _).
    rewrite mul_comm in Np.
    destruct (Math_round_val _ Np) as (_ & V).
    rewrite V. unfold RHU. eexists. apply Z.mul_comm.
  - split; apply Math_round_mono.
    + rewrite (mul_comm _ 0.5), (mul_comm _ m). now apply M.
    + rewrite (mul_comm _ 2.3), (mul_comm _ m). now apply M.
Qed.

Lemma payout_within_paytable_witness :
  exists g : GameResult,
    playRound Vector.serverSeed Vector.clientSeed Vector.nonce 6 12 100 = Returns g /\
    payoutMultiplier g =
      round_2dp (0.5 + JS.Z2F (Z.abs (Z.of_nat (binIndex g) - 6)) * 0.3) /\
    (0.5 <=? payoutMultiplier g)%float = true /\
    (payoutMultiplier g <=? 2.3)%float = true /\
    (exists cents : Z, val (payoutCents g) = cents * 2 ^ 1074) /\
    (JS.Math_round (JS.Z2F 100 * 0.5) <=? payoutCents g)%float = true /\
    (payoutCents g <=? JS.Math_round (JS.Z2F 100 * 2.3))%float = true.
Proof.
  apply (payout_within_paytable Vector.serverSeed Vector.clientSeed Vector.nonce 6 12 100);
    lia.
Defined.

End Payable.

(** ** [clamp] *)
Section Clamp.
Import Binary64.

Lemma clamp_val (value min max : float) :
  is_num value = true -> is_num min = true -> is_num max = true ->
  is_num (Utils.clamp value min max) = true /\
  val (Utils.clamp value min max) = Z.min (Z.max (val value) (val min)) (val max).
Proof.
  intros Nv Nlo Nhi. unfold Utils.clamp.
  destruct (Math_max_val value min Nv Nlo) as (N1 & V1).
  destruct (Math_min_val _ max N1 Nhi) as (N2 & V2).
  split; [exact N2|]. now rewrite V2, V1.
Qed.

(** X11. [clamp] with bounds in order.  For numbers value, min, max (none
    of them NaN) with min <= max: the result lies in [min, max]; it equals
    value when value already lies in [min, max]; and clamping the result again
    changes nothing.  Equality is that of [===], which takes -0 for 0. *)
Theorem clamp_within_bounds (value min max : float) :
  is_num value = true -> (min <=? max)%float = true ->
  (min <=? Utils.clamp value min max)%float = true /\
  (Utils.clamp value min max <=? max)%float = true /\
  ((min <=? value)%float = true -> (value <=? max)%float = true ->
   (Utils.clamp value min max =? value)%float = true) /\
  (Utils.clamp (Utils.clamp value min max) min max =? Utils.clamp value min max)%float = true.
Proof.
  intros Nv L. apply leb_iff in L. destruct L as (Nlo & Nhi & L).
  destruct (clamp_val value min max Nv Nlo Nhi) as (Nc & Vc).
  destruct (clamp_val _ min max Nc Nlo Nhi) as (Ncc & Vcc).
  split; [apply leb_iff; repeat split; try assumption; lia|].
  split; [apply leb_iff; repeat split; try assumption; lia|].
  split.
  - intros A B. apply leb_iff in A, B. apply eqb_iff. repeat split; try assumption. lia.
  - apply eqb_iff. repeat split; try assumption. lia.
Qed.

Lemma clamp_within_bounds_witness :
  (0 <=? Utils.clamp 5 0 1)%float = true /\
  (Utils.clamp 5 0 1 <=? 1)%float = true /\
  ((0 <=? 5)%float = true -> (5 <=? 1)%float = true ->
   (Utils.clamp 5 0 1 =? 5)%float = true) /\
  (Utils.clamp (Utils.clamp 5 0 1) 0 1 =? Utils.clamp 5 0 1)%float = true.
Proof.
  apply (clamp_within_bounds 5 0 1); reflexivity.
Defined.

(** X12. [clamp] checks nothing.  If value, min or max is NaN the result is
    NaN; and if the bounds come in the wrong order, max < min, the result is
    max whatever the value is. *)
Theorem clamp_unchecked (value min max : float) :
  (is_nan value || is_nan min || is_nan max = true ->
   Utils.clamp value min max = nan) /\
  (is_num value = true -> (max <? min)%float = true ->
   (Utils.clamp value min max =? max)%float = true).
Proof.
  split.
  - intros H. unfold Utils.clamp, JS.Math_min, JS.Math_max.
    destruct (is_nan value); [reflexivity|].
    destruct (is_nan min); [reflexivity|].
    cbn [orb] in H. rewrite H. cbn [orb].
    now rewrite orb_true_r.
  - intros Nv L. apply ltb_iff in L. destruct L as (Nhi & Nlo & L).
    destruct (clamp_val value min max Nv Nlo Nhi) as (Nc & Vc).
    apply eqb_iff. repeat split; try assumption. lia.
Qed.

End Clamp.

(** ** [formatHash] *)
Section FormatHash.

Lemma substring_none (n : nat) (s : string) : String.substring n 0 s = EmptyString.
Proof.
  revert s; induction n as [|n IH]; intros s; destruct s; cbn; auto.
Qed.

Lemma substring_skip (a b : string) (m : nat) :
  String.substring (String.length a) m (a ++ b) = String.substring 0 m b.
Proof. induction a as [|c a IH]; cbn [String.length append String.substring]; auto. Qed.

Lemma append_assoc (a b c : string) : ((a ++ b) ++ c = a ++ b ++ c)%string.
Proof. induction a as [|x a IH]; cbn [append]; [reflexivity|now rewrite IH]. Qed.

Lemma substring_length (n m : nat) (s : string) :
  (n + m <= String.length s)%nat -> String.length (String.substring n m s) = m.
Proof.
  revert m s; induction n as [|n IH]; intros m s H.
  - rewrite substring_0_length. lia.
  - destruct s as [|c s]; cbn [String.length] in H; [lia|].
    cbn [String.substring]. apply IH. lia.
Qed.

(** Where [formatHash] cuts, it keeps [length] characters at each end. *)
Lemma formatHash_cut (hash : string) (length : Z) :
  0 <= length -> length * 2 < Z.of_nat (String.length hash) ->
  Utils.formatHash hash length =
  (String.substring 0 (Z.to_nat length) hash ++ "..." ++
   String.substring (String.length hash - Z.to_nat length) (Z.to_nat length) hash)%string.
Proof.
  intros H0 H. unfold Utils.formatHash, JS.substring. cbv zeta.
  set (len := Z.of_nat (String.length hash)) in *.
  destruct (len <=? length * 2) eqn:E; [apply Z.leb_le in E; lia|].
  replace (Z.min (Z.max 0 0) len) with 0 by lia.
  replace (Z.min (Z.max length 0) len) with length by lia.
  replace (Z.min (Z.max (len - length) 0) len) with (len - length) by lia.
  replace (Z.min (Z.max len 0) len) with len by lia.
  replace (Z.min 0 length) with 0 by lia.
  replace (Z.max 0 length) with length by lia.
  replace (Z.min (len - length) len) with (len - length) by lia.
  replace (Z.max (len - length) len) with len by lia.
  replace (length - 0) with length by lia.
  replace (len - (len - length)) with length by lia.
  replace (Z.to_nat (len - length)) with (String.length hash - Z.to_nat length)%nat
    by (unfold len; lia).
  reflexivity.
Qed.

Lemma formatHash_negative (hash : string) (length : Z) :
  length < 0 -> Utils.formatHash hash length = "..."%string.
Proof.
  intros H. unfold Utils.formatHash, JS.substring. cbv zeta.
  set (len := Z.of_nat (String.length hash)) in *.
  assert (L : 0 <= len) by (unfold len; lia).
  destruct (len <=? length * 2) eqn:E; [apply Z.leb_le in E; lia|].
  replace (Z.min (Z.max 0 0) len) with 0 by lia.
  replace (Z.min (Z.max length 0) len) with 0 by lia.
  replace (Z.min (Z.max (len - length) 0) len) with len by lia.
  replace (Z.min (Z.max len 0) len) with len by lia.
  replace (Z.min 0 0) with 0 by lia. replace (Z.max 0 0) with 0 by lia.
  replace (Z.min len len) with len by lia. replace (Z.max len len) with len by lia.
  replace (Z.to_nat (0 - 0)) with 0%nat by lia.
  replace (Z.to_nat (len - len)) with 0%nat by lia.
  now rewrite !substring_none.
Qed.

(** X13. [formatHash].  A hash of at most 2*length characters is returned
    as it is.  A longer one (length >= 0) becomes its first length
    characters, three dots, and its last length characters: 2*length + 3
    characters in all, which is more than the hash had when it had
    2*length + 1 or 2*length + 2.  Formatting the result again changes
    nothing, whatever the hash and the length. *)
Theorem formatHash_shape (hash : string) (length : Z) :
  (Z.of_nat (String.length hash) <= length * 2 -> Utils.formatHash hash length = hash) /\
  (0 <= length -> length * 2 < Z.of_nat (String.length hash) ->
   Utils.formatHash hash length =
     (String.substring 0 (Z.to_nat length) hash ++ "..." ++
      String.substring (String.length hash - Z.to_nat length) (Z.to_nat length) hash)%string /\
   Z.of_nat (String.length (Utils.formatHash hash length)) = 2 * length + 3) /\
  Utils.formatHash (Utils.formatHash hash length) length = Utils.formatHash hash length.
Proof.
  assert (A : Z.of_nat (String.length hash) <= length * 2 ->
              Utils.formatHash hash length = hash).
  { intros H. unfold Utils.formatHash. cbv zeta.
    apply Z.leb_le in H. now rewrite H. }
  assert (B : 0 <= length -> length * 2 < Z.of_nat (String.length hash) ->
              String.length (String.substring 0 (Z.to_nat length) hash) = Z.to_nat length /\
              String.length (String.substring (String.length hash - Z.to_nat length)
                               (Z.to_nat length) hash) = Z.to_nat length).
  { intros H0 H. split; apply substring_length; lia. }
  split; [exact A|]. split.
  - intros H0 H. split; [now apply formatHash_cut|].
    rewrite formatHash_cut by assumption. destruct (B H0 H) as (Lp & Lq).
    rewrite !length_append, Lp, Lq. cbn [String.length]. lia.
  - destruct (Z_lt_le_dec length 0) as [N|H0].
    { rewrite !formatHash_negative by assumption. reflexivity. }
    destruct (Z_le_gt_dec (Z.of_nat (String.length hash)) (length * 2)) as [S|G].
    { now rewrite !A by (try rewrite A by assumption; assumption). }
    destruct (B H0 ltac:(lia)) as (Lp & Lq).
    rewrite (formatHash_cut hash) by lia.
    set (p := String.substring 0 (Z.to_nat length) hash) in *.
    set (q := String.substring (String.length hash - Z.to_nat length) (Z.to_nat length) hash) in *.
    clearbody p q.
    assert (Len : String.length (p ++ "..." ++ q) = (Z.to_nat length + 3 + Z.to_nat length)%nat).
    { rewrite !length_append, Lp, Lq. cbn [String.length]. lia. }
    rewrite formatHash_cut by lia. rewrite Len.
    f_equal.
    + rewrite <- Lp at 1. apply substring_0_append.
    + f_equal.
      replace (Z.to_nat length + 3 + Z.to_nat length - Z.to_nat length)%nat
        with (String.length (p ++ "..."))
        by (rewrite length_append, Lp; cbn [String.length]; lia).
      rewrite <- (append_assoc p "..." q), substring_skip.
      apply substring_0_all. lia.
Qed.

End FormatHash.

(** ** The two clamps *)
Section TwoClamps.
Import PlinkoEngine Binary64.

(** Numbers of the same value are the same float, unless the value is 0. *)
Lemma val_inj (x y : float) :
  is_num x = true -> is_num y = true -> val x = val y -> val x <> 0 -> x = y.
Proof.
  unfold is_num, val. intros Nx Ny E Z0. apply Prim2SF_inj.
  pose proof (Prim2SF_valid x) as Vx. pose proof (Prim2SF_valid y) as Vy.
  pose proof top_pos as T.
  destruct (Prim2SF x) as [sx|sx| |sx mx ex]; try discriminate;
    destruct (Prim2SF y) as [sy|sy| |sy my ey]; try discriminate;
    cbn [SFval] in E, Z0;
    try pose proof (valid_val_bounds _ _ _ Vx) as Bx;
    try pose proof (valid_val_bounds _ _ _ Vy) as By;
    try (exfalso; lia).
  - destruct sx, sy; try reflexivity; exfalso; lia.
  - exfalso. destruct sx, sy; lia.
  - exfalso. destruct sx, sy; lia.
  - assert (S : sx = sy) by (destruct sx, sy; try reflexivity; exfalso; lia).
    subst sy.
    assert (M : Zpos mx * 2 ^ (ex + 1074) = Zpos my * 2 ^ (ey + 1074))
      by (destruct sx; lia).
    apply Z.compare_eq_iff in M. rewrite (canonical_compare sx sx mx my ex ey Vx Vy) in M.
    destruct (Z.compare_spec ex ey) as [Ee|L|G]; try discriminate.
    apply Pos.compare_eq in M. now subst.
Qed.

Lemma val_zero (x : float) :
  is_num x = true -> val x = 0 -> x = 0%float \/ x = neg_zero.
Proof.
  unfold is_num, val. intros Nx E.
  pose proof (Prim2SF_valid x) as Vx. pose proof top_pos as T.
  destruct (Prim2SF x) as [s|s| |s m e] eqn:P; try discriminate; cbn [SFval] in E.
  - destruct s; [right|left]; apply Prim2SF_inj; rewrite P; reflexivity.
  - exfalso. destruct s; lia.
  - exfalso. pose proof (valid_val_bounds _ _ _ Vx). destruct s; lia.
Qed.

Lemma ltb_of_val (a b : float) :
  is_num a = true -> is_num b = true ->
  (a <? b)%float = (val a <? val b).
Proof.
  intros Na Nb. destruct (val a <? val b) eqn:E.
  - apply Z.ltb_lt in E. apply ltb_iff. now repeat split.
  - apply Z.ltb_ge in E. now apply ltb_false_iff.
Qed.

(** X14. The clamp written out in [simulateDrop] is [clamp] of the
    utilities: for every peg bias and every adjustment,
    Math.max(0, Math.min(1, bias + adj)) and clamp(bias + adj, 0, 1) are the
    same number, NaN and the sign of zero included. *)
Theorem adjustedBias_is_clamp (leftBias adj : float) :
  adjustedBias_of leftBias adj = Utils.clamp (leftBias + adj) 0 1.
Proof.
  unfold adjustedBias_of, Utils.clamp.
  generalize (leftBias + adj)%float. intros x.
  destruct (is_num x) eqn:Nx.
  2:{ apply is_nan_true in Nx. unfold JS.Math_min, JS.Math_max. rewrite Nx.
      rewrite orb_true_r. cbn [orb]. reflexivity. }
  assert (N0 : is_num 0 = true) by reflexivity.
  assert (N1 : is_num 1 = true) by reflexivity.
  assert (V0 : val 0 = 0) by reflexivity.
  assert (P1 : 0 < val 1) by (apply Z.ltb_lt; reflexivity).
  unfold JS.Math_min at 1. unfold JS.Math_max at 2.
  rewrite (is_nan_false x Nx). change (is_nan 1) with false. change (is_nan 0) with false.
  cbn [orb].
  rewrite (ltb_of_val 1 x N1 Nx), (ltb_of_val x 1 Nx N1),
    (ltb_of_val x 0 Nx N0), (ltb_of_val 0 x N0 Nx), V0.
  change (JS.is_neg_zero 1) with false. cbv iota.
  destruct (Z.ltb_spec (val 1) (val x)) as [A|A].
  { (* above 1 *)
    destruct (Z.ltb_spec (val x) 0) as [B|B]; [lia|].
    destruct (Z.ltb_spec 0 (val x)) as [C|C]; [|lia].
    unfold JS.Math_min. rewrite (is_nan_false x Nx). change (is_nan 1) with false.
    cbn [orb]. rewrite (ltb_of_val x 1 Nx N1), (ltb_of_val 1 x N1 Nx).
    destruct (Z.ltb_spec (val x) (val 1)); [lia|].
    destruct (Z.ltb_spec (val 1) (val x)); [reflexivity|lia]. }
  assert (W : (if val x <? val 1 then x else x) = x) by (now destruct (val x <? val 1)).
  rewrite W. clear W.
  unfold JS.Math_max. rewrite (is_nan_false x Nx). change (is_nan 0) with false. cbn [orb].
  rewrite (ltb_of_val 0 x N0 Nx), (ltb_of_val x 0 Nx N0), V0.
  change (JS.is_neg_zero 0) with false. cbv iota.
  destruct (Z.ltb_spec 0 (val x)) as [C|C].
  { (* in (0, 1] *)
    destruct (Z.ltb_spec (val x) 0) as [B|B]; [lia|].
    unfold JS.Math_min. rewrite (is_nan_false x Nx). change (is_nan 1) with false.
    cbn [orb]. rewrite (ltb_of_val x 1 Nx N1), (ltb_of_val 1 x N1 Nx).
    destruct (Z.ltb_spec (val x) (val 1)) as [D|D]; [reflexivity|].
    destruct (Z.ltb_spec (val 1) (val x)); [lia|].
    assert (E : x = 1%float) by (apply val_inj; try assumption; lia).
    rewrite E. reflexivity. }
  destruct (Z.ltb_spec (val x) 0) as [B|B]; [reflexivity|].
  (* a zero *)
  destruct (val_zero x Nx ltac:(lia)) as [-> | ->]; reflexivity.
Qed.

End TwoClamps.

(** ** The verification endpoint *)
Section Verify.
Import PlinkoEngine Stream Measure.

(** What [GET] answers once its checks have passed. *)
Lemma GET_accepts (s c n d : string) (col : Z) (g : GameResult) :
  s <> EmptyString -> c <> EmptyString -> n <> EmptyString ->
  JS.parseInt d = JS.Int col -> 0 <= col <= 12 ->
  playRound s c n (JS.Z2F col) 12 100 = Returns g ->
  VerifyRoute.GET (Some s) (Some c) (Some n) (Some d) =
  VerifyRoute.Ok
    {| VerifyRoute.serverSeed := s;
       VerifyRoute.clientSeed := c;
       VerifyRoute.nonce := n;
       VerifyRoute.dropColumn := col;
       VerifyRoute.commitHex := ProvablyFairProtocol.createCommitHash s n;
       VerifyRoute.combinedSeed := ProvablyFairProtocol.generateCombinedSeed s c n;
       VerifyRoute.pegMapHash := pegMapHash g;
       VerifyRoute.binIndex := binIndex g;
       VerifyRoute.payoutMultiplier := payoutMultiplier g;
       VerifyRoute.pegMap := pegMap g;
       VerifyRoute.path := path g;
       VerifyRoute.commitValid := true;
       VerifyRoute.rows := 12 |}.
Proof.
  intros Hs Hc Hn Hd Hcol Hplay.
  unfold VerifyRoute.GET, VerifyRoute.not, VerifyRoute.is_null, VerifyRoute.text.
  apply String.eqb_neq in Hs, Hc, Hn. rewrite Hs, Hc, Hn. cbn [orb].
  rewrite Hd.
  destruct (col <? 0) eqn:A; [apply Z.ltb_lt in A; lia|].
  destruct (12 <? col) eqn:B; [apply Z.ltb_lt in B; lia|]. cbn [orb].
  rewrite Hplay.
  unfold ProvablyFairProtocol.verifyCommit. rewrite String.eqb_refl. reflexivity.
Qed.

(** The bin of a round of 12 rows. *)
Lemma playRound_12 (s c n : string) (col : float) (betCents : Z) :
  exists g : GameResult,
    playRound s c n col 12 betCents = Returns g /\ (binIndex g <= 12)%nat /\
    combinedSeed g = ProvablyFairProtocol.generateCombinedSeed s c n /\
    forall betCents' : Z,
      exists g' : GameResult,
        playRound s c n col 12 betCents' = Returns g' /\
        pegMap g' = pegMap g /\ pegMapHash g' = pegMapHash g /\ path g' = path g /\
        binIndex g' = binIndex g /\ payoutMultiplier g' = payoutMultiplier g /\
        combinedSeed g' = combinedSeed g.
Proof.
  destruct (playRound_returns s c n col 12 betCents) as (step & Hlast & Hplay); [lia|].
  eexists. split; [exact Hplay|]. split.
  { cbn [binIndex]. apply last_nth_error in Hlast. rewrite walk_length in Hlast.
    apply walk_step in Hlast. lia. }
  split; [reflexivity|].
  intros b'.
  destruct (playRound_returns s c n col 12 b') as (step' & Hlast' & Hplay'); [lia|].
  rewrite Hlast in Hlast'. assert (E : step' = step) by congruence. rewrite E in Hplay'.
  eexists. split; [exact Hplay'|].
  cbn [pegMap pegMapHash path binIndex payoutMultiplier combinedSeed].
  repeat split.
Qed.

Lemma GET_rejects (serverSeed clientSeed nonce dropColumn : option string) :
  VerifyRoute.not serverSeed || VerifyRoute.not clientSeed || VerifyRoute.not nonce
    || VerifyRoute.is_null dropColumn = true \/
  JS.parseInt (VerifyRoute.text dropColumn) = JS.NaN \/
  (exists col, JS.parseInt (VerifyRoute.text dropColumn) = JS.Int col /\ (col < 0 \/ 12 < col)) ->
  exists error : string,
    VerifyRoute.GET serverSeed clientSeed nonce dropColumn = VerifyRoute.Error 400 error.
Proof.
  intros H. unfold VerifyRoute.GET.
  destruct (VerifyRoute.not serverSeed || VerifyRoute.not clientSeed
            || VerifyRoute.not nonce || VerifyRoute.is_null dropColumn);
    [eexists; reflexivity|].
  destruct H as [H|[H|(col & H & R)]]; [discriminate| |]; rewrite H.
  - eexists; reflexivity.
  - destruct (col <? 0) eqn:A; [eexists; reflexivity|].
    destruct (12 <? col) eqn:B; [eexists; reflexivity|].
    apply Z.ltb_ge in A, B. lia.
Qed.

Lemma not_false (p : option string) :
  VerifyRoute.not p = false -> exists s, p = Some s /\ s <> EmptyString.
Proof.
  destruct p as [s|]; [|discriminate]. cbn. intros H.
  exists s. split; [reflexivity|]. now apply String.eqb_neq.
Qed.

(** X15. The verification endpoint answers 200 or 400, never 500, and its
    [commitValid] is always true.  Whatever the four query parameters are:
    either the answer is an error with status 400, or it is a body in which
    [commitValid] is true, [commitHex] is the commitment recomputed from the
    body's own server seed and nonce, [rows] is 12, the drop column lies in
    [0, 12] and the bin index is at most 12.  The commitment a player was
    given is not among the parameters, so the answer cannot depend on it. *)
Theorem verify_answers_200_or_400
    (serverSeed clientSeed nonce dropColumn : option string) :
  (exists error : string,
     VerifyRoute.GET serverSeed clientSeed nonce dropColumn = VerifyRoute.Error 400 error) \/
  (exists body : VerifyRoute.Body,
     VerifyRoute.GET serverSeed clientSeed nonce dropColumn = VerifyRoute.Ok body /\
     VerifyRoute.commitValid body = true /\
     VerifyRoute.commitHex body =
       ProvablyFairProtocol.createCommitHash
         (VerifyRoute.serverSeed body) (VerifyRoute.nonce body) /\
     VerifyRoute.combinedSeed body =
       ProvablyFairProtocol.generateCombinedSeed
         (VerifyRoute.serverSeed body) (VerifyRoute.clientSeed body) (VerifyRoute.nonce body) /\
     serverSeed = Some (VerifyRoute.serverSeed body) /\
     clientSeed = Some (VerifyRoute.clientSeed body) /\
     nonce = Some (VerifyRoute.nonce body) /\
     VerifyRoute.rows body = 12 /\
     0 <= VerifyRoute.dropColumn body <= 12 /\
     (VerifyRoute.binIndex body <= 12)%nat).
Proof.
  destruct (VerifyRoute.not serverSeed || VerifyRoute.not clientSeed
            || VerifyRoute.not nonce || VerifyRoute.is_null dropColumn) eqn:E.
  { left. apply GET_rejects. now left. }
  apply orb_false_elim in E. destruct E as (E & Ed).
  apply orb_false_elim in E. destruct E as (E & En).
  apply orb_false_elim in E. destruct E as (Es & Ec).
  destruct (not_false _ Es) as (s & -> & Hs).
  destruct (not_false _ Ec) as (c & -> & Hc).
  destruct (not_false _ En) as (n & -> & Hn).
  destruct dropColumn as [d|]; [|discriminate].
  destruct (JS.parseInt d) as [|col] eqn:P.
  { left. apply GET_rejects. right. left. exact P. }
  destruct (Z_lt_le_dec col 0) as [A|A].
  { left. apply GET_rejects. right. right. exists col. split; [exact P|lia]. }
  destruct (Z_lt_le_dec 12 col) as [B|B].
  { left. apply GET_rejects. right. right. exists col. split; [exact P|lia]. }
  right. destruct (playRound_12 s c n (JS.Z2F col) 100) as (g & Hg & Hb & _ & _).
  eexists. split; [apply (GET_accepts s c n d col g); try assumption; lia|].
  cbn [VerifyRoute.commitValid VerifyRoute.commitHex VerifyRoute.combinedSeed
       VerifyRoute.serverSeed VerifyRoute.clientSeed VerifyRoute.nonce
       VerifyRoute.rows VerifyRoute.dropColumn VerifyRoute.binIndex].
  repeat split; try reflexivity; try lia.
Qed.

(** X16. What the endpoint reports is what the round was, whatever was
    staked.  If [GET] answers with a body, then [playRound] on the body's
    seeds, nonce and drop column with 12 rows returns, for every stake, a
    result with the body's peg map, peg map hash, path, bin index, payout
    multiplier and combined seed. *)
Theorem verify_replays_any_stake
    (serverSeed clientSeed nonce dropColumn : option string) (body : VerifyRoute.Body)
    (betCents : Z) :
  VerifyRoute.GET serverSeed clientSeed nonce dropColumn = VerifyRoute.Ok body ->
  exists g : GameResult,
    playRound (VerifyRoute.serverSeed body) (VerifyRoute.clientSeed body)
      (VerifyRoute.nonce body) (JS.Z2F (VerifyRoute.dropColumn body)) 12 betCents =
      Returns g /\
    pegMap g = VerifyRoute.pegMap body /\
    pegMapHash g = VerifyRoute.pegMapHash body /\
    path g = VerifyRoute.path body /\
    binIndex g = VerifyRoute.binIndex body /\
    payoutMultiplier g = VerifyRoute.payoutMultiplier body /\
    combinedSeed g = VerifyRoute.combinedSeed body.
Proof.
  intros H.
  destruct (VerifyRoute.not serverSeed || VerifyRoute.not clientSeed
            || VerifyRoute.not nonce || VerifyRoute.is_null dropColumn) eqn:E.
  { destruct (GET_rejects serverSeed clientSeed nonce dropColumn) as (e & He);
      [now left|congruence]. }
  apply orb_false_elim in E. destruct E as (E & Ed).
  apply orb_false_elim in E. destruct E as (E & En).
  apply orb_false_elim in E. destruct E as (Es & Ec).
  destruct (not_false _ Es) as (s & -> & Hs).
  destruct (not_false _ Ec) as (c & -> & Hc).
  destruct (not_false _ En) as (n & -> & Hn).
  destruct dropColumn as [d|]; [|discriminate].
  destruct (JS.parseInt d) as [|col] eqn:P.
  { destruct (GET_rejects (Some s) (Some c) (Some n) (Some d)) as (e & He);
      [right; left; exact P|congruence]. }
  destruct (Z_lt_le_dec col 0) as [A|A].
  { destruct (GET_rejects (Some s) (Some c) (Some n) (Some d)) as (e & He);
      [right; right; exists col; split; [exact P|lia]|congruence]. }
  destruct (Z_lt_le_dec 12 col) as [B|B].
  { destruct (GET_rejects (Some s) (Some c) (Some n) (Some d)) as (e & He);
      [right; right; exists col; split; [exact P|lia]|congruence]. }
  destruct (playRound_12 s c n (JS.Z2F col) 100) as (g & Hg & _ & Hseed & Same).
  rewrite (GET_accepts s c n d col g) in H by (try assumption; lia).
  assert (E : body =
              {| VerifyRoute.serverSeed := s;
                 VerifyRoute.clientSeed := c;
                 VerifyRoute.nonce := n;
                 VerifyRoute.dropColumn := col;
                 VerifyRoute.commitHex := ProvablyFairProtocol.createCommitHash s n;
                 VerifyRoute.combinedSeed := ProvablyFairProtocol.generateCombinedSeed s c n;
                 VerifyRoute.pegMapHash := pegMapHash g;
                 VerifyRoute.binIndex := binIndex g;
                 VerifyRoute.payoutMultiplier := payoutMultiplier g;
                 VerifyRoute.pegMap := pegMap g;
                 VerifyRoute.path := path g;
                 VerifyRoute.commitValid := true;
                 VerifyRoute.rows := 12 |}) by congruence.
  rewrite E.
  cbn [VerifyRoute.serverSeed VerifyRoute.clientSeed VerifyRoute.nonce
       VerifyRoute.dropColumn VerifyRoute.pegMap VerifyRoute.pegMapHash VerifyRoute.path
       VerifyRoute.binIndex VerifyRoute.payoutMultiplier VerifyRoute.combinedSeed].
  destruct (Same betCents) as (g' & Hg' & E1 & E2 & E3 & E4 & E5 & E6).
  exists g'. split; [exact Hg'|]. repeat split; try assumption.
  now rewrite E6.
Qed.

Lemma verify_replays_any_stake_witness :
  exists body : VerifyRoute.Body,
    VerifyRoute.GET (Some Vector.serverSeed) (Some Vector.clientSeed) (Some Vector.nonce)
      (Some "6"%string) = VerifyRoute.Ok body /\
    exists g : GameResult,
      playRound (VerifyRoute.serverSeed body) (VerifyRoute.clientSeed body)
        (VerifyRoute.nonce body) (JS.Z2F (VerifyRoute.dropColumn body)) 12 250 =
        Returns g /\
      pegMap g = VerifyRoute.pegMap body /\
      pegMapHash g = VerifyRoute.pegMapHash body /\
      path g = VerifyRoute.path body /\
      binIndex g = VerifyRoute.binIndex body /\
      payoutMultiplier g = VerifyRoute.payoutMultiplier body /\
      combinedSeed g = VerifyRoute.combinedSeed body.
Proof.
  eexists. split; [vm_compute; reflexivity|].
  apply (verify_replays_any_stake
           (Some Vector.serverSeed) (Some Vector.clientSeed) (Some Vector.nonce)
           (Some "6"%string) _ 250).
  vm_compute. reflexivity.
Defined.

End Verify.

(** ** What the endpoint takes for a drop column *)
Section Lenient.
Import PlinkoEngine Measure.

Lemma trim_start_pad (pad t : string) :
  forallb JS.is_white_space (list_ascii_of_string pad) = true ->
  JS.trim_start (pad ++ t) = JS.trim_start t.
Proof.
  induction pad as [|ch pad IH]; intros H; [reflexivity|].
  cbn [list_ascii_of_string forallb] in H. apply andb_prop in H.
  destruct H as (Hc & Hp). cbn [append JS.trim_start]. rewrite Hc. now apply IH.
Qed.

Lemma digits_stop (rest : string) (acc : option Z) :
  stops_number rest = true -> JS.digits 10 rest acc = acc.
Proof.
  destruct rest as [|ch r]; [reflexivity|]. cbn [stops_number JS.digits].
  destruct (JS.digit_value 10 ch); [discriminate|reflexivity].
Qed.

Lemma no_prefix_after_0 (rest : string) :
  stops_number rest = true ->
  JS.has_0x (String "0" rest) = false /\ JS.strip_0x (String "0" rest) = String "0" rest.
Proof.
  destruct rest as [|ch r]; [split; reflexivity|]. cbn [stops_number].
  destruct ch as [b0 b1 b2 b3 b4 b5 b6 b7].
  destruct b0, b1, b2, b3, b4, b5, b6, b7; intros H; try discriminate H; split; reflexivity.
Qed.

(** A text that starts with a decimal digit is read in radix 10, unsigned,
    unless it starts with the prefix [0x]. *)
Lemma parseInt_unsigned (ch : ascii) (t : string) :
  JS.digit_value 10 ch <> None ->
  JS.has_0x (String ch t) = false ->
  JS.parseInt (String ch t) =
  match JS.digits 10 (JS.strip_0x (String ch t)) None with
  | Some v => JS.Int (1 * v)
  | None => JS.NaN
  end.
Proof.
  intros D H. unfold JS.parseInt.
  destruct ch as [b0 b1 b2 b3 b4 b5 b6 b7].
  destruct b0, b1, b2, b3, b4, b5, b6, b7;
    try (exfalso; apply D; reflexivity);
    cbn [JS.trim_start];
    match goal with
    | |- context [JS.is_white_space ?c] =>
        let v := eval vm_compute in (JS.is_white_space c) in
        change (JS.is_white_space c) with v
    end;
    cbv beta iota zeta; rewrite H; reflexivity.
Qed.

(** The thirteen columns, written in decimal and followed by anything that
    ends a number, are read as themselves. *)
Lemma parseInt_column (col : Z) (rest : string) :
  0 <= col <= 12 -> stops_number rest = true ->
  JS.parseInt (JS.decimal col ++ rest) = JS.Int col.
Proof.
  intros Hcol Hrest.
  assert (C : col = 0 \/ col = 1 \/ col = 2 \/ col = 3 \/ col = 4 \/ col = 5 \/ col = 6 \/
              col = 7 \/ col = 8 \/ col = 9 \/ col = 10 \/ col = 11 \/ col = 12) by lia.
  destruct (no_prefix_after_0 rest Hrest) as (P0 & S0).
  repeat (destruct C as [C|C]); subst col;
    match goal with
    | |- context [JS.decimal ?c] =>
        let s := eval vm_compute in (JS.decimal c) in change (JS.decimal c) with s
    end;
    cbn [append];
    (rewrite parseInt_unsigned; [|discriminate|first [exact P0|reflexivity]]);
    try rewrite S0;
    cbn [JS.strip_0x JS.digits];
    repeat match goal with
           | |- context [JS.digit_value 10 ?c] =>
               let v := eval vm_compute in (JS.digit_value 10 c) in
               change (JS.digit_value 10 c) with v
           end;
    cbn iota; rewrite digits_stop by exact Hrest; reflexivity.
Qed.

(** X17. The endpoint reads the drop column as [parseInt] does: leading
    white space is skipped and whatever follows the number is ignored.  For
    every column 0..12, the column written in decimal, after any white space
    and before any text that does not start with a decimal digit or with x,
    gets the answer the plain decimal column gets. *)
Theorem verify_reads_number_prefix
    (serverSeed clientSeed nonce : option string) (pad rest : string) (col : Z) :
  forallb JS.is_white_space (list_ascii_of_string pad) = true ->
  stops_number rest = true -> 0 <= col <= 12 ->
  JS.parseInt (pad ++ JS.decimal col ++ rest) = JS.Int col /\
  VerifyRoute.GET serverSeed clientSeed nonce (Some (pad ++ JS.decimal col ++ rest)%string) =
  VerifyRoute.GET serverSeed clientSeed nonce (Some (JS.decimal col)).
Proof.
  intros Hpad Hrest Hcol.
  assert (P : JS.parseInt (pad ++ JS.decimal col ++ rest) = JS.Int col).
  { unfold JS.parseInt. rewrite trim_start_pad by exact Hpad.
    now apply parseInt_column. }
  assert (Q : JS.parseInt (JS.decimal col) = JS.Int col).
  { rewrite <- (parseInt_column col EmptyString Hcol eq_refl).
    f_equal. clear. induction (JS.decimal col) as [|ch s IH]; cbn; [reflexivity|now rewrite <- IH]. }
  split; [exact P|].
  unfold VerifyRoute.GET. cbn [VerifyRoute.is_null VerifyRoute.text].
  now rewrite P, Q.
Qed.

Lemma verify_reads_number_prefix_witness :
  JS.parseInt ("  " ++ JS.decimal 6 ++ "abc") = JS.Int 6 /\
  VerifyRoute.GET (Some Vector.serverSeed) (Some Vector.clientSeed) (Some Vector.nonce)
    (Some ("  " ++ JS.decimal 6 ++ "abc")%string) =
  VerifyRoute.GET (Some Vector.serverSeed) (Some Vector.clientSeed) (Some Vector.nonce)
    (Some (JS.decimal 6)).
Proof.
  apply (verify_reads_number_prefix
           (Some Vector.serverSeed) (Some Vector.clientSeed) (Some Vector.nonce)
           "  " "abc" 6); [reflexivity|reflexivity|lia].
Defined.

End Lenient.

(** ** Decimal digits *)
Section DecimalDigits.

Lemma decimal_loop_acc (fuel : nat) (n : Z) (acc : string) :
  JS.decimal_loop fuel n acc = (JS.decimal_loop fuel n EmptyString ++ acc)%string.
Proof.
  revert n acc; induction fuel as [|fuel IH]; intros n acc; [reflexivity|].
  cbn [JS.decimal_loop]. cbv zeta.
  destruct (n <? 10); [reflexivity|].
  rewrite IH, (IH _ (String _ EmptyString)), append_assoc. reflexivity.
Qed.

(** Fuel beyond the number of digits changes nothing. *)
Lemma decimal_loop_fuel (f1 f2 : nat) (n : Z) (acc : string) :
  0 <= n < 10 ^ Z.of_nat (S f1) -> (f1 <= f2)%nat ->
  JS.decimal_loop (S f1) n acc = JS.decimal_loop (S f2) n acc.
Proof.
  revert f2 n acc; induction f1 as [|f1 IH]; intros f2 n acc Hn Hf.
  - cbn [JS.decimal_loop]. cbv zeta. change (10 ^ Z.of_nat 1) with 10 in Hn.
    destruct (Z.ltb_spec n 10); [reflexivity|lia].
  - destruct f2 as [|f2]; [lia|].
    cbn [JS.decimal_loop]. cbv zeta.
    destruct (Z.ltb_spec n 10) as [L|G]; [reflexivity|].
    apply (IH f2 (n / 10)); [|lia].
    rewrite Nat2Z.inj_succ, Z.pow_succ_r in Hn by lia.
    split; [apply Z.div_pos; lia|]. apply Z.div_lt_upper_bound; lia.
Qed.

Lemma log2_fuel (n : Z) : 0 <= n -> n < 10 ^ Z.of_nat (S (Z.to_nat (Z.log2 n))).
Proof.
  intros Hn. rewrite Nat2Z.inj_succ, Z2Nat.id by apply Z.log2_nonneg.
  destruct (Z.eq_dec n 0) as [->|N]; [reflexivity|].
  pose proof (Z.log2_spec n ltac:(lia)) as (_ & U).
  pose proof (Z.log2_nonneg n) as L.
  apply (Z.lt_le_trans _ _ _ U).
  apply Z.pow_le_mono_l. lia.
Qed.

Lemma decimal_small (n : Z) :
  0 <= n < 10 -> JS.decimal n = String (ascii_of_nat (Z.to_nat (48 + n))) EmptyString.
Proof.
  intros Hn. unfold JS.decimal. cbn [JS.decimal_loop]. cbv zeta.
  destruct (Z.ltb_spec n 10); [|lia]. now rewrite Z.mod_small by lia.
Qed.

Lemma decimal_step (n : Z) :
  10 <= n ->
  JS.decimal n =
  (JS.decimal (n / 10) ++ String (ascii_of_nat (Z.to_nat (48 + n mod 10))) EmptyString)%string.
Proof.
  intros Hn. unfold JS.decimal at 1. cbn [JS.decimal_loop]. cbv zeta.
  destruct (Z.ltb_spec n 10); [lia|].
  rewrite decimal_loop_acc. f_equal.
  assert (Q : 0 <= n / 10) by (apply Z.div_pos; lia).
  assert (L : 3 <= Z.log2 n) by (apply Z.log2_le_pow2; lia).
  destruct (Z.to_nat (Z.log2 n)) as [|k] eqn:K; [lia|].
  unfold JS.decimal.
  set (j := Z.to_nat (Z.log2 (n / 10))).
  rewrite (decimal_loop_fuel k (Nat.max k j)); [|split; [exact Q|]|lia].
  - symmetry. apply decimal_loop_fuel; [|lia]. split; [exact Q|]. now apply log2_fuel.
  - pose proof (Z.log2_spec n ltac:(lia)) as (_ & U).
    rewrite <- K, Z2Nat.id by lia.
    assert (E : 2 ^ Z.succ (Z.log2 n) = 8 * 2 ^ (Z.log2 n - 2)).
    { replace (Z.succ (Z.log2 n)) with (3 + (Z.log2 n - 2)) by lia.
      now rewrite Z.pow_add_r by lia. }
    assert (P : 2 ^ (Z.log2 n - 2) <= 10 ^ Z.log2 n).
    { apply (Z.le_trans _ (2 ^ Z.log2 n)); [apply Z.pow_le_mono_r; lia|].
      apply Z.pow_le_mono_l; lia. }
    apply Z.div_lt_upper_bound; lia.
Qed.

Lemma decimal_nonempty (n : Z) : (1 <= String.length (JS.decimal n))%nat.
Proof.
  unfold JS.decimal. cbn [JS.decimal_loop]. cbv zeta.
  destruct (n <? 10); [cbn; lia|].
  rewrite decimal_loop_acc, length_append. cbn [String.length]. lia.
Qed.

(** An amount in hundredths, laid out with two decimals. *)
Lemma place_2 (n : Z) :
  0 <= n ->
  JS.place n 2 =
  (JS.decimal (n / 100) ++ "." ++
   String (ascii_of_nat (Z.to_nat (48 + n / 10 mod 10)))
     (String (ascii_of_nat (Z.to_nat (48 + n mod 10))) EmptyString))%string.
Proof.
  intros Hn. unfold JS.place. cbv zeta. cbn [Nat.eqb].
  assert (M : (if n =? 0 then "0"%string else JS.decimal n) = JS.decimal n).
  { destruct (Z.eqb_spec n 0) as [->|_]; reflexivity. }
  rewrite M. clear M.
  destruct (Z_lt_le_dec n 10) as [A|A].
  { rewrite decimal_small by lia.
    rewrite (Z.div_small n 100), (Z.div_small n 10), (Z.mod_small n 10) by lia.
    reflexivity. }
  destruct (Z_lt_le_dec n 100) as [B|B].
  { rewrite decimal_step by lia.
    assert (Q : 1 <= n / 10 < 10).
    { split; [apply Z.div_le_lower_bound; lia|apply Z.div_lt_upper_bound; lia]. }
    rewrite decimal_small by lia.
    rewrite (Z.div_small n 100), (Z.mod_small (n / 10) 10) by lia.
    reflexivity. }
  assert (Q : 10 <= n / 10) by (apply Z.div_le_lower_bound; lia).
  rewrite (decimal_step n), (decimal_step (n / 10)) by lia.
  rewrite Z.div_div by lia. change (10 * 10) with 100.
  set (a := JS.decimal (n / 100)).
  set (d1 := ascii_of_nat (Z.to_nat (48 + n / 10 mod 10))).
  set (d0 := ascii_of_nat (Z.to_nat (48 + n mod 10))).
  pose proof (decimal_nonempty (n / 100)) as La. fold a in La.
  rewrite append_assoc. cbn [append].
  assert (Len : String.length (a ++ String d1 (String d0 EmptyString)) =
                (String.length a + 2)%nat)
    by (rewrite length_append; reflexivity).
  rewrite Len.
  destruct (Nat.leb_spec (String.length a + 2) 2) as [C|C]; [lia|].
  rewrite Len. replace (String.length a + 2 - 2)%nat with (String.length a) by lia.
  rewrite substring_0_append, substring_skip. reflexivity.
Qed.

End DecimalDigits.

(** ** Cents divided by 100 *)
Section Cents.
Import Binary64.

(** An integer of at most 53 bits, scaled by a power of two, is a float. *)
Lemma RND_dyadic (N j : Z) :
  0 <= N < 2 ^ 53 -> 53 <= j -> N * 2 ^ j < top -> RND (N * 2 ^ j) 1 = N * 2 ^ j.
Proof.
  intros HN Hj T.
  destruct (Z.eq_dec N 0) as [->|Nz]; [apply RND_0; lia|].
  assert (Pj : 0 < 2 ^ j) by (apply pow2_pos; lia).
  rewrite RND_pos by nia.
  set (d := Zdigits2 N).
  assert (Hd : 0 < d <= 53).
  { split; [apply Zdigits2_pos; lia|apply digits_lt_pow; lia]. }
  assert (EQ : N * 2 ^ (53 - d) * 2 ^ (j - (53 - d)) = N * 2 ^ j).
  { rewrite <- (Z.mul_assoc N), <- (Z.pow_add_r 2 (53 - d) (j - (53 - d))) by lia.
    now replace (53 - d + (j - (53 - d))) with j by lia. }
  rewrite <- EQ. apply RNDpos_exact.
  - apply Z.mul_pos_pos; [lia|apply pow2_pos; lia].
  - lia.
  - rewrite Zdigits2_shl by lia. fold d. lia.
  - now rewrite EQ.
Qed.

Lemma Z2F_exact (c : Z) : - 2 ^ 53 < c < 2 ^ 53 -> val (JS.Z2F c) = c * 2 ^ 1074.
Proof.
  intros Hc. unfold JS.Z2F. destruct (Z.ltb_spec c 0) as [N|P].
  - destruct (N2F_val (- c)) as (Nn & _); [lia|].
    rewrite (proj2 (opp_val _ Nn)), N2F_exact by lia. lia.
  - apply N2F_exact. lia.
Qed.

(** The float nearest to c/100 is within 1/256 of it. *)
Lemma cents_quotient (c : Z) :
  0 <= c < 2 ^ 51 ->
  is_num (JS.Z2F c / 100) = true /\
  (c * 256 / 100) * 2 ^ 1066 <= val (JS.Z2F c / 100) <= ((c * 256 + 99) / 100) * 2 ^ 1066.
Proof.
  intros Hc.
  destruct (Z2F_val c) as (Nc & _).
  assert (P51 : 2 ^ 51 < 2 ^ 53) by (apply Z.pow_lt_mono_r; lia).
  pose proof (Z2F_exact c ltac:(lia)) as Vc.
  destruct (div_r_val 100 7036874417766400 (-46) eq_refl _ Nc) as (Nq & Vq).
  split; [exact Nq|]. rewrite Vq, Vc. clear Vq Vc Nq Nc.
  assert (U : 0 < 2 ^ 1066) by (apply pow2_pos; lia).
  assert (E1074 : 2 ^ 1074 = 256 * 2 ^ 1066)
    by (change 256 with (2 ^ 8); rewrite <- Z.pow_add_r by lia; reflexivity).
  assert (Etop : top = 2 ^ 1032 * 2 ^ 1066)
    by (unfold top; rewrite <- Z.pow_add_r by lia; reflexivity).
  assert (P1032 : 2 ^ 53 < 2 ^ 1032) by (apply Z.pow_lt_mono_r; lia).
  rewrite extend_fin by (rewrite Etop, E1074; nia).
  change (val 100) with (100 * 2 ^ 1074).
  set (q1 := c * 256 / 100). set (q2 := (c * 256 + 99) / 100).
  assert (Q1 : 100 * q1 <= c * 256 < 100 * q1 + 100).
  { unfold q1. pose proof (Z.mul_div_le (c * 256) 100 ltac:(lia)).
    pose proof (Z.mul_succ_div_gt (c * 256) 100 ltac:(lia)). lia. }
  assert (Q2 : 100 * q2 <= c * 256 + 99 < 100 * q2 + 100).
  { unfold q2. pose proof (Z.mul_div_le (c * 256 + 99) 100 ltac:(lia)).
    pose proof (Z.mul_succ_div_gt (c * 256 + 99) 100 ltac:(lia)). lia. }
  assert (R1 : 0 <= q1 < 2 ^ 53) by lia.
  assert (R2 : 0 <= q2 < 2 ^ 53) by lia.
  rewrite <- (RND_dyadic q1 1066), <- (RND_dyadic q2 1066);
    try lia; try (rewrite Etop; nia).
  split; apply RND_mono; try lia; rewrite E1074; nia.
Qed.

(** What [toFixed(2)] writes of a positive float below 10^21 in terms of its
    value. *)
Lemma toFixed_2_val (x : float) (s : bool) (m : positive) (e : Z) :
  Prim2SF x = S754_finite s m e ->
  Zpos m * 2 ^ (e + 1074) < 10 ^ 21 * 2 ^ 1074 ->
  JS.toFixed x 2 =
  ((if s then "-" else "") ++
   JS.place ((200 * (Zpos m * 2 ^ (e + 1074)) + 2 ^ 1074) / 2 ^ 1075) 2)%string.
Proof.
  intros P B. pose proof (Prim2SF_valid x) as V. rewrite P in V.
  destruct (valid_finite _ _ _ V) as (He & _).
  unfold JS.toFixed. rewrite P.
  assert (P74 : 0 < 2 ^ 1074) by (apply pow2_pos; lia).
  assert (S1 : 2 ^ 1075 = 2 * 2 ^ 1074)
    by (change 1075 with (1 + 1074); rewrite Z.pow_add_r by lia; reflexivity).
  destruct (Z_le_gt_dec 0 e) as [Pos|Neg].
  - (* an integer *)
    assert (Sp : 2 ^ (e + 1074) = 2 ^ e * 2 ^ 1074) by (apply Z.pow_add_r; lia).
    assert (Pe : 0 < 2 ^ e) by (apply pow2_pos; lia).
    unfold JS.fleb, JS.fcompare, JS.scaled. cbn [fst snd].
    destruct (Z.leb_spec 0 e); [|lia]. cbn [Z.leb Z.of_nat Pos.of_succ_nat Pos.succ].
    change (0 <=? 21) with true. change (0 <=? 0) with true. change (0 <=? 2) with true.
    cbv iota.
    rewrite Sp in B.
    match goal with
    | |- context [?a ?= ?b] =>
        assert (C : (a ?= b) = Gt)
          by (apply Z.compare_gt_iff; change (10 ^ 0) with 1; change (2 ^ 0) with 1; nia);
        rewrite C
    end.
    f_equal. f_equal.
    rewrite Sp, S1. change (10 ^ 2) with 100.
    replace (2 * (Z.pos m * 2 ^ e * 100) + 1 * 1) with (1 + (Z.pos m * 2 ^ e * 100) * 2) by lia.
    replace (200 * (Z.pos m * (2 ^ e * 2 ^ 1074)) + 2 ^ 1074)
      with (2 ^ 1074 + (Z.pos m * 2 ^ e * 100) * (2 * 2 ^ 1074)) by lia.
    rewrite !Z.div_add by lia.
    rewrite (Z.div_small 1 (2 * (1 * 1))) by lia.
    rewrite (Z.div_small (2 ^ 1074)) by lia. reflexivity.
  - (* a fraction *)
    assert (Sp : 2 ^ 1074 = 2 ^ (e + 1074) * 2 ^ (- e)).
    { rewrite <- Z.pow_add_r by lia. f_equal. lia. }
    assert (Pe : 0 < 2 ^ (- e)) by (apply pow2_pos; lia).
    assert (Pf : 0 < 2 ^ (e + 1074)) by (apply pow2_pos; lia).
    unfold JS.fleb, JS.fcompare, JS.scaled. cbn [fst snd].
    destruct (Z.leb_spec 0 e); [lia|]. cbn [Z.leb Z.of_nat Pos.of_succ_nat Pos.succ].
    change (0 <=? 21) with true. change (0 <=? 0) with true. change (0 <=? 2) with true.
    cbv iota.
    rewrite Sp in B.
    match goal with
    | |- context [?a ?= ?b] =>
        assert (C : (a ?= b) = Gt)
          by (apply Z.compare_gt_iff; change (10 ^ 0) with 1; change (2 ^ 0) with 1; nia);
        rewrite C
    end.
    f_equal. f_equal.
    change (10 ^ 2) with 100. rewrite S1, Sp.
    replace (200 * (Z.pos m * 2 ^ (e + 1074)) + 2 ^ (e + 1074) * 2 ^ (- e))
      with ((2 * (Z.pos m * 100) + 2 ^ (- e) * 1) * 2 ^ (e + 1074)) by ring.
    replace (2 * (2 ^ (e + 1074) * 2 ^ (- e)))
      with (2 * (2 ^ (- e) * 1) * 2 ^ (e + 1074)) by ring.
    rewrite Z.div_mul_cancel_r by lia. reflexivity.
Qed.

End Cents.

Section FormatCents.
Import Binary64.

Lemma finite_shape (x : float) :
  is_num x = true -> val x <> 0 -> - top < val x < top ->
  exists (s : bool) (m : positive) (e : Z),
    Prim2SF x = S754_finite s m e /\ s = (val x <? 0) /\
    Zpos m * 2 ^ (e + 1074) = Z.abs (val x).
Proof.
  unfold is_num, val. pose proof top_pos as T.
  pose proof (Prim2SF_valid x) as V.
  destruct (Prim2SF x) as [s|s| |s m e]; cbn [SFval not_nan]; intros N Z0 H;
    try discriminate; try lia.
  - destruct s; lia.
  - pose proof (valid_val_bounds _ _ _ V) as B.
    exists s, m, e. split; [reflexivity|].
    destruct s.
    + split; [symmetry; apply Z.ltb_lt; lia|lia].
    + split; [symmetry; apply Z.ltb_ge; lia|lia].
Qed.

Lemma cents_quotient_opp (c : Z) :
  0 <= c < 2 ^ 51 ->
  is_num (JS.Z2F (- c) / 100) = true /\
  val (JS.Z2F (- c) / 100) = - val (JS.Z2F c / 100).
Proof.
  intros Hc.
  assert (P51 : 2 ^ 51 < 2 ^ 53) by (apply Z.pow_lt_mono_r; lia).
  destruct (Z2F_val c) as (Nc & _). destruct (Z2F_val (- c)) as (Nn & _).
  pose proof (Z2F_exact c ltac:(lia)) as Vc.
  pose proof (Z2F_exact (- c) ltac:(lia)) as Vn.
  destruct (div_r_val 100 7036874417766400 (-46) eq_refl _ Nc) as (_ & Vq).
  destruct (div_r_val 100 7036874417766400 (-46) eq_refl _ Nn) as (Nq & Vqn).
  split; [exact Nq|]. rewrite Vq, Vqn, Vc, Vn.
  assert (P74 : 0 < 2 ^ 1074) by (apply pow2_pos; lia).
  assert (Etop : top = 2 ^ 1024 * 2 ^ 1074)
    by (unfold top; rewrite <- Z.pow_add_r by lia; reflexivity).
  assert (P1024 : 2 ^ 53 < 2 ^ 1024) by (apply Z.pow_lt_mono_r; lia).
  rewrite !extend_fin by (rewrite Etop; nia).
  change (val 100) with (100 * 2 ^ 1074).
  replace (- c * 2 ^ 1074 * 2 ^ 1074) with (- (c * 2 ^ 1074 * 2 ^ 1074)) by ring.
  apply RND_opp. lia.
Qed.

(** The digits [toFixed(2)] writes of c/100 are those of c. *)
Lemma toFixed_cents (c : Z) :
  0 < c < 2 ^ 51 ->
  JS.toFixed (JS.Z2F c / 100) 2 = JS.place c 2 /\
  JS.toFixed (JS.Z2F (- c) / 100) 2 = ("-" ++ JS.place c 2)%string.
Proof.
  intros Hc.
  destruct (cents_quotient c ltac:(lia)) as (Nq & Lo & Hi).
  destruct (cents_quotient_opp c ltac:(lia)) as (Nn & Vn).
  set (V := val (JS.Z2F c / 100)) in *.
  assert (P51 : 2 ^ 51 < 2 ^ 53) by (apply Z.pow_lt_mono_r; lia).
  assert (U : 0 < 2 ^ 1066) by (apply pow2_pos; lia).
  assert (E1074 : 2 ^ 1074 = 256 * 2 ^ 1066)
    by (change 256 with (2 ^ 8); rewrite <- Z.pow_add_r by lia; reflexivity).
  assert (E1075 : 2 ^ 1075 = 512 * 2 ^ 1066)
    by (change 512 with (2 ^ 9); rewrite <- Z.pow_add_r by lia; reflexivity).
  assert (Etop : top = 2 ^ 1032 * 2 ^ 1066)
    by (unfold top; rewrite <- Z.pow_add_r by lia; reflexivity).
  assert (P1032 : 2 ^ 53 < 2 ^ 1032) by (apply Z.pow_lt_mono_r; lia).
  assert (Q1 : 100 * (c * 256 / 100) <= c * 256 < 100 * (c * 256 / 100) + 100).
  { pose proof (Z.mul_div_le (c * 256) 100 ltac:(lia)).
    pose proof (Z.mul_succ_div_gt (c * 256) 100 ltac:(lia)). lia. }
  assert (Q2 : 100 * ((c * 256 + 99) / 100) <= c * 256 + 99).
  { apply Z.mul_div_le. lia. }
  set (q1 := c * 256 / 100) in *. set (q2 := (c * 256 + 99) / 100) in *.
  assert (Vpos : 0 < V) by nia.
  assert (Vtop : V < top) by (rewrite Etop; nia).
  assert (T21 : V < 10 ^ 21 * 2 ^ 1074).
  { rewrite E1074. assert (2 ^ 53 < 10 ^ 21) by (apply Z.ltb_lt; reflexivity). nia. }
  assert (N : (200 * V + 2 ^ 1074) / 2 ^ 1075 = c).
  { symmetry. apply (Z.div_unique _ _ c (200 * V + 2 ^ 1074 - 2 ^ 1075 * c)).
    - left. rewrite E1074, E1075. nia.
    - ring. }
  split.
  - destruct (finite_shape _ Nq) as (s & m & e & P & Hs & Hm); [fold V; lia|fold V; lia|].
    fold V in Hs, Hm. rewrite Z.abs_eq in Hm by lia.
    destruct (Z.ltb_spec V 0); [lia|]. subst s.
    rewrite (toFixed_2_val _ _ _ _ P) by (rewrite Hm; exact T21).
    rewrite Hm, N. reflexivity.
  - destruct (finite_shape _ Nn) as (s & m & e & P & Hs & Hm);
      [rewrite Vn; lia|rewrite Vn; lia|].
    rewrite Vn in Hs, Hm. rewrite Z.abs_neq in Hm by lia.
    destruct (Z.ltb_spec (- V) 0); [|lia]. subst s.
    rewrite (toFixed_2_val _ _ _ _ P) by (rewrite Hm; lia).
    rewrite Hm, Z.opp_involutive, N. reflexivity.
Qed.

(** X18. [formatCents] prints the amount exactly.  For every whole number
    of cents c with |c| < 2^51, the division by 100 and the rounding of
    [toFixed(2)] lose nothing: the text is "$", a minus sign if c is
    negative, the decimal digits of |c| / 100, a point, and the two digits of
    |c| mod 100. *)
Theorem formatCents_exact (cents : Z) :
  - 2 ^ 51 < cents < 2 ^ 51 ->
  Utils.formatCents cents =
  ("$" ++ (if (cents <? 0)%Z then "-" else "") ++
   JS.decimal (Z.abs cents / 100) ++ "." ++
   String (ascii_of_nat (Z.to_nat (48 + Z.abs cents / 10 mod 10)))
     (String (ascii_of_nat (Z.to_nat (48 + Z.abs cents mod 10))) EmptyString))%string.
Proof.
  intros Hc. unfold Utils.formatCents. f_equal.
  destruct (Z.ltb_spec cents 0) as [N|P].
  - destruct (toFixed_cents (- cents)) as (_ & T); [lia|].
    rewrite Z.opp_involutive in T. rewrite T, Z.abs_neq by lia.
    now rewrite place_2 by lia.
  - destruct (Z.eq_dec cents 0) as [->|Nz]; [reflexivity|].
    destruct (toFixed_cents cents) as (T & _); [lia|].
    rewrite T, Z.abs_eq by lia. cbn [append]. now rewrite place_2 by lia.
Qed.

Lemma formatCents_exact_witness :
  Utils.formatCents 12345 =
  ("$" ++ (if (12345 <? 0)%Z then "-" else "") ++
   JS.decimal (Z.abs 12345 / 100) ++ "." ++
   String (ascii_of_nat (Z.to_nat (48 + Z.abs 12345 / 10 mod 10)))
     (String (ascii_of_nat (Z.to_nat (48 + Z.abs 12345 mod 10))) EmptyString))%string.
Proof.
  apply (formatCents_exact 12345). lia.
Defined.

End FormatCents.

(** ** How much of the seeds a round uses *)
Section Entropy.
Import PlinkoEngine Stream.

(** X19. A round uses 32 bits of its combined seed.  Two combined seeds
    that agree on their first 8 characters give the same round source, the
    same draws, and so the same peg map and path for every row count and drop
    column; and a seed that starts with 00000000 gives the source of a seed
    that starts with 00000001, whatever follows. *)
Theorem round_uses_first_8_characters (seed1 seed2 : string) :
  String.substring 0 8 seed1 = String.substring 0 8 seed2 ->
  RoundRNG.new seed1 = RoundRNG.new seed2 /\
  (forall k : nat, draw_at k (RoundRNG.new seed1) = draw_at k (RoundRNG.new seed2)) /\
  (forall (rows : Z) (dropColumn : float),
     drawRound rows dropColumn (RoundRNG.new seed1) =
     drawRound rows dropColumn (RoundRNG.new seed2)) /\
  (forall rest1 rest2 : string,
     RoundRNG.new ("00000000" ++ rest1) = RoundRNG.new ("00000001" ++ rest2)).
Proof.
  intros H.
  assert (E : RoundRNG.new seed1 = RoundRNG.new seed2).
  { unfold RoundRNG.new, ProvablyFairProtocol.extractPRNGSeed. now rewrite H. }
  split; [exact E|]. split; [intros k; now rewrite E|].
  split; [intros rows d; now rewrite E|].
  intros rest1 rest2. unfold RoundRNG.new, ProvablyFairProtocol.extractPRNGSeed.
  change 8%nat with (String.length "00000000") at 1.
  change 8%nat with (String.length "00000001").
  rewrite !substring_0_append. reflexivity.
Qed.

Lemma round_uses_first_8_characters_witness :
  RoundRNG.new "e1dddf77aaaa" = RoundRNG.new "e1dddf77bbbb" /\
  (forall k : nat,
     draw_at k (RoundRNG.new "e1dddf77aaaa") = draw_at k (RoundRNG.new "e1dddf77bbbb")) /\
  (forall (rows : Z) (dropColumn : float),
     drawRound rows dropColumn (RoundRNG.new "e1dddf77aaaa") =
     drawRound rows dropColumn (RoundRNG.new "e1dddf77bbbb")) /\
  (forall rest1 rest2 : string,
     RoundRNG.new ("00000000" ++ rest1) = RoundRNG.new ("00000001" ++ rest2)).
Proof.
  apply (round_uses_first_8_characters "e1dddf77aaaa" "e1dddf77bbbb"). reflexivity.
Defined.

(** X20. The seeds and the nonce are joined with ":" and nothing marks
    where one ends.  Moving a piece across a colon changes neither digest:
    the commitment to (secret ":" x, nonce) is the commitment to
    (secret, x ":" nonce), and [verifyCommit] accepts it for both; the
    combined seed of (secret, client ":" x, nonce) is that of
    (secret, client, x ":" nonce), and [playRound] returns the same for
    both. *)
Theorem fields_are_not_delimited
    (serverSeed clientSeed x nonce : string) (dropColumn : float) (rows betCents : Z) :
  ProvablyFairProtocol.createCommitHash (serverSeed ++ ":" ++ x) nonce =
    ProvablyFairProtocol.createCommitHash serverSeed (x ++ ":" ++ nonce) /\
  ProvablyFairProtocol.verifyCommit (serverSeed ++ ":" ++ x) nonce
    (ProvablyFairProtocol.createCommitHash serverSeed (x ++ ":" ++ nonce)) = true /\
  ProvablyFairProtocol.generateCombinedSeed serverSeed (clientSeed ++ ":" ++ x) nonce =
    ProvablyFairProtocol.generateCombinedSeed serverSeed clientSeed (x ++ ":" ++ nonce) /\
  playRound serverSeed (clientSeed ++ ":" ++ x) nonce dropColumn rows betCents =
    playRound serverSeed clientSeed (x ++ ":" ++ nonce) dropColumn rows betCents.
Proof.
  assert (A : ((serverSeed ++ ":" ++ x) ++ ":" ++ nonce =
               serverSeed ++ ":" ++ x ++ ":" ++ nonce)%string).
  { rewrite append_assoc. reflexivity. }
  assert (B : (serverSeed ++ ":" ++ (clientSeed ++ ":" ++ x) ++ ":" ++ nonce =
               serverSeed ++ ":" ++ clientSeed ++ ":" ++ x ++ ":" ++ nonce)%string).
  { f_equal. f_equal. rewrite append_assoc. reflexivity. }
  split; [|split; [|split]].
  - unfold ProvablyFairProtocol.createCommitHash. now rewrite A.
  - unfold ProvablyFairProtocol.verifyCommit, ProvablyFairProtocol.createCommitHash.
    rewrite A. apply String.eqb_refl.
  - unfold ProvablyFairProtocol.generateCombinedSeed. now rewrite B.
  - unfold playRound. now rewrite B.
Qed.

End Entropy.

(** ** The clamp at work *)
Section Unclamped.
Import PlinkoEngine Stream Binary64.

Lemma clamp_inside (x : float) :
  (0 <? x)%float = true -> (x <? 1)%float = true ->
  JS.Math_max 0 (JS.Math_min 1 x) = x.
Proof.
  intros A B. pose proof A as A'. pose proof B as B'.
  apply ltb_iff in A', B'. destruct A' as (N0 & Nx & L0). destruct B' as (_ & N1 & L1).
  unfold JS.Math_min. rewrite (is_nan_false x Nx). change (is_nan 1) with false. cbn [orb].
  rewrite (ltb_of_val 1 x N1 Nx), B.
  destruct (Z.ltb_spec (val 1) (val x)); [lia|].
  unfold JS.Math_max. rewrite (is_nan_false x Nx). change (is_nan 0) with false. cbn [orb].
  now rewrite A.
Qed.

Lemma adj_of_finite (dropColumn : float) :
  (0 <=? dropColumn)%float = true -> (dropColumn <=? 12)%float = true ->
  finite_or_zero (Prim2SF (adj_of dropColumn)) = true.
Proof.
  intros L U. apply (bounded_finite _ (adj_of 0) (adj_of 12));
    [reflexivity|reflexivity|apply adj_of_mono, L|apply adj_of_mono, U].
Qed.

(** The sum the clamp is given, for a peg bias in [0.4, 0.6] and a column
    in 0..12. *)
Lemma adjusted_sum_range (leftBias dropColumn : float) :
  (0.4 <=? leftBias)%float = true -> (leftBias <=? 0.6)%float = true ->
  (0 <=? dropColumn)%float = true -> (dropColumn <=? 12)%float = true ->
  (0.4 + adj_of 0 <=? leftBias + adj_of dropColumn)%float = true /\
  (leftBias + adj_of dropColumn <=? 0.6 + adj_of 12)%float = true.
Proof.
  intros L U D0 D12. pose proof (adj_of_finite dropColumn D0 D12) as Fa.
  split.
  - apply (leb_trans _ (0.4 + adj_of dropColumn)).
    + apply (add_l_mono 0.4 eq_refl). apply adj_of_mono, D0.
    + apply (add_r_mono _ Fa). exact L.
  - apply (leb_trans _ (0.6 + adj_of dropColumn)).
    + apply (add_r_mono _ Fa). exact U.
    + apply (add_l_mono 0.6 eq_refl). apply adj_of_mono, D12.
Qed.

Lemma adjustedBias_unclamped (leftBias dropColumn : float) :
  (0.4 <=? leftBias)%float = true -> (leftBias <=? 0.6)%float = true ->
  (0 <=? dropColumn)%float = true -> (dropColumn <=? 12)%float = true ->
  adjustedBias_of leftBias (adj_of dropColumn) = (leftBias + adj_of dropColumn)%float /\
  (0.33 <? adjustedBias_of leftBias (adj_of dropColumn))%float = true /\
  (adjustedBias_of leftBias (adj_of dropColumn) <? 0.67)%float = true.
Proof.
  intros L U D0 D12.
  destruct (adjusted_sum_range leftBias dropColumn L U D0 D12) as (A & B).
  assert (Lo : (0.33 <? leftBias + adj_of dropColumn)%float = true)
    by (apply (ltb_leb_trans _ (0.4 + adj_of 0)); [reflexivity|exact A]).
  assert (Hi : (leftBias + adj_of dropColumn <? 0.67)%float = true)
    by (apply (leb_ltb_trans _ (0.6 + adj_of 12)); [exact B|reflexivity]).
  assert (E : adjustedBias_of leftBias (adj_of dropColumn) =
              (leftBias + adj_of dropColumn)%float).
  { unfold adjustedBias_of. apply clamp_inside.
    - apply (leb_ltb_trans _ 0.33); [reflexivity|exact Lo].
    - apply (ltb_leb_trans _ 0.67); [exact Hi|reflexivity]. }
  rewrite E. now repeat split.
Qed.

(** X21. For a drop column from 0 to 12, whole or not, the clamp never
    clamps.  In every such
    round of at least 12 rows, at every step the adjusted bias is exactly the
    peg bias plus (dropColumn - 6) * 0.01, and it lies strictly between 0.33
    and 0.67: no step is decided with certainty. *)
Theorem valid_columns_are_never_clamped
    (serverSeed clientSeed nonce : string) (dropColumn : float) (rows betCents : Z) :
  12 <= rows -> (0 <=? dropColumn)%float = true -> (dropColumn <=? 12)%float = true ->
  exists g : GameResult,
    playRound serverSeed clientSeed nonce dropColumn rows betCents = Returns g /\
    forall step : GamePath, In step (path g) ->
      adjustedBias step = (pegBias step + (dropColumn - 6) * 0.01)%float /\
      (0.33 <? adjustedBias step)%float = true /\
      (adjustedBias step <? 0.67)%float = true.
Proof.
  intros Hrows D0 D12.
  destruct (playRound_returns serverSeed clientSeed nonce dropColumn rows betCents Hrows)
    as (last_step & _ & Hplay).
  eexists. split; [exact Hplay|]. cbn [path].
  intros step Hin. apply In_nth_error in Hin. destruct Hin as (k & Hk).
  assert (Hk12 : (k < 12)%nat).
  { rewrite <- (walk_length (triangle (Z.to_nat rows) 0
                               (RoundRNG.new (SHA256.hex
                                  (serverSeed ++ ":" ++ clientSeed ++ ":" ++ nonce))))
                  (adj_of dropColumn) 12 0 0
                  (advance (triangular (Z.to_nat rows))
                     (RoundRNG.new (SHA256.hex
                        (serverSeed ++ ":" ++ clientSeed ++ ":" ++ nonce))))).
    apply nth_error_Some. congruence. }
  apply walk_step in Hk.
  destruct Hk as (_ & _ & _ & Hadj & _ & p & Hp & Hbias).
  rewrite Hadj. cbn [Nat.add] in Hp, Hbias.
  assert (R : (0.4 <=? pegBias step)%float = true /\ (pegBias step <=? 0.6)%float = true).
  { rewrite Hbias.
    destruct (triangle_entry (Z.to_nat rows) k p
                (RoundRNG.new (SHA256.hex (serverSeed ++ ":" ++ clientSeed ++ ":" ++ nonce))))
      as (pegRow & Hrow & _ & Hv); [lia|lia|].
    rewrite (nth_error_nth _ _ [] Hrow), (nth_error_nth _ _ nan Hv).
    apply roundedBias_draw_range. }
  destruct R as (L & U).
  exact (adjustedBias_unclamped (pegBias step) dropColumn L U D0 D12).
Qed.

Lemma valid_columns_are_never_clamped_witness :
  exists g : GameResult,
    playRound Vector.serverSeed Vector.clientSeed Vector.nonce 12 12 100 = Returns g /\
    forall step : GamePath, In step (path g) ->
      adjustedBias step = (pegBias step + (12 - 6) * 0.01)%float /\
      (0.33 <? adjustedBias step)%float = true /\
      (adjustedBias step <? 0.67)%float = true.
Proof.
  apply (valid_columns_are_never_clamped
           Vector.serverSeed Vector.clientSeed Vector.nonce 12 12 100);
    [lia|reflexivity|reflexivity].
Defined.

End Unclamped.

(** ** Reading back what was printed *)
Section ReadDecimal.
Import Measure.

Lemma digit_cases (d : Z) :
  0 <= d < 10 ->
  d = 0 \/ d = 1 \/ d = 2 \/ d = 3 \/ d = 4 \/ d = 5 \/ d = 6 \/ d = 7 \/ d = 8 \/ d = 9.
Proof. lia. Qed.

Ltac each_digit H :=
  destruct (digit_cases _ H) as [E|[E|[E|[E|[E|[E|[E|[E|[E|E]]]]]]]]]; subst.

Lemma digit_value_char (d : Z) :
  0 <= d < 10 -> JS.digit_value 10 (digit_char d) = Some d.
Proof. intros H. each_digit H; reflexivity. Qed.

Lemma digit_char_plain (d : Z) :
  0 <= d < 10 ->
  JS.is_white_space (digit_char d) = false /\
  ((digit_char d =? "$")%char || (digit_char d =? ",")%char) = false /\
  (digit_char d =? "-")%char = false /\ (digit_char d =? "+")%char = false /\
  (digit_char d =? "I")%char = false.
Proof. intros H. each_digit H; repeat split; reflexivity. Qed.

Lemma numeral_app (ds es : list Z) :
  numeral (ds ++ es) = (numeral ds ++ numeral es)%string.
Proof.
  unfold numeral. rewrite map_app.
  induction (map digit_char ds) as [|c l IH]; [reflexivity|].
  cbn [app string_of_list_ascii append]. now rewrite IH.
Qed.

(** The digits of a number, as [decimal] writes them. *)
Lemma decimal_numeral (k : nat) (n : Z) :
  0 <= n < 10 ^ Z.of_nat k ->
  exists ds : list Z,
    JS.decimal n = numeral ds /\ Forall (fun d => 0 <= d < 10) ds /\
    ds <> [] /\ number_of ds 0 = n.
Proof.
  revert n. induction k as [|k IH]; intros n Hn.
  - change (10 ^ Z.of_nat 0) with 1 in Hn. exists [n].
    split; [apply decimal_small; lia|].
    split; [constructor; [lia|constructor]|]. split; [discriminate|].
    cbn [number_of fold_left]. lia.
  - destruct (Z_lt_le_dec n 10) as [S|L].
    + exists [n]. split; [apply decimal_small; lia|].
      split; [constructor; [lia|constructor]|]. split; [discriminate|].
      cbn [number_of fold_left]. lia.
    + rewrite Nat2Z.inj_succ, Z.pow_succ_r in Hn by lia.
      destruct (IH (n / 10)) as (ds & E & F & N & V).
      { split; [apply Z.div_pos; lia|apply Z.div_lt_upper_bound; lia]. }
      pose proof (Z.mod_pos_bound n 10 ltac:(lia)) as M.
      exists (ds ++ [n mod 10]). split; [|split; [|split]].
      * rewrite (decimal_step n L), E, numeral_app. reflexivity.
      * apply Forall_app. split; [exact F|]. constructor; [lia|constructor].
      * intros A. apply app_eq_nil in A. destruct A as (_ & A). discriminate.
      * unfold number_of in *. rewrite fold_left_app, V. cbn [fold_left].
        pose proof (Z.div_mod n 10 ltac:(lia)). lia.
Qed.

Lemma decimal_digits (n : Z) :
  0 <= n ->
  exists ds : list Z,
    JS.decimal n = numeral ds /\ Forall (fun d => 0 <= d < 10) ds /\
    ds <> [] /\ number_of ds 0 = n.
Proof.
  intros Hn. apply (decimal_numeral (S (Z.to_nat (Z.log2 n)))).
  split; [exact Hn|apply log2_fuel, Hn].
Qed.

(** A run of digits is read as the number it writes, and what follows is
    read after it. *)
Lemma decimal_run_numeral (ds : list Z) (rest : string) (acc count : Z) :
  Forall (fun d => 0 <= d < 10) ds ->
  JS.decimal_run (numeral ds ++ rest) acc count =
  JS.decimal_run rest (number_of ds acc) (count + Z.of_nat (List.length ds)).
Proof.
  intros F. revert acc count. induction F as [|d ds Hd F IH]; intros acc count.
  - cbn [numeral map string_of_list_ascii append number_of fold_left List.length Z.of_nat].
    now rewrite Z.add_0_r.
  - change (numeral (d :: ds)) with (String (digit_char d) (numeral ds)).
    cbn [append JS.decimal_run]. rewrite (digit_value_char d Hd), IH.
    cbn [number_of fold_left List.length]. f_equal. lia.
Qed.

(** Nothing is taken out of a run of digits. *)
Lemma cleaned_numeral (ds : list Z) (rest : string) :
  Forall (fun d => 0 <= d < 10) ds ->
  Utils.cleaned (numeral ds ++ rest) = (numeral ds ++ Utils.cleaned rest)%string.
Proof.
  intros F. induction F as [|d ds Hd F IH]; [reflexivity|].
  change (numeral (d :: ds)) with (String (digit_char d) (numeral ds)).
  cbn [append Utils.cleaned].
  destruct (digit_char_plain d Hd) as (_ & C & _). rewrite C, IH. reflexivity.
Qed.

Lemma cleaned_app (a b : string) :
  Utils.cleaned (a ++ b) = (Utils.cleaned a ++ Utils.cleaned b)%string.
Proof.
  induction a as [|c a IH]; [reflexivity|].
  cbn [append Utils.cleaned]. destruct (_ || _); [exact IH|].
  cbn [append]. now rewrite IH.
Qed.

(** [parseFloat] on a text that starts with a digit, a point within it. *)
Lemma parseFloat_digit (c : ascii) (r r1 r2 : string) (a na b nb : Z) :
  JS.is_white_space c = false ->
  (c =? "-")%char = false -> (c =? "+")%char = false -> (c =? "I")%char = false ->
  JS.decimal_run (String c r) 0 0 = (a, na, String "." r1) ->
  JS.decimal_run r1 a 0 = (b, nb, r2) -> na <> 0 ->
  JS.parseFloat (String c r) = JS.of_decimal b (JS.exponent_part r2 - nb) /\
  JS.parseFloat (String "-" (String c r)) =
    (- JS.of_decimal b (JS.exponent_part r2 - nb))%float.
Proof.
  intros W Mi Pl In R1 R2 Na.
  assert (S : match String c r with
              | String "-" r' => (true, r')
              | String "+" r' => (false, r')
              | _ => (false, String c r)
              end = (false, String c r)).
  { clear - Mi Pl. destruct c as [b0 b1 b2 b3 b4 b5 b6 b7].
    destruct b0, b1, b2, b3, b4, b5, b6, b7; try reflexivity; discriminate. }
  assert (I : String.prefix "Infinity" (String c r) = false).
  { cbn [String.prefix]. destruct (ascii_dec "I" c) as [<-|_]; [discriminate|reflexivity]. }
  assert (Z0 : (na =? 0) = false) by (apply Z.eqb_neq; exact Na).
  split.
  - unfold JS.parseFloat. cbn [JS.trim_start]. rewrite W. cbv iota.
    rewrite S, I, R1, R2, Z0. reflexivity.
  - unfold JS.parseFloat. cbn [JS.trim_start].
    change (JS.is_white_space "-") with false. cbv iota.
    rewrite I, R1, R2, Z0. reflexivity.
Qed.

(** An amount with two decimals: the text, and what [parseFloat] makes of
    it after [cleaned]. *)
Lemma parseFloat_place (n : Z) :
  0 < n ->
  JS.parseFloat (Utils.cleaned ("$" ++ JS.place n 2)) = JS.of_decimal n (- 2) /\
  JS.parseFloat (Utils.cleaned ("$" ++ "-" ++ JS.place n 2)) =
    (- JS.of_decimal n (- 2))%float.
Proof.
  intros Hn. rewrite place_2 by lia.
  destruct (decimal_digits (n / 100)) as (ds & E & F & N & V);
    [apply Z.div_pos; lia|].
  pose proof (Z.mod_pos_bound (n / 10) 10 ltac:(lia)) as D1.
  pose proof (Z.mod_pos_bound n 10 ltac:(lia)) as D0.
  fold (digit_char (n / 10 mod 10)). fold (digit_char (n mod 10)).
  set (d1 := n / 10 mod 10) in *. set (d0 := n mod 10) in *.
  assert (Hv : 10 * (10 * (n / 100) + d1) + d0 = n).
  { unfold d1, d0. pose proof (Z.div_mod n 10 ltac:(lia)).
    pose proof (Z.div_mod (n / 10) 10 ltac:(lia)).
    rewrite Z.div_div in * by lia. change (10 * 10) with 100 in *. lia. }
  rewrite E.
  change (String (digit_char d1) (String (digit_char d0) EmptyString))
    with (numeral [d1; d0] ++ EmptyString)%string.
  assert (F2 : Forall (fun d => 0 <= d < 10) [d1; d0]) by (repeat constructor; lia).
  assert (C : Utils.cleaned (numeral ds ++ "." ++ numeral [d1; d0] ++ EmptyString) =
              (numeral ds ++ "." ++ numeral [d1; d0] ++ EmptyString)%string).
  { rewrite cleaned_numeral by exact F. f_equal.
    change (Utils.cleaned ("." ++ numeral [d1; d0] ++ EmptyString))
      with (String "." (Utils.cleaned (numeral [d1; d0] ++ EmptyString))).
    rewrite cleaned_numeral by exact F2. reflexivity. }
  assert (R1 : JS.decimal_run (numeral ds ++ "." ++ numeral [d1; d0] ++ EmptyString) 0 0 =
               (n / 100, Z.of_nat (List.length ds),
                String "." (numeral [d1; d0] ++ EmptyString))).
  { rewrite decimal_run_numeral by exact F. rewrite V. reflexivity. }
  assert (R2 : JS.decimal_run (numeral [d1; d0] ++ EmptyString) (n / 100) 0 =
               (n, 2, EmptyString)).
  { rewrite decimal_run_numeral by exact F2.
    cbn [JS.decimal_run number_of fold_left List.length Z.of_nat Pos.of_succ_nat
         Pos.succ Z.add].
    now rewrite Hv. }
  assert (L : Z.of_nat (List.length ds) <> 0) by (destruct ds; [congruence|cbn; lia]).
  destruct ds as [|d ds]; [congruence|]. inversion F as [|? ? Hd F']; subst.
  destruct (digit_char_plain d Hd) as (W & _ & Mi & Pl & In).
  set (tail := (numeral [d1; d0] ++ EmptyString)%string) in *.
  change (numeral (d :: ds) ++ "." ++ tail)%string
    with (String (digit_char d) (numeral ds ++ "." ++ tail)) in *.
  destruct (parseFloat_digit _ _ _ _ _ _ _ _ W Mi Pl In R1 R2 L) as (P & Q).
  change (JS.exponent_part EmptyString - 2) with (- 2) in P, Q.
  split.
  - rewrite (cleaned_app "$"), C. exact P.
  - rewrite (cleaned_app "$"), (cleaned_app "-"), C. exact Q.
Qed.

End ReadDecimal.

(** ** A decimal literal as a float *)
Section Literal.
Import Binary64.

(** The float [parseFloat] makes of the digits [m] with [k] of them after
    the point is the binary64 nearest to [m / 10^k]. *)
Lemma of_decimal_fraction (m k : Z) :
  0 < m -> 0 < k ->
  is_num (JS.of_decimal m (- k)) = true /\
  val (JS.of_decimal m (- k)) = RNDpos (m * 2 ^ 1074) (10 ^ k).
Proof.
  intros Hm Hk. unfold JS.of_decimal.
  destruct (Z.eqb_spec m 0) as [?|_]; [lia|].
  destruct (Z.leb_spec 0 (- k)) as [?|_]; [lia|].
  rewrite Z.opp_involutive.
  assert (HB : 0 < 10 ^ k) by (apply Z.pow_pos_nonneg; lia).
  set (B := 10 ^ k) in *. clearbody B.
  unfold SFdiv_core_binary. rewrite fexp_eq.
  set (d1 := Zdigits2 m). set (d2 := Zdigits2 B).
  set (e' := Z.min (Z.max (d1 + 0 - (d2 + 0) - 53) (-1074)) (0 - 0)).
  set (s := 0 - 0 - e').
  assert (Hs : 0 <= s) by (unfold s, e'; lia).
  set (m' := match s with Z0 => m | Zpos _ => Z.shiftl m s | Zneg _ => 0 end).
  assert (Hm' : m' = m * 2 ^ s).
  { unfold m'. destruct s as [|p|p] eqn:Es; try lia.
    apply Z.shiftl_mul_pow2. lia. }
  pose proof (pow2_pos s Hs) as Ps.
  assert (Pm' : 0 < m') by nia.
  destruct (Z.div_eucl m' B) as [q rm] eqn:DE.
  assert (Hq : q = m' / B) by (unfold Z.div; now rewrite DE).
  assert (Hr : rm = m' mod B) by (unfold Z.modulo; now rewrite DE).
  assert (HQ : 4 * q + lcode (new_location B rm) = qcode m' B).
  { rewrite Hq, Hr. apply new_location_code; lia. }
  assert (HE : e' <= fexp prec emax (Zdigits2 q + e')).
  { rewrite fexp_eq, Hq.
    pose proof (digits_div_lower m' B Pm' HB) as DL.
    assert (Dg : Zdigits2 m' = d1 + s) by (rewrite Hm'; apply Zdigits2_shl; lia).
    rewrite Dg in DL. fold d2 in DL.
    pose proof (Zdigits2_nonneg (m' / B)) as Dn.
    set (dq := Zdigits2 (m' / B)) in *.
    unfold s, e' in *. clear - DL Dn. lia. }
  destruct (bra_val false q e' (new_location B rm) m' B
              ltac:(lia) HB HQ HE) as (V & N & S).
  unfold is_num, val. rewrite (Prim2SF_SF2Prim _ V).
  split; [exact N|]. rewrite S. unfold RNDe. rewrite Hm'.
  pose proof (pow2_pos (Z.max (e' + 1074) 0) ltac:(lia)).
  pose proof (pow2_pos (Z.max (-1074 - e') 0) ltac:(lia)).
  pose proof (pow2_pos 1074 ltac:(lia)).
  apply RNDpos_ext; [nia | nia | lia | ].
  replace (m * 2 ^ s * 2 ^ Z.max (e' + 1074) 0 * B)
    with (m * B * 2 ^ (s + Z.max (e' + 1074) 0))
    by (rewrite !Z.pow_add_r by lia; ring).
  replace (m * 2 ^ 1074 * (B * 2 ^ Z.max (-1074 - e') 0))
    with (m * B * 2 ^ (1074 + Z.max (-1074 - e') 0))
    by (rewrite !Z.pow_add_r by lia; ring).
  f_equal. f_equal. unfold s, e'. lia.
Qed.

(** An amount of [c] cents, written with two decimals and read back, is the
    float of [c / 100]. *)
Lemma of_decimal_cents (c : Z) :
  0 < c < 2 ^ 51 -> JS.of_decimal c (- 2) = (JS.Z2F c / 100)%float.
Proof.
  intros Hc.
  destruct (of_decimal_fraction c 2 ltac:(lia) ltac:(lia)) as (Nd & Vd).
  change (Z.opp 2) with (-2) in Nd, Vd.
  destruct (cents_quotient c ltac:(lia)) as (Nq & Lo & _).
  assert (P51 : 2 ^ 51 < 2 ^ 53) by (apply Z.pow_lt_mono_r; lia).
  assert (P74 : 0 < 2 ^ 1074) by (apply pow2_pos; lia).
  assert (U : 0 < 2 ^ 1066) by (apply pow2_pos; lia).
  assert (Etop : top = 2 ^ 1024 * 2 ^ 1074)
    by (unfold top; rewrite <- Z.pow_add_r by lia; reflexivity).
  assert (P1024 : 2 ^ 53 < 2 ^ 1024) by (apply Z.pow_lt_mono_r; lia).
  assert (Vq : val (JS.Z2F c / 100) = RNDpos (c * 2 ^ 1074) (10 ^ 2)).
  { destruct (Z2F_val c) as (Nc & _).
    destruct (div_r_val 100 7036874417766400 (-46) eq_refl _ Nc) as (_ & Vq).
    rewrite Vq, (Z2F_exact c) by lia.
    rewrite extend_fin by (rewrite Etop; nia).
    change (val 100) with (100 * 2 ^ 1074). change (10 ^ 2) with 100.
    rewrite RND_pos by nia.
    apply RNDpos_ext; [nia|lia|lia|ring]. }
  symmetry. apply val_inj; [exact Nq|exact Nd|now rewrite Vq, Vd|].
  assert (2 <= c * 256 / 100) by (apply Z.div_le_lower_bound; lia).
  nia.
Qed.

(** Cents divided by 100 and multiplied by 100 again are within 7/16 of the
    cents. *)
Lemma cents_product (c : Z) :
  0 < c < 2 ^ 49 ->
  is_num (JS.Z2F c / 100 * 100) = true /\
  (16 * c - 7) * 2 ^ 1070 <= val (JS.Z2F c / 100 * 100) <= (16 * c + 7) * 2 ^ 1070.
Proof.
  intros Hc.
  assert (P49 : 2 ^ 49 < 2 ^ 51) by (apply Z.pow_lt_mono_r; lia).
  destruct (cents_quotient c ltac:(lia)) as (Nq & Lo & Hi).
  destruct (mul_r_val 100 7036874417766400 (-46) eq_refl _ Nq) as (Np & Vp).
  split; [exact Np|]. rewrite Vp. clear Vp Np.
  set (V := val (JS.Z2F c / 100)) in *.
  assert (E49 : 2 ^ 53 = 16 * 2 ^ 49) by reflexivity.
  assert (U : 0 < 2 ^ 1066) by (apply pow2_pos; lia).
  assert (U70 : 0 < 2 ^ 1070) by (apply pow2_pos; lia).
  assert (P74 : 0 < 2 ^ 1074) by (apply pow2_pos; lia).
  assert (E1070 : 2 ^ 1070 = 16 * 2 ^ 1066)
    by (change 16 with (2 ^ 4); rewrite <- Z.pow_add_r by lia; reflexivity).
  assert (E1074 : 2 ^ 1074 = 256 * 2 ^ 1066)
    by (change 256 with (2 ^ 8); rewrite <- Z.pow_add_r by lia; reflexivity).
  assert (Etop : top = 2 ^ 1028 * 2 ^ 1070)
    by (unfold top; rewrite <- Z.pow_add_r by lia; reflexivity).
  assert (P1028 : 2 ^ 53 < 2 ^ 1028) by (apply Z.pow_lt_mono_r; lia).
  assert (Q1 : c * 256 < 100 * (c * 256 / 100) + 100).
  { pose proof (Z.mul_succ_div_gt (c * 256) 100 ltac:(lia)). lia. }
  assert (Q2 : 100 * ((c * 256 + 99) / 100) <= c * 256 + 99).
  { apply Z.mul_div_le. lia. }
  assert (Q0 : 0 <= c * 256 / 100) by (apply Z.div_pos; lia).
  set (q1 := c * 256 / 100) in *. set (q2 := (c * 256 + 99) / 100) in *.
  rewrite extend_fin by (rewrite Etop, E1070; nia).
  change (val 100) with (100 * 2 ^ 1074).
  rewrite <- (RND_dyadic (16 * c - 7) 1070), <- (RND_dyadic (16 * c + 7) 1070);
    try lia; try (rewrite Etop; nia).
  split; apply RND_mono; try lia; rewrite E1070; nia.
Qed.

Lemma RHU_near (c W : Z) :
  (16 * c - 7) * 2 ^ 1070 <= W <= (16 * c + 7) * 2 ^ 1070 ->
  RHU W = c * 2 ^ 1074 /\ RHU (- W) = - c * 2 ^ 1074.
Proof.
  intros H. unfold RHU.
  assert (U70 : 0 < 2 ^ 1070) by (apply pow2_pos; lia).
  assert (E1073 : 2 ^ 1073 = 8 * 2 ^ 1070)
    by (change 8 with (2 ^ 3); rewrite <- Z.pow_add_r by lia; reflexivity).
  assert (E1074 : 2 ^ 1074 = 16 * 2 ^ 1070)
    by (change 16 with (2 ^ 4); rewrite <- Z.pow_add_r by lia; reflexivity).
  split.
  - rewrite (Z.div_unique (W + 2 ^ 1073) (2 ^ 1074) c (W + 2 ^ 1073 - c * 2 ^ 1074));
      [ring|left; rewrite E1073, E1074; nia|ring].
  - rewrite (Z.div_unique (- W + 2 ^ 1073) (2 ^ 1074) (- c)
               (- W + 2 ^ 1073 + c * 2 ^ 1074));
      [ring|left; rewrite E1073, E1074; nia|ring].
Qed.

(** Rounded, the product is the cents again, of either sign. *)
Lemma cents_back (c : Z) :
  0 < c < 2 ^ 49 ->
  JS.Math_round (JS.Z2F c / 100 * 100) = JS.Z2F c /\
  JS.Math_round (- (JS.Z2F c / 100) * 100) = JS.Z2F (- c).
Proof.
  intros Hc.
  assert (P49 : 2 ^ 49 < 2 ^ 53) by (apply Z.pow_lt_mono_r; lia).
  assert (P74 : 0 < 2 ^ 1074) by (apply pow2_pos; lia).
  destruct (cents_product c Hc) as (Np & B).
  destruct (RHU_near c _ B) as (R1 & R2).
  destruct (Z2F_val c) as (Nc & _). destruct (Z2F_val (- c)) as (Nn & _).
  pose proof (Z2F_exact c ltac:(lia)) as Vc.
  pose proof (Z2F_exact (- c) ltac:(lia)) as Vn.
  split.
  - destruct (Math_round_val _ Np) as (Nr & Vr).
    apply val_inj; [exact Nr|exact Nc|rewrite Vr, R1, Vc; ring|].
    rewrite Vr, R1. nia.
  - destruct (cents_quotient c) as (Nq & _); [lia|].
    destruct (opp_val _ Nq) as (No & Vo).
    destruct (mul_r_val 100 7036874417766400 (-46) eq_refl _ No) as (Nm & Vm).
    destruct (mul_r_val 100 7036874417766400 (-46) eq_refl _ Nq) as (_ & Vp).
    assert (Vneg : val (- (JS.Z2F c / 100) * 100) = - val (JS.Z2F c / 100 * 100)).
    { rewrite Vm, Vp, Vo.
      pose proof (Prim2SF_valid (JS.Z2F c / 100)) as Vq.
      assert (Fin : - top < val (JS.Z2F c / 100) < top).
      { destruct (cents_quotient c) as (_ & Lo & Hi); [lia|].
        assert (U : 0 < 2 ^ 1066) by (apply pow2_pos; lia).
        assert (Etop : top = 2 ^ 1032 * 2 ^ 1066)
          by (unfold top; rewrite <- Z.pow_add_r by lia; reflexivity).
        assert (P1032 : 2 ^ 53 < 2 ^ 1032) by (apply Z.pow_lt_mono_r; lia).
        assert (Q2 : 100 * ((c * 256 + 99) / 100) <= c * 256 + 99)
          by (apply Z.mul_div_le; lia).
        assert (Q0 : 0 <= c * 256 / 100) by (apply Z.div_pos; lia).
        rewrite Etop. nia. }
      rewrite !extend_fin by lia.
      rewrite Z.mul_opp_l. apply RND_opp. lia. }
    destruct (Math_round_val _ Nm) as (Nr & Vr).
    apply val_inj; [exact Nr|exact Nn|rewrite Vr, Vneg, R2, Vn; ring|].
    rewrite Vr, Vneg, R2. nia.
Qed.

End Literal.

Section RoundTrip.

Lemma formatCents_place (c : Z) :
  0 < c < 2 ^ 51 ->
  Utils.formatCents c = ("$" ++ JS.place c 2)%string /\
  Utils.formatCents (- c) = ("$" ++ "-" ++ JS.place c 2)%string.
Proof.
  intros Hc. destruct (toFixed_cents c Hc) as (T1 & T2).
  unfold Utils.formatCents. now rewrite T1, T2.
Qed.

(** X22. Printing cents and reading them back gives the cents.  For every
    whole number of cents c with |c| < 2^49, [parseDollars] applied to the
    text [formatCents] writes for c returns the number c: the division by
    100, the two printed decimals, the decimal literal read by [parseFloat],
    the multiplication by 100 and [Math.round] lose nothing between them. *)
Theorem parseDollars_formatCents (cents : Z) :
  - 2 ^ 49 < cents < 2 ^ 49 ->
  Utils.parseDollars (Utils.formatCents cents) = JS.Z2F cents.
Proof.
  intros Hc.
  assert (P49 : 2 ^ 49 < 2 ^ 51) by (apply Z.pow_lt_mono_r; lia).
  destruct (Z.lt_trichotomy cents 0) as [N|[->|P]].
  - destruct (formatCents_place (- cents)) as (_ & F); [lia|].
    destruct (parseFloat_place (- cents)) as (_ & R); [lia|].
    destruct (cents_back (- cents)) as (_ & B); [lia|].
    rewrite Z.opp_involutive in F, B.
    unfold Utils.parseDollars. rewrite F, R, of_decimal_cents by lia. exact B.
  - reflexivity.
  - destruct (formatCents_place cents) as (F & _); [lia|].
    destruct (parseFloat_place cents) as (R & _); [lia|].
    destruct (cents_back cents) as (B & _); [lia|].
    unfold Utils.parseDollars. rewrite F, R, of_decimal_cents by lia. exact B.
Qed.

Lemma parseDollars_formatCents_witness :
  Utils.parseDollars (Utils.formatCents (- 12345)) = JS.Z2F (- 12345).
Proof.
  apply (parseDollars_formatCents (- 12345)). lia.
Defined.

(** X23. [parseDollars] checks nothing about where [$] and [,] stand: taking
    one out of the text, or putting one in, anywhere, changes nothing of the
    result. *)
Theorem parseDollars_ignores_symbols (before after : string) :
  Utils.parseDollars (before ++ "$" ++ after) = Utils.parseDollars (before ++ after) /\
  Utils.parseDollars (before ++ "," ++ after) = Utils.parseDollars (before ++ after).
Proof.
  unfold Utils.parseDollars.
  rewrite !cleaned_app. split; reflexivity.
Qed.

End RoundTrip.

(** ** The state always moves *)
Section FixedPoint.
Import Binary64 Xorshift Stream Bitwise.

(** The bits of the successor, from the bits of a state. *)
Lemma step_bit (s i : Z) :
  0 <= i < 32 -> Z.testbit (xorshift32_step s) i = bitC (Z.testbit s) i.
Proof.
  intros Hi. unfold xorshift32_step. cbv zeta.
  set (x1 := Z.lxor s (Z.shiftl s 13) mod 2 ^ 32).
  set (x2 := Z.lxor x1 (Z.shiftr x1 17) mod 2 ^ 32).
  assert (X1 : forall k, 0 <= k < 32 -> Z.testbit x1 k = bitA (Z.testbit s) k).
  { intros k Hk. unfold x1, bitA.
    rewrite Z.mod_pow2_bits_low, Z.lxor_spec, Z.shiftl_spec by lia.
    destruct (Z.leb_spec 13 k); [reflexivity|].
    now rewrite (Z.testbit_neg_r s (k - 13)) by lia. }
  assert (X2 : forall k, 0 <= k < 32 -> Z.testbit x2 k = bitB (Z.testbit s) k).
  { intros k Hk. unfold x2, bitB.
    rewrite Z.mod_pow2_bits_low, Z.lxor_spec, Z.shiftr_spec, (X1 k Hk) by lia.
    destruct (Z.ltb_spec (k + 17) 32); [now rewrite X1 by lia|].
    now rewrite (high_bits x1 (k + 17)) by (try apply mod32_range; lia). }
  unfold bitC.
  rewrite Z.mod_pow2_bits_low, Z.lxor_spec, Z.shiftl_spec, (X2 i Hi) by lia.
  destruct (Z.leb_spec 5 i); [now rewrite X2 by lia|].
  now rewrite (Z.testbit_neg_r x2 (i - 5)) by lia.
Qed.

Lemma combine_false (t : Z -> bool) (mask : Z) :
  (forall i, 0 <= i < 32 -> moved t i = false) -> combine t mask = false.
Proof.
  intros H. unfold combine.
  assert (R : Forall (fun i => 0 <= i < 32) (map Z.of_nat (seq 0 32))).
  { apply Forall_forall. intros i Hi. apply in_map_iff in Hi.
    destruct Hi as (n & <- & Hn). apply in_seq in Hn. lia. }
  induction R as [|i l Hi R IH]; [reflexivity|].
  cbn [fold_right]. rewrite IH, (H i Hi). now destruct (Z.testbit mask i).
Qed.

(** Each bit of the state is the XOR of the bits of [moved] that its entry
    of [inverse] selects. *)
Lemma combine_inverse (t : Z -> bool) (j : nat) :
  (j < 32)%nat -> combine t (nth j inverse 0) = t (Z.of_nat j).
Proof.
  intros Hj.
  do 32 (destruct j as [|j]; [cbv -[xorb]; btauto|]).
  lia.
Qed.

(** No 32-bit state but 0 is its own successor. *)
Lemma xorshift32_step_moves (s : Z) :
  0 < s < 2 ^ 32 -> xorshift32_step s <> s.
Proof.
  intros Hs E. assert (Z0 : s = 0); [|lia].
  apply Z.bits_inj'. intros n Hn. rewrite Z.bits_0.
  destruct (Z_lt_le_dec n 32) as [L|G]; [|apply high_bits; lia].
  rewrite <- (Z2Nat.id n Hn), <- (combine_inverse (Z.testbit s)) by lia.
  apply combine_false. intros i Hi.
  unfold moved. rewrite <- (step_bit s i Hi), E. apply xorb_nilpotent.
Qed.

Lemma to_unit_differ (a b : Z) :
  0 <= a < 2 ^ 32 -> 0 <= b < 2 ^ 32 -> a <> b ->
  (XORShift32.to_unit a =? XORShift32.to_unit b)%float = false.
Proof.
  intros Ha Hb N. apply not_true_is_false. intros E.
  apply eqb_iff in E. destruct E as (_ & _ & E).
  rewrite !to_unit_exact in E by assumption.
  assert (P : 0 < 2 ^ 1042) by (apply pow2_pos; lia).
  apply Z.mul_cancel_r in E; lia.
Qed.

(** X24. The generator never stalls.  From a state in [1, 2^32 - 1] a call
    of [next()] always leaves a different state; so, whatever the seed, no
    two consecutive calls of [next()] return the same number, and no two
    consecutive draws of a round source are equal, whatever string it is
    built from. *)
Theorem generator_never_stalls :
  (forall g : XORShift32.t,
     0 < XORShift32.getState g < 2 ^ 32 ->
     XORShift32.getState (snd (XORShift32.next g)) <> XORShift32.getState g) /\
  (forall (seed : JS.number) (k : nat),
     (fst (nth_call k (XORShift32.new seed)) =?
      fst (nth_call (S k) (XORShift32.new seed)))%float = false) /\
  (forall (combinedSeed : string) (k : nat),
     (draw_at k (RoundRNG.new combinedSeed) =?
      draw_at (S k) (RoundRNG.new combinedSeed))%float = false).
Proof.
  assert (D : forall s, 0 < s < 2 ^ 32 ->
            (XORShift32.to_unit (xorshift32_step s) =?
             XORShift32.to_unit (xorshift32_step (xorshift32_step s)))%float = false).
  { intros s Hs. pose proof (xorshift32_step_pos s Hs) as P1.
    pose proof (xorshift32_step_pos _ P1) as P2.
    apply to_unit_differ; [lia|lia|].
    intros E. now apply (xorshift32_step_moves (xorshift32_step s) P1). }
  split; [|split].
  - intros g Hg. unfold XORShift32.getState in *. rewrite next_snd_state.
    now apply xorshift32_step_moves.
  - intros seed k. generalize (new_state_range seed).
    generalize (XORShift32.new seed). clear seed.
    induction k as [|k IH]; intros g Hg.
    + cbn [nth_call]. rewrite !next_fst, next_snd_state. now apply D.
    + change (nth_call (S (S k)) g) with (nth_call (S k) (snd (XORShift32.next g))).
      change (nth_call (S k) g) with (nth_call k (snd (XORShift32.next g))).
      apply IH. rewrite next_snd_state. now apply xorshift32_step_pos.
  - intros combinedSeed k.
    assert (H : 0 < XORShift32.state (RoundRNG.prng (RoundRNG.new combinedSeed)) < 2 ^ 32)
      by apply new_state_range.
    revert H. generalize (RoundRNG.new combinedSeed).
    induction k as [|k IH]; intros r Hr.
    + rewrite draw_at_S, !draw_at_0, !round_next_fst, round_next_state. now apply D.
    + rewrite (draw_at_S (S k)), (draw_at_S k).
      apply IH. rewrite round_next_state. now apply xorshift32_step_pos.
Qed.

End FixedPoint.

(** ** The shape of the pay table *)
Section Shape.
Import PlinkoEngine Binary64.

(** X25. The pay table is a valley, for every number of bins.  The entry
    of bin [bins / 2] (rounded down) is exactly 0.5, no entry is below it,
    and of two bins the one further from that centre never pays less. *)
Theorem paytable_grows_with_distance (bins i j : Z) :
  0 <= i < bins -> 0 <= j < bins ->
  Z.abs (i - bins / 2) <= Z.abs (j - bins / 2) ->
  (nth (Z.to_nat i) (getPayoutMultipliers bins) nan <=?
   nth (Z.to_nat j) (getPayoutMultipliers bins) nan)%float = true /\
  (0.5 <=? nth (Z.to_nat i) (getPayoutMultipliers bins) nan)%float = true /\
  nth (Z.to_nat (bins / 2)) (getPayoutMultipliers bins) nan = 0.5%float.
Proof.
  intros Hi Hj L.
  assert (Hc : 0 <= bins / 2 < bins).
  { split; [apply Z.div_pos; lia|apply Z.div_lt_upper_bound; lia]. }
  assert (C : multiplier_of (bins / 2) (bins / 2) = 0.5%float).
  { rewrite multiplier_of_distance, Z.sub_diag. reflexivity. }
  rewrite !getPayoutMultipliers_nth by lia.
  split; [apply multiplier_mono; exact L|].
  split; [|exact C].
  rewrite <- C. apply multiplier_mono. lia.
Qed.

Lemma paytable_grows_with_distance_witness :
  (nth (Z.to_nat 5) (getPayoutMultipliers 13) nan <=?
   nth (Z.to_nat 0) (getPayoutMultipliers 13) nan)%float = true /\
  (0.5 <=? nth (Z.to_nat 5) (getPayoutMultipliers 13) nan)%float = true /\
  nth (Z.to_nat (13 / 2)) (getPayoutMultipliers 13) nan = 0.5%float.
Proof.
  apply (paytable_grows_with_distance 13 5 0);
    [lia|lia|apply Z.leb_le; vm_compute; reflexivity].
Defined.

End Shape.
